(** * DSDA over reformulated GDP models: a shallow embedding

    The development follows three source files of the repository:
    - [dsda_gdp_reactor.py]: the k=2 neighbourhood generator, the candidate
      filter, the EXPLORE scan, the LINE-SEARCH step and the DSDA driver
      (module [Reactor]);
    - [Automatic_reformulation_python_Test/reformulation_functions.py]: the
      scanner [get_external_information] and the generic fixing operation
      [external_ref] (module [Reformulation]);
    - [gdp/small_batch/gdp_small_batch.py]: the hand-written [external_ref]
      of the small batch problem (module [SmallBatch]).

    Conventions of the embedding.
    - A Python exception is a value of [exn]; a function that can raise
      returns in [Res].
    - A Python [dict] is an insertion-ordered association list with unique
      keys ([dict_set] overwrites in place or appends, as [d[k] = v] does).
    - External-variable vectors are lists of [Z].  The source computes them
      with numpy floats ([np.eye]); every value that occurs is a small
      integer, which a double represents exactly, so [Z] is used.
    - Objective values are Python floats.  The search applies two
      operations to them, [act_obj + tol] and [... < fmin]; it is defined
      over a type [F] with these operations (class [Objective]), whose
      instance for the program is the type of the doubles with their
      addition and comparison.  The rationals with exact arithmetic are a
      second instance. *)

From Stdlib Require Import ZArith QArith Lqa List String Sorted.
From Stdlib Require Import Floats.PrimFloat Floats.FloatOps Floats.SpecFloat.
From Stdlib Require Import Uint63.
From stdpp Require Import base tactics option list strings pretty.

Set Default Proof Using "Type".
Open Scope Z_scope.

(** ** Exceptions and the result monad *)

Inductive exn : Set :=
  | KeyError
  | IndexError
  | TypeError
  | NameError
  | GDP_Error.

Inductive Res (A : Type) : Type :=
  | Ok (a : A)
  | Raise (e : exn).
Arguments Ok {A} a.
Arguments Raise {A} e.

#[global] Instance Res_ret : MRet Res := @Ok.
#[global] Instance Res_bind : MBind Res :=
  λ A B f m, match m with Ok a => f a | Raise e => Raise e end.
#[global] Instance Res_fmap : FMap Res :=
  λ A B f m, match m with Ok a => Ok (f a) | Raise e => Raise e end.

(** [for b in l: a = f(a, b)] where the body may raise. *)
Fixpoint foldM {A B : Type} (f : A → B → Res A) (a : A) (l : list B) : Res A :=
  match l with
  | [] => Ok a
  | b :: l' => a' ← f a b; foldM f a' l'
  end.

(** [l[j]] for a non-negative position. *)
Definition list_getitem {A : Type} (l : list A) (j : nat) : Res A :=
  match l !! j with
  | Some a => Ok a
  | None => Raise IndexError
  end.

(** ** Insertion-ordered dictionaries *)

(** [dict K V]: the entries in insertion order. *)
Abbreviation dict K V := (list (K * V)) (only parsing).

Section dict.
Context {K V : Type} `{EqDecision K}.
Implicit Types d : dict K V.

Fixpoint dict_get (d : dict K V) (k : K) : option V :=
  match d with
  | [] => None
  | (k', v) :: d' => if decide (k = k') then Some v else dict_get d' k
  end.

(** [d[k]] *)
Definition dict_getitem (d : dict K V) (k : K) : Res V :=
  match dict_get d k with
  | Some v => Ok v
  | None => Raise KeyError
  end.

(** [d[k] = v] *)
Fixpoint dict_set (d : dict K V) (k : K) (v : V) : dict K V :=
  match d with
  | [] => [(k, v)]
  | (k', v') :: d' =>
      if decide (k = k') then (k, v) :: d' else (k', v') :: dict_set d' k v
  end.

(** [d.pop(k, None)], the popped value dropped *)
Fixpoint dict_pop (d : dict K V) (k : K) : dict K V :=
  match d with
  | [] => []
  | (k', v') :: d' =>
      if decide (k = k') then d' else (k', v') :: dict_pop d' k
  end.

(** [d.keys()] in iteration order *)
Definition dict_keys (d : dict K V) : list K := d.*1.

Definition dict_values (d : dict K V) : list V := d.*2.
End dict.

(** * dsda_gdp_reactor.py *)

Module Reactor.

(** A vector of external variables, a direction, a neighbour. *)
Abbreviation vec := (list Z) (only parsing).

(** [list(map(sum, zip(a, b)))]: [zip] stops at the shorter list. *)
Definition vec_add (a b : vec) : vec := zip_with Z.add a b.

(** *** neighborhood_k_eq_2 *)

(** [np.eye(n)] *)
Definition eye (n : nat) : list (list Z) :=
  (λ r, (λ c, if decide (r = c) then 1 else 0) <$> seq 0 n) <$> seq 0 n.

(** unary minus on an array *)
Definition negative (a : list (list Z)) : list (list Z) :=
  (λ row : list Z, Z.opp <$> row) <$> a.

(** [np.concatenate((a, b), axis=1)] *)
Definition concatenate_axis1 (a b : list (list Z)) : list (list Z) :=
  zip_with app a b.

(** [a[j, i]] *)
Definition array_getitem (a : list (list Z)) (j i : nat) : Res Z :=
  row ← list_getitem a j; list_getitem row i.

Definition neighborhood_k_eq_2 (num_ext : nat) : Res (dict Z vec) :=
  let num_neigh := (2 * num_ext)%nat in
  let neighbors := concatenate_axis1 (eye num_ext) (negative (eye num_ext)) in
  foldM (λ directions i,
           direct ← mapM (λ j, array_getitem neighbors j i) (seq 0 num_ext);
           Ok (dict_set directions (Z.of_nat i + 1) direct))
        [] (seq 0 num_neigh).

(** *** my_neighbors *)

(** The bound-check loop shared by [my_neighbors] and [move_and_evaluate]:
<<
    checked = 0
    for j in range(n):
        if point[j] >= min_allowed[j+1] and point[j] <= max_allowed[j+1]:
            checked += 1
>>  *)
Definition check_coord (point : vec) (min_allowed max_allowed : dict Z Z)
    (checked j : nat) : Res nat :=
  p ← list_getitem point j;
  lo ← dict_getitem min_allowed (Z.of_nat j + 1);
  if bool_decide (lo ≤ p) then
    p' ← list_getitem point j;
    hi ← dict_getitem max_allowed (Z.of_nat j + 1);
    Ok (if bool_decide (p' ≤ hi) then S checked else checked)
  else Ok checked.

Definition count_checked (point : vec) (n : nat)
    (min_allowed max_allowed : dict Z Z) : Res nat :=
  foldM (check_coord point min_allowed max_allowed) 0%nat (seq 0 n).

(** [neighbors = {0: start}] followed by the loop
    [for i in neighborhood.keys(): neighbors[i] = start + neighborhood[i]]. *)
Definition shifted (start : vec) (neighborhood : dict Z vec) : dict Z vec :=
  foldl (λ nb '(i, d), dict_set nb i (vec_add start d)) [(0, start)] neighborhood.

(** Body of the loop over [neighbors.keys()]: the bound check of one
    candidate. *)
Definition keep_checked (min_allowed max_allowed : dict Z Z) (num_vars : nat)
    (new_neighbors : dict Z vec) (iv : Z * vec) : Res (dict Z vec) :=
  checked ← count_checked iv.2 num_vars min_allowed max_allowed;
  Ok (if decide (checked = num_vars)
      then dict_set new_neighbors iv.1 iv.2 else new_neighbors).

(** Body of the loop over [list(temp.keys())]: [temp] and [new_neighbors]
    are the same object. *)
Definition drop_cheating (new_neighbors : dict Z vec) (i : Z)
    : Res (dict Z vec) :=
  v ← dict_getitem new_neighbors i;
  a ← list_getitem v 1;
  v' ← dict_getitem new_neighbors i;
  b ← list_getitem v' 0;
  Ok (if bool_decide (a - b > 0) then dict_pop new_neighbors i
      else new_neighbors).

Definition my_neighbors (start : vec) (neighborhood : dict Z vec)
    (optimize : bool) (min_allowed max_allowed : dict Z Z) (cheating : bool)
    : Res (dict Z vec) :=
  let neighbors := shifted start neighborhood in
  if optimize then
    n0 ← dict_getitem neighbors 0;
    let num_vars := length n0 in
    new_neighbors ←
      foldM (keep_checked min_allowed max_allowed num_vars) [] neighbors;
    if cheating then
      foldM drop_cheating new_neighbors (dict_keys new_neighbors)
    else Ok new_neighbors
  else Ok neighbors.

(** The bounds the driver passes at both of its call sites. *)
Definition dsda_min_allowed : dict Z Z := [(1, 1); (2, 1)].
Definition dsda_max_allowed : dict Z Z := [(1, 5); (2, 5)].

(** *** The solver adapter and the objective values *)

(** [pe.SolverStatus] *)
Module SolverStatus.
Inductive t : Set := ok | warning | error | aborted | unknown.
#[global] Instance eq_dec : EqDecision t.
Proof. solve_decision. Defined.
End SolverStatus.

(** Objective values, with what the driver does with them: the sum
    [act_obj + tol], the comparison [... < fmin], and [0.00001], the default
    of the parameter [tol]. *)
Class Objective (F : Type) : Type := {
  obj_add : F → F → F;
  obj_ltb : F → F → bool;
  tol_default : F
}.

(** The values of the program: [pe.value(m.obj)] is a Python float, a
    double; [+] and [<] are the operations of the doubles, and [0.00001] is
    the double nearest to it. *)
#[global] Instance float_objective : Objective float :=
  {| obj_add := PrimFloat.add;
     obj_ltb := PrimFloat.ltb;
     tol_default := 0x1.4f8b588e368f1p-17%float |}.

(** The rationals with exact arithmetic. *)
Definition Qltb (a b : Q) : bool := if Qlt_le_dec a b then true else false.

#[global] Instance exact_objective : Objective Q :=
  {| obj_add := Qplus; obj_ltb := Qltb; tol_default := 1 # 100000 |}.

(** What the statements on the order of the recorded values use of the
    operations: [<] is a strict order, and a value is not above its sum
    with the tolerance.  Exact arithmetic has these properties. *)
Class ObjectiveOrder (F : Type) `{!Objective F} : Prop := {
  obj_ltb_irrefl (a : F) : obj_ltb a a = false;
  obj_ltb_trans (a b c : F) :
    obj_ltb a b = true → obj_ltb b c = true → obj_ltb a c = true;
  obj_add_tol (a b : F) :
    obj_ltb (obj_add a tol_default) b = true → obj_ltb a b = true
}.

(** The rational that a finite double stands for. *)
Definition float_val (f : float) : option Q :=
  match Prim2SF f with
  | S754_zero _ => Some 0%Q
  | S754_finite s m e =>
      let v := if 0 <=? e then inject_Z (Z.pos m * 2 ^ e)
               else (Z.pos m # Pos.pow 2 (Z.to_pos (- e)))%Q in
      Some (if s then (- v)%Q else v)
  | _ => None
  end.

(** The double of a small integer. *)
Definition float_of_Z (z : Z) : float :=
  if z <? 0 then PrimFloat.opp (PrimFloat.of_uint63 (Uint63.of_Z (- z)))
  else PrimFloat.of_uint63 (Uint63.of_Z z).

(** One call of [fnlp_gdp], as the arguments it received. *)
Record call : Type := Call {
  call_NT : Z;
  call_x : vec;
  call_provide_init : bool
}.

(** How a computation of the driver ends: with a value, with an exception,
    or at the bound on the number of loop iterations. *)
Inductive outcome (A : Type) : Type :=
  | Done (a : A)
  | Exn (e : exn)
  | OutOfFuel.
Arguments Done {A} a.
Arguments Exn {A} e.
Arguments OutOfFuel {A}.

(** *** Notions used in the statements about the neighbourhood and the
    bounds *)

(** Column [i] of [np.concatenate((np.eye(n), -np.eye(n)), axis=1)]. *)
Definition signed_unit (n i : nat) : list Z :=
  (λ j, if decide (i < n)%nat
        then (if decide (j = i) then 1 else 0)
        else - (if decide (j = (i - n)%nat) then 1 else 0)) <$> seq 0 n.

(** The dictionary built by the loop: keys [1..2n] in this order. *)
Definition directions_upto (n m : nat) : dict Z (list Z) :=
  (λ i, (Z.of_nat i + 1, signed_unit n i)) <$> seq 0 m.

(** Coordinate [j] of [v] lies between [min_allowed[j+1]] and
    [max_allowed[j+1]]. *)
Definition coord_ok (min_allowed max_allowed : dict Z Z) (v : list Z) (j : nat)
    : Prop :=
  ∃ p lo hi, v !! j = Some p ∧
    dict_get min_allowed (Z.of_nat j + 1) = Some lo ∧
    dict_get max_allowed (Z.of_nat j + 1) = Some hi ∧ lo ≤ p ≤ hi.

(** Every coordinate of [v] lies within its bounds. *)
Definition within (min_allowed max_allowed : dict Z Z) (v : list Z) : Prop :=
  ∀ j, (j < length v)%nat → coord_ok min_allowed max_allowed v j.

(** *** The store of the driver *)

Section objective.
Context {F : Type}.

(** The mutable objects of a run: the dictionaries of candidates (a
    reference is a position in [heap]), the list [route] of the driver, and
    two histories that the claims speak about: [calls], the calls of
    [fnlp_gdp] in order, and [fmin_log], the value of the variable [fmin]
    belonging to each element of [route] (the value assigned by the initial
    solve for the first element, the value at [route.append] for the
    others). *)
Record state : Type := State {
  heap : list (dict Z vec);
  calls : list call;
  route : list vec;
  fmin_log : list F
}.

Definition initial_state : state := State [] [] [] [].

(** Computations of the driver: state passing, with exceptions and a bound
    on the number of loop iterations. *)
Definition M (A : Type) : Type := state → outcome A * state.

#[global] Instance M_ret : MRet M := λ A a st, (Done a, st).
#[global] Instance M_bind : MBind M :=
  λ A B f m st,
    match m st with
    | (Done a, st') => f a st'
    | (Exn e, st') => (Exn e, st')
    | (OutOfFuel, st') => (OutOfFuel, st')
    end.

Definition lift {A : Type} (r : Res A) : M A :=
  λ st, match r with Ok a => (Done a, st) | Raise e => (Exn e, st) end.

Definition out_of_fuel {A : Type} : M A := λ st, (OutOfFuel, st).

(** A new dictionary object; the result is the reference to it. *)
Definition alloc (d : dict Z vec) : M nat :=
  λ st, (Done (length (heap st)),
         State (heap st ++ [d]) (calls st) (route st) (fmin_log st)).

(** The object behind a reference (every reference of a run is allocated). *)
Definition deref (l : nat) : M (dict Z vec) :=
  λ st, match heap st !! l with
        | Some d => (Done d, st)
        | None => (Exn NameError, st)
        end.

(** [l[k]] *)
Definition ref_getitem (l : nat) (k : Z) : M vec :=
  d ← deref l; lift (dict_getitem d k).

(** [l.pop(k, None)]: the object behind [l] is changed in place. *)
Definition ref_pop (l : nat) (k : Z) : M unit :=
  λ st, match heap st !! l with
        | Some d =>
            (Done (), State (<[l := dict_pop d k]> (heap st)) (calls st)
                            (route st) (fmin_log st))
        | None => (Exn NameError, st)
        end.

(** The list [route] as it stands. *)
Definition get_route : M (list vec) := λ st, (Done (route st), st).

(** [route.append(v)] *)
Definition route_append (v : vec) : M unit :=
  λ st, (Done (), State (heap st) (calls st) (route st ++ [v]) (fmin_log st)).

Definition log_fmin (q : F) : M unit :=
  λ st, (Done (), State (heap st) (calls st) (route st) (fmin_log st ++ [q])).

(** [for b in l: a = f(a, b)] in [M]. *)
Fixpoint forM {A B : Type} (f : A → B → M A) (a : A) (l : list B) : M A :=
  match l with
  | [] => mret a
  | b :: l' => a' ← f a b; forM f a' l'
  end.

(** *** Notions used in the statements about the state *)

(** The state after some more calls of the solver. *)
Definition add_calls (st : state) (cs : list call) : state :=
  State (heap st) (calls st ++ cs) (route st) (fmin_log st).

(** The state after more calls, more route elements and more recorded
    values of [fmin]. *)
Definition extend (st : state) (cs : list call) (pts : list (list Z))
    (qs : list F) : state :=
  State (heap st) (calls st ++ cs) (route st ++ pts) (fmin_log st ++ qs).

Context `{!Objective F}.

(** Each value passes the test [q + tol < a] of the program against the one
    before it, starting with [a]. *)
Fixpoint chain (tol a : F) (qs : list F) : Prop :=
  match qs with
  | [] => True
  | q :: qs' => obj_ltb (obj_add q tol) a = true ∧ chain tol q qs'
  end.

Section driver.
(** A warm start: the dictionary [initialization] of [fnlp_gdp]. *)
Context {Init : Type}.

(** What a call of [fnlp_gdp] hands to the driver: [pe.value(m.obj)] of the
    returned model, [results.solver.status] and [initialization]. *)
Record solve_result : Type := SolveResult {
  sr_obj : F;
  sr_status : SolverStatus.t;
  sr_init : Init
}.

(** [fnlp_gdp(NT, x, provide_init, init)]: the NLP is built and solved by
    the modelling layer and the external solver; the driver sees it as a
    function of its arguments. *)
Variable fnlp_gdp : Z → vec → bool → Init → solve_result.

(** [{}], the default of the parameter [init]. *)
Variable empty_init : Init.

(** [external_init(NT)]: a feasible point of the initialisation model,
    found by an external solver. *)
Variable external_init : Z → vec.

(** The module-level name [NT], which [evaluate_neighbors] and
    [move_and_evaluate] read: the block under [__main__] binds it to [5];
    it is unbound ([None]) when the functions are called from a module
    that imports this one. *)
Variable NT_global : option Z.

(** The evaluation of the name [NT]. *)
Definition read_NT : M Z :=
  lift (match NT_global with
        | Some NT => Ok NT
        | None => Raise NameError
        end).

Definition solve (NT : Z) (x : vec) (provide_init : bool) (init : Init)
    : M solve_result :=
  λ st, (Done (fnlp_gdp NT x provide_init init),
         State (heap st) (calls st ++ [Call NT x provide_init]) (route st)
               (fmin_log st)).

(** *** evaluate_neighbors *)

(** The values held by [fmin, best_var, best_dir, best_init, improve]. *)
Record scan : Type := Scan {
  s_fmin : F;
  s_best_var : vec;
  s_best_dir : Z;
  s_best_init : Init;
  s_improve : bool
}.

(** Body of the loop [for i in temp.keys()]; the arguments of the call of
    [fnlp_gdp] are evaluated from left to right, [NT] first. *)
Definition scan_neighbor (ext_vars temp : nat) (init : Init) (tol : F)
    (s : scan) (i : Z) : M scan :=
  NT ← read_NT;
  x ← ref_getitem temp i;
  r ← solve NT x true init;
  if decide (sr_status r = SolverStatus.ok) then
    let act_obj := sr_obj r in
    if obj_ltb (obj_add act_obj tol) (s_fmin s) then
      v ← ref_getitem ext_vars i;
      mret (Scan act_obj v i (sr_init r) true)
    else mret s
  else mret s.

Definition evaluate_neighbors (ext_vars : nat) (init : Init) (fmin : F)
    (tol : F) : M scan :=
  best_var ← ref_getitem ext_vars 0;
  let temp := ext_vars in
  ref_pop temp 0;;
  d ← deref temp;
  forM (scan_neighbor ext_vars temp init tol)
       (Scan fmin best_var 0 init false) (dict_keys d).

(** *** move_and_evaluate *)

(** The values held by [fmin, best_var, moved, best_init]. *)
Record move : Type := Move {
  m_fmin : F;
  m_best_var : vec;
  m_moved : bool;
  m_best_init : Init
}.

Definition move_and_evaluate (start : vec) (init : Init) (fmin : F)
    (direction : vec) (optimize : bool) (min_allowed max_allowed : dict Z Z)
    (tol : F) : M move :=
  let moved_point := vec_add start direction in
  if optimize then
    checked ← lift (count_checked moved_point (length moved_point)
                                  min_allowed max_allowed);
    if decide (checked = length moved_point) then
      NT ← read_NT;
      r ← solve NT moved_point true init;
      if decide (sr_status r = SolverStatus.ok) then
        let act_obj := sr_obj r in
        if obj_ltb (obj_add act_obj tol) fmin then
          mret (Move act_obj moved_point true (sr_init r))
        else mret (Move fmin start false init)
      else mret (Move fmin start false init)
    else mret (Move fmin start false init)
  else
    NT ← read_NT;
    r ← solve NT moved_point true init;
    if decide (sr_status r = SolverStatus.ok) then
      let act_obj := sr_obj r in
      if obj_ltb act_obj fmin then
        mret (Move act_obj moved_point true (sr_init r))
      else mret (Move fmin start false init)
    else mret (Move fmin start false init).

(** *** dsda *)

(** The inner loop [while go_2]. *)
Fixpoint line_search (fuel : nat) (neighborhood : dict Z vec) (best_dir : Z)
    (fmin : F) (best_var : vec) (best_init : Init) : M move :=
  match fuel with
  | O => out_of_fuel
  | S fuel' =>
      direction ← lift (dict_getitem neighborhood best_dir);
      mv ← move_and_evaluate best_var best_init fmin direction true
                             dsda_min_allowed dsda_max_allowed tol_default;
      if m_moved mv then
        route_append (m_best_var mv);;
        log_fmin (m_fmin mv);;
        line_search fuel' neighborhood best_dir
                    (m_fmin mv) (m_best_var mv) (m_best_init mv)
      else mret mv
  end.

(** The outer loop [while go_1]; [neighborhood] is unbound when [k] is not
    ['2']. *)
Fixpoint explore (fuel : nat) (neighborhood : option (dict Z vec))
    (ext_var : vec) (init : Init) (fmin : F) : M unit :=
  match fuel with
  | O => out_of_fuel
  | S fuel' =>
      nbh ← lift (match neighborhood with
                  | Some d => Ok d
                  | None => Raise NameError
                  end);
      nb ← lift (my_neighbors ext_var nbh true dsda_min_allowed
                              dsda_max_allowed true);
      neighbors ← alloc nb;
      s ← evaluate_neighbors neighbors init fmin tol_default;
      if s_improve s then
        route_append (s_best_var s);;
        log_fmin (s_fmin s);;
        mv ← line_search (S fuel') nbh (s_best_dir s)
                         (s_fmin s) (s_best_var s) (s_best_init s);
        explore fuel' neighborhood (m_best_var mv) init (m_fmin mv)
      else mret ()
  end.

(** [dsda(NT, k)]; the result is the list that the source prints. *)
Definition dsda (fuel : nat) (NT : Z) (k : string) : M (list vec) :=
  let ext_var := external_init NT in
  route_append ext_var;;
  r ← solve NT ext_var false empty_init;
  let init := sr_init r in
  let fmin := sr_obj r in
  log_fmin fmin;;
  neighborhood ←
    (if decide (k = "2"%string)
     then nbh ← lift (neighborhood_k_eq_2 (length ext_var)); mret (Some nbh)
     else mret None);
  explore fuel neighborhood ext_var init fmin;;
  get_route.
End driver.

(** *** Notions used in the statements about the driver *)

Section notions.
Context {Init : Type}.
Variable fnlp_gdp : Z → vec → bool → Init → solve_result (Init:=Init).
(** The value that the module-level name [NT] is bound to. *)
Variable NT : Z.

(** One iteration of the running best, on the values: a neighbour becomes
    the best when its solve has status [ok] and its objective plus [tol] is
    below the best so far. *)
Definition scan_step (init : Init) (tol : F) (s : scan) (ix : Z * list Z)
    : scan :=
  let r := fnlp_gdp NT ix.2 true init in
  if decide (sr_status r = SolverStatus.ok) then
    if obj_ltb (obj_add (sr_obj r) tol) (s_fmin s)
    then Scan (sr_obj r) ix.2 ix.1 (sr_init r) true
    else s
  else s.

(** The solve of candidate [x] has status [ok] and an objective that passes
    the test [act_obj + tol < bound] of the program. *)
Definition improving (init : Init) (tol bound : F) (x : list Z) : Prop :=
  sr_status (fnlp_gdp NT x true init) = SolverStatus.ok ∧
  obj_ltb (obj_add (sr_obj (fnlp_gdp NT x true init)) tol) bound = true.

(** What the scan state [s] returned for the evaluated candidates says: it
    is the running best over them in iteration order, starting from [fmin]
    and the incumbent.  [improve] tells whether a candidate passed the test
    against the incoming [fmin]; without improvement the incoming values
    are returned; with it, the values are those of a candidate that passed
    the test against the best of the candidates before it, and no later
    candidate passes the test against it. *)
Definition running_best (init : Init) (tol fmin : F) (incumbent : list Z)
    (evaluated : dict Z (list Z)) (s : scan) : Prop :=
  let obj x := sr_obj (fnlp_gdp NT x true init) in
  let best_of es := foldl (scan_step init tol) (Scan fmin incumbent 0 init false) es in
  s = best_of evaluated ∧
  (s_improve s = true ↔
   ∃ i x, (i, x) ∈ evaluated ∧ improving init tol fmin x) ∧
  (s_improve s = false → s = Scan fmin incumbent 0 init false) ∧
  (s_improve s = true →
   ∃ before i x after,
     evaluated = before ++ (i, x) :: after ∧
     s = Scan (obj x) x i (sr_init (fnlp_gdp NT x true init)) true ∧
     improving init tol (s_fmin (best_of before)) x ∧
     (∀ j y, (j, y) ∈ after → ¬ improving init tol (obj x) y)).

(** A step from [start] along [direction] passes the three checks of
    [move_and_evaluate]: the bounds, the status of the solve, the test
    [act_obj + tol < fmin]. *)
Definition step_accepted (min_allowed max_allowed : dict Z Z) (tol : F)
    (direction : list Z) (fmin : F) (start : list Z) (init : Init) : Prop :=
  let moved_point := vec_add start direction in
  within min_allowed max_allowed moved_point ∧
  improving init tol fmin moved_point.

(** The steps of one line search, from the values [fmin, point, init] of
    the driver: the points reached by the accepted steps, the objective
    values found there, and the values of the driver after the last
    accepted step. *)
Inductive accepted_run (direction : list Z)
    : F → list Z → Init → list (list Z) → list F → F → list Z → Init → Prop :=
  | run_stop fmin point init :
      accepted_run direction fmin point init [] [] fmin point init
  | run_step fmin point init pts qs fmin' point' init' :
      step_accepted dsda_min_allowed dsda_max_allowed tol_default direction
                    fmin point init →
      accepted_run direction
        (sr_obj (fnlp_gdp NT (vec_add point direction) true init))
        (vec_add point direction)
        (sr_init (fnlp_gdp NT (vec_add point direction) true init))
        pts qs fmin' point' init' →
      accepted_run direction fmin point init
        (vec_add point direction :: pts)
        (sr_obj (fnlp_gdp NT (vec_add point direction) true init) :: qs)
        fmin' point' init'.

(** A call issued by the search loops: the module-level [NT], a warm
    start, and a point within the bounds of the driver. *)
Definition search_call (c : call) : Prop :=
  call_NT c = NT ∧ call_provide_init c = true ∧
  within dsda_min_allowed dsda_max_allowed (call_x c).

(** A point accepted by the search and the value of [fmin] recorded with
    it: the point is within the bounds of the driver and the value is the
    objective of a warm-started solve of the point. *)
Definition recorded (x : list Z) (q : F) : Prop :=
  within dsda_min_allowed dsda_max_allowed x ∧
  ∃ i, q = sr_obj (fnlp_gdp NT x true i).
End notions.
End objective.

(** A point of two coordinates that passes both filters of the driver: each
    coordinate within [1..5], the second not above the first. *)
Definition feasible (v : list Z) : bool :=
  match v with
  | [a; b] => bool_decide (1 ≤ a ≤ 5 ∧ 1 ≤ b ≤ 5 ∧ b ≤ a)
  | _ => false
  end.

(** The points within the bounds of the driver: at most two coordinates,
    each in [1..5]. *)
Definition box_points : list (list Z) :=
  [] :: ((λ a, [a]) <$> [1; 2; 3; 4; 5])
     ++ ([1; 2; 3; 4; 5] ≫= λ a, (λ b, [a; b]) <$> [1; 2; 3; 4; 5]).

(** The unit moves from [p] for two external variables: key [i] holds [p]
    plus direction [i]. *)
Definition unit_moves (p : list Z) : dict Z (list Z) :=
  (λ e, (e.1, vec_add p e.2)) <$> directions_upto 2 4.

(** Each point is a unit move away from the one before it, from [a] on. *)
Fixpoint unit_path (a : list Z) (pts : list (list Z)) : Prop :=
  match pts with
  | [] => True
  | b :: rest => (∃ i, (i, b) ∈ unit_moves a) ∧ unit_path b rest
  end.

(** *** Instances for the examples *)

(** A solver for the examples: no warm-start data; the objective at [[a, b]]
    is [10 - a - b]; the solve of [[2, 2]] ends with status [error]. *)
Definition example_solver (NT : Z) (x : list Z) (provide_init : bool)
    (init : unit) : solve_result (F:=float) (Init:=unit) :=
  SolveResult (match x with
               | [a; b] => float_of_Z (10 - a - b)
               | _ => 0%float
               end)
              (if decide (x = [2; 2]) then SolverStatus.error else SolverStatus.ok)
              tt.

(** A solver for the examples that rewards the second coordinate alone: the
    objective at [[a, b]] is [10 - b], every solve ends with status [ok]. *)
Definition climbing_solver (NT : Z) (x : list Z) (provide_init : bool)
    (init : unit) : solve_result (F:=float) (Init:=unit) :=
  SolveResult (match x with
               | [a; b] => float_of_Z (10 - b)
               | _ => 0%float
               end)
              SolverStatus.ok tt.

(** The objective of [example_solver] in exact arithmetic. *)
Definition exact_solver (NT : Z) (x : list Z) (provide_init : bool)
    (init : unit) : solve_result (F:=Q) (Init:=unit) :=
  SolveResult (match x with
               | [a; b] => inject_Z (10 - a - b)
               | _ => 0%Q
               end)
              (if decide (x = [2; 2]) then SolverStatus.error else SolverStatus.ok)
              tt.

(** A solver whose objective at [[4, 2]] is [1.99999], the double nearest
    to it, and [3] elsewhere; every solve ends with status [ok]. *)
Definition boundary_solver (NT : Z) (x : list Z) (provide_init : bool)
    (init : unit) : solve_result (F:=float) (Init:=unit) :=
  SolveResult (if decide (x = [4; 2]) then 0x1.ffff583a53b8ep+0%float
               else 3%float)
              SolverStatus.ok tt.

(** A mapping with the incumbent [[3, 2]] and the single neighbour
    [[4, 2]]. *)
Definition boundary_candidates : dict Z (list Z) :=
  [(0, [3; 2]); (1, [4; 2])].

(** The candidates of the start [[3, 2]], as [my_neighbors] returns them. *)
Definition example_candidates : dict Z (list Z) :=
  [(0, [3; 2]); (1, [4; 2]); (2, [3; 3]); (3, [2; 2]); (4, [3; 1])].

End Reactor.

(** * reformulation_functions.py *)

Module Reformulation.

(** An element of an index set: an integer or a string. *)
Inductive IdxVal : Set :=
  | IInt (z : Z)
  | IStr (s : string).

(** What [x.index()] returns: the element itself for a component over one
    set, a tuple for a component over several sets. *)
Inductive PyIndex : Set :=
  | Scalar (v : IdxVal)
  | Tuple (vs : list IdxVal).

#[global] Instance IdxVal_eq_dec : EqDecision IdxVal.
Proof. solve_decision. Defined.
#[global] Instance PyIndex_eq_dec : EqDecision PyIndex.
Proof. solve_decision. Defined.

(** A Boolean variable of the model (a [BooleanVarData]): [x.name],
    [x._component()._name] and [x.index()].  Two handles are the same
    variable when they agree on the three. *)
Record BooleanVar : Set := {
  bv_name : string;
  bv_component : string;
  bv_index : PyIndex
}.

#[global] Instance BooleanVar_eq_dec : EqDecision BooleanVar.
Proof. solve_decision. Defined.

(** [ix[j]]: a tuple is indexed by position; a string element gives its
    [j]-th character; an integer element is not subscriptable. *)
Definition index_getitem (ix : PyIndex) (j : nat) : Res IdxVal :=
  match ix with
  | Tuple vs => list_getitem vs j
  | Scalar (IStr s) =>
      match String.get j s with
      | Some c => Ok (IStr (String c EmptyString))
      | None => Raise IndexError
      end
  | Scalar (IInt _) => Raise TypeError
  end.

(** [a < b] on elements: integers by value, strings lexicographically, no
    order between an integer and a string. *)
Definition val_lt (a b : IdxVal) : Res bool :=
  match a, b with
  | IInt x, IInt y => Ok (x <? y)
  | IStr s, IStr t => Ok (String.ltb s t)
  | _, _ => Raise TypeError
  end.

(** [a < b] on tuples: decided at the first position where the two differ,
    by length when one is a prefix of the other. *)
Fixpoint tuple_lt (a b : list IdxVal) : Res bool :=
  match a, b with
  | [], [] => Ok false
  | [], _ :: _ => Ok true
  | _ :: _, [] => Ok false
  | x :: a', y :: b' => if decide (x = y) then tuple_lt a' b' else val_lt x y
  end.

(** [a < b] on the values used as sort keys. *)
Definition py_lt (a b : PyIndex) : Res bool :=
  match a, b with
  | Scalar x, Scalar y => val_lt x y
  | Tuple x, Tuple y => tuple_lt x y
  | _, _ => Raise TypeError
  end.

(** [sorted(l, key=key)].  The keys are computed first; the sort is stable
    and compares keys with [<] only.  It is modelled by an insertion sort:
    an element goes before the first element of the sorted rest whose key is
    not below its own.  For keys that are pairwise comparable every stable
    sort returns this list. *)
Fixpoint insert_by_key {A : Type} (kx : PyIndex * A) (l : list (PyIndex * A))
    : Res (list (PyIndex * A)) :=
  match l with
  | [] => Ok [kx]
  | ky :: l' =>
      below ← py_lt ky.1 kx.1;
      if below : bool then r ← insert_by_key kx l'; Ok (ky :: r)
      else Ok (kx :: ky :: l')
  end.

Fixpoint sort_keyed {A : Type} (l : list (PyIndex * A))
    : Res (list (PyIndex * A)) :=
  match l with
  | [] => Ok []
  | kx :: l' => s ← sort_keyed l'; insert_by_key kx s
  end.

Definition sorted {A : Type} (l : list A) (key : A → Res PyIndex)
    : Res (list A) :=
  keyed ← mapM (λ x, k ← key x; Ok (k, x)) l;
  s ← sort_keyed keyed;
  Ok (s.*2).

(** The index set of an indexed component: its name and, when it is a
    product of sets, the names of the factors ([index_set()._sets]); a
    simple set has no attribute [_sets]. *)
Record IndexSet : Set := {
  set_name : string;
  set_sets : option (list string)
}.

(** A key of [Ext_Ref]: an indexed Boolean variable. *)
Record BooleanFamily : Set := {
  fam_name : string;
  fam_index_set : IndexSet
}.

(** The body of a logical constraint: [exactly(n, args...)] or an
    expression with another name. *)
Inductive LogicalBody : Set :=
  | Exactly (n : Z) (args : list BooleanVar)
  | OtherBody (name : string).

(** An entry of [reformulation_dict]. *)
Record Entry : Set := {
  exactly_number : Z;
  Boolean_vars : list BooleanVar;
  Boolean_vars_names : list string;
  Boolean_vars_ordered_index : list PyIndex;
  Ext_var_lower_bound : Z;
  Ext_var_upper_bound : Z
}.

(** [ref_index[i]] and [no_ref_index[i]] of one family. *)
Record Roles : Set := {
  ref_index : list nat;
  no_ref_index : list nat
}.

(** The loop of the [try] block for one family. *)
Definition roles_of_sets (fam : BooleanFamily) (ref_set : string)
    : option Roles :=
  sets ← set_sets (fam_index_set fam);
  Some (foldl (λ r index_set,
                 match sets !! index_set with
                 | Some name =>
                     if decide (name = ref_set)
                     then Build_Roles (ref_index r ++ [index_set]) (no_ref_index r)
                     else Build_Roles (ref_index r) (no_ref_index r ++ [index_set])
                 | None => r
                 end)
              (Build_Roles [] []) (seq 0 (length sets))).

(** The loop of the [except] block for one family. *)
Definition roles_of_set (fam : BooleanFamily) (ref_set : string) : Roles :=
  if decide (set_name (fam_index_set fam) = ref_set)
  then Build_Roles [0%nat] []
  else Build_Roles [] [0%nat].

(** [ref_index] and [no_ref_index], in the order of [Ext_Ref]: the [try]
    block, and the [except] block when a family has no [_sets]. *)
Definition index_roles (Ext_Ref : list (BooleanFamily * string))
    : list (BooleanFamily * Roles) :=
  match mapM (λ '(fam, ref_set), r ← roles_of_sets fam ref_set; Some (fam, r))
             Ext_Ref with
  | Some roles => roles
  | None => (λ '(fam, ref_set), (fam, roles_of_set fam ref_set)) <$> Ext_Ref
  end.

(** The sort key of a Boolean argument for a family with these roles:
    [x.index()[expected_ordered_set_index[0]]] when the family has other
    index sets, [x.index()] when it has none. *)
Definition ref_key (r : Roles) (x : BooleanVar) : Res PyIndex :=
  if decide (1 ≤ length (no_ref_index r))%nat then
    d ← list_getitem (ref_index r) 0;
    v ← index_getitem (bv_index x) d;
    Ok (Scalar v)
  else Ok (bv_index x).

(** The entry stored for [exactly_number] and the arguments of a constraint. *)
Definition make_entry (r : Roles) (exactly_number : Z) (args : list BooleanVar)
    : Res Entry :=
  sorted_args ← sorted args (ref_key r);
  ordered_index ← mapM (ref_key r) sorted_args;
  Ok {| exactly_number := exactly_number;
        Boolean_vars := sorted_args;
        Boolean_vars_names := bv_name <$> sorted_args;
        Boolean_vars_ordered_index := ordered_index;
        Ext_var_lower_bound := 1;
        Ext_var_upper_bound := Z.of_nat (length sorted_args) |}.

(** The check of one other index set [j]: the list of the [j]-th indices of
    all arguments is built first, then compared with that of the first
    argument. *)
Definition same_on (args : list BooleanVar) (j : nat) : Res bool :=
  others ← mapM (λ x, index_getitem (bv_index x) j) args;
  Ok (match others with
      | [] => true
      | first :: _ => bool_decide (Forall (λ v, v = first) others)
      end).

(** [count] and [reformulation_dict]. *)
Record ScanState : Set := {
  count : Z;
  reformulation_dict : dict Z Entry
}.

(** Body of the loop [for possible_Boolean in Ext_Ref] for one constraint
    [exactly(n, args)]. *)
Definition scan_family (n : Z) (args : list BooleanVar) (st : ScanState)
    (fr : BooleanFamily * Roles) : Res ScanState :=
  let expected_Boolean := fam_name fr.1 in
  if bool_decide (Forall (λ x, bv_component x = expected_Boolean) args) then
    if decide (1 ≤ length (no_ref_index fr.2))%nat then
      verification ← mapM (same_on args) (no_ref_index fr.2);
      if bool_decide (Forall (λ b, b = true) verification) then
        e ← make_entry fr.2 n args;
        Ok {| count := count st + 1;
              reformulation_dict := dict_set (reformulation_dict st) (count st) e |}
      else Ok st
    else
      e ← make_entry fr.2 n args;
      Ok {| count := count st + 1;
            reformulation_dict := dict_set (reformulation_dict st) (count st) e |}
  else Ok st.

(** Body of the loop over the logical constraints. *)
Definition scan_constraint (roles : list (BooleanFamily * Roles))
    (st : ScanState) (c : LogicalBody) : Res ScanState :=
  match c with
  | Exactly n args => foldM (scan_family n args) st roles
  | OtherBody _ => Ok st
  end.

(** [for j in range(n)] *)
Definition range (n : Z) : list nat := seq 0 (Z.to_nat n).

(** [lower_bounds] or [upper_bounds]: the bound of each entry, once per
    repetition. *)
Definition expand_bounds (bound : Entry → Z) (rd : dict Z Entry) : list Z :=
  foldl (λ acc e, foldl (λ acc' _, acc' ++ [bound e]) acc (range (exactly_number e)))
        [] (dict_values rd).

Definition sum_list_Z (l : list Z) : Z := foldl Z.add 0 l.

(** [get_external_information(m, Ext_Ref)]: [constraints] are the bodies of
    the logical constraints of [m], in the order of
    [component_data_objects]. *)
Definition get_external_information (constraints : list LogicalBody)
    (Ext_Ref : list (BooleanFamily * string))
    : Res (dict Z Entry * Z * list Z * list Z) :=
  let roles := index_roles Ext_Ref in
  st ← foldM (scan_constraint roles) {| count := 1; reformulation_dict := [] |}
             constraints;
  let rd := reformulation_dict st in
  let number_of_external_variables :=
    sum_list_Z (exactly_number <$> dict_values rd) in
  Ok (rd, number_of_external_variables,
      expand_bounds Ext_var_lower_bound rd,
      expand_bounds Ext_var_upper_bound rd).

(** *** external_ref *)

(** The state of a Boolean variable: [value] and [fixed]. *)
Record VarState : Set := {
  value : option bool;
  fixed : bool
}.

(** The Boolean variables of the model. *)
Definition store : Type := BooleanVar → VarState.

(** [b.fix(v)] *)
Definition fix_var (b : BooleanVar) (v : bool) (σ : store) : store :=
  λ b', if decide (b' = b) then {| value := Some v; fixed := true |} else σ b'.

(** [b.is_fixed()] *)
Definition is_fixed (σ : store) (b : BooleanVar) : bool := fixed (σ b).

(** Body of the loop over [k] of the first pass. *)
Definition fix_if_selected (x : list Z) (ext_var_position : nat) (e : Entry)
    (σ : store) (k : nat) : Res store :=
  xv ← list_getitem x ext_var_position;
  if decide (xv = Z.of_nat k) then
    b ← list_getitem (Boolean_vars e) (k - 1);
    Ok (fix_var b true σ)
  else Ok σ.

(** [for k in range(1, len(Boolean_vars) + 1)] of the first pass. *)
Definition fix_selected (x : list Z) (ext_var_position : nat) (e : Entry)
    (σ : store) : Res store :=
  foldM (fix_if_selected x ext_var_position e) σ
        (seq 1 (length (Boolean_vars e))).

(** Body of the loop over [j] of the first pass, on [ext_var_position] and
    the model. *)
Definition fix_slot (x : list Z) (ps : nat * store) (e : Entry)
    : Res (nat * store) :=
  σ' ← fix_selected x ps.1 e ps.2; Ok (S ps.1, σ').

(** The first pass. *)
Definition fix_true (x : list Z) (rd : dict Z Entry) (σ : store)
    : Res (nat * store) :=
  foldM (λ ps e, foldM (λ ps' (_ : nat), fix_slot x ps' e) ps
                       (range (exactly_number e)))
        (0%nat, σ) (dict_values rd).

(** Body of the loop over [k] of the second pass. *)
Definition fix_if_unfixed (e : Entry) (σ : store) (k : nat) : Res store :=
  b ← list_getitem (Boolean_vars e) (k - 1);
  if is_fixed σ b then Ok σ
  else b' ← list_getitem (Boolean_vars e) (k - 1);
       Ok (fix_var b' false σ).

(** [for k in range(1, len(Boolean_vars) + 1)] of the second pass. *)
Definition fix_unfixed (e : Entry) (σ : store) : Res store :=
  foldM (fix_if_unfixed e) σ (seq 1 (length (Boolean_vars e))).

(** The second pass. *)
Definition fix_false (rd : dict Z Entry) (σ : store) : Res store :=
  foldM (λ σ e, foldM (λ σ' (_ : nat), fix_unfixed e σ') σ
                      (range (exactly_number e)))
        σ (dict_values rd).

(** The third pass: [i[1].fix(pe.value(i[0]))] for each pair of a logical
    expression and a dependent Boolean variable; the value of an expression
    is a function of the model. *)
Definition fix_dependent (logic_expr : option (list ((store → bool) * BooleanVar)))
    (σ : store) : Res store :=
  match logic_expr with
  | None => Raise TypeError
  | Some l => Ok (foldl (λ σ i, fix_var i.2 (i.1 σ) σ) σ l)
  end.

(** The loop that prints the independent Booleans after the
    transformations: for each entry and each position [k] of its Booleans it
    reads [Boolean_vars_names[k-1]] and [Boolean_vars[k-1].value].  The text
    printed is not modelled; the reads are. *)
Definition print_fixed (dict_extvar : dict Z Entry) : Res unit :=
  foldM (λ _ e,
           foldM (λ _ k,
                    _ ← list_getitem (Boolean_vars_names e) (k - 1);
                    _ ← list_getitem (Boolean_vars e) (k - 1);
                    Ok ())
                 () (seq 1 (length (Boolean_vars e))))
        () (dict_values dict_extvar).

(** [external_ref(m, x, dict_extvar, logic_expr)]: the three fixing passes,
    then the transformations [gdp.fix_disjuncts] and
    [contrib.deactivate_trivial_constraints], then the printing loops.  The
    transformations belong to the modelling layer: [transformations] is
    what they do to the model that the passes hand them, the model they
    leave or the exception they raise ([gdp.fix_disjuncts] raises
    [GDP_Error] on a disjunction whose indicator variables are left without
    a value).  The second printing loop reads only the name and the value of
    the dependent variables, which the third pass has already read. *)
Definition external_ref (transformations : store → Res store) (σ : store)
    (x : list Z) (dict_extvar : dict Z Entry)
    (logic_expr : option (list ((store → bool) * BooleanVar))) : Res store :=
  '(_, σ1) ← fix_true x dict_extvar σ;
  σ2 ← fix_false dict_extvar σ1;
  σ3 ← fix_dependent logic_expr σ2;
  σ4 ← transformations σ3;
  _ ← print_fixed dict_extvar;
  Ok σ4.

(** *** Notions used in the statements about the scanner and the fixing *)

(** [a <= b] on sort keys: [b < a] evaluates to [False]. *)
Definition key_le (a b : PyIndex) : Prop := py_lt b a = Ok false.

(** A list of sort keys never decreases from an element to the next. *)
Definition non_decreasing (keys : list PyIndex) : Prop :=
  ∀ j a b, keys !! j = Some a → keys !! S j = Some b → key_le a b.

(** Adjacent elements of a keyed list are in order. *)
Definition keyed_sorted {A : Type} (l : list (PyIndex * A)) : Prop :=
  Sorted (λ a b, key_le a.1 b.1) l.

(** What the scanner guarantees of an entry, for the roles [roles] of the
    families: the entry comes from a family of [Ext_Ref] whose name all its
    Booleans carry; its index values are the sort keys of its Booleans, in
    the same order, and never decrease; its bounds are [1] and the number
    of its Booleans. *)
Definition entry_wf (roles : list (BooleanFamily * Roles)) (e : Entry) : Prop :=
  ∃ fr, fr ∈ roles ∧
    Forall (λ b, bv_component b = fam_name fr.1) (Boolean_vars e) ∧
    mapM (ref_key fr.2) (Boolean_vars e) = Ok (Boolean_vars_ordered_index e) ∧
    Sorted key_le (Boolean_vars_ordered_index e) ∧
    Boolean_vars_names e = bv_name <$> Boolean_vars e ∧
    Ext_var_lower_bound e = 1 ∧
    Ext_var_upper_bound e = Z.of_nat (length (Boolean_vars e)).

(** The entry of each external variable, in the order of the positions of
    [x]: every entry as many times as its [exactly_number]. *)
Definition slots (rd : dict Z Entry) : list Entry :=
  dict_values rd ≫= λ e, replicate (Z.to_nat (exactly_number e)) e.

(** The Boolean that the value [v] of an external variable selects in [e]:
    the one at position [v - 1] of [Boolean_vars], for [v >= 1]. *)
Definition selects (e : Entry) (v : Z) (b : BooleanVar) : Prop :=
  1 ≤ v ∧ Boolean_vars e !! Z.to_nat (v - 1) = Some b.

(** The values of [x] from position [pos] on fit the entries [es]. *)
Definition valid_from (x : list Z) (pos : nat) (es : list Entry) : Prop :=
  ∀ p e, es !! p = Some e →
    ∃ v, x !! (pos + p)%nat = Some v ∧
         1 ≤ v ≤ Z.of_nat (length (Boolean_vars e)).

(** [b] is selected by one of the values of [x] from position [pos] on. *)
Definition selected_from (x : list Z) (pos : nat) (es : list Entry)
    (b : BooleanVar) : Prop :=
  ∃ p e v, es !! p = Some e ∧ x !! (pos + p)%nat = Some v ∧ selects e v b.

Definition fixed_to (v : bool) : VarState := {| value := Some v; fixed := true |}.

(** The Booleans of the entries [es]. *)
Definition booleans_of (es : list Entry) : list BooleanVar :=
  es ≫= Boolean_vars.

(** The entry [e] stems from the constraint [c] and the family [fam]: [c] is
    [exactly(n, args)] with arguments of the family, [n] is the
    [exactly_number] of [e] and the Booleans of [e] are the arguments,
    rearranged. *)
Definition stems_from (e : Entry) (c : LogicalBody) (fam : BooleanFamily)
    : Prop :=
  ∃ n args, c = Exactly n args ∧ exactly_number e = n ∧
    Boolean_vars e ≡ₚ args ∧
    Forall (λ b, bv_component b = fam_name fam) args.

(** The constraint [c] is [exactly(n, args)] with every argument a member of
    the family [fam]: the test [all(x == expected_Boolean ...)]. *)
Definition matches_family (fam : BooleanFamily) (c : LogicalBody) : bool :=
  match c with
  | Exactly _ args =>
      bool_decide (Forall (λ x, bv_component x = fam_name fam) args)
  | OtherBody _ => false
  end.

(** *** The reference-set index, in the words of the specification

    These definitions follow the data model of the specification and are
    independent of [index_roles], [ref_key] and [index_getitem]; the
    statements about the scanner compare the two. *)

(** Every family of [Ext_Ref] can be introspected: its index set is a
    product of sets whose factors are known. *)
Definition introspected (Ext_Ref : list (BooleanFamily * string)) : bool :=
  forallb (λ fr, bool_decide (is_Some (set_sets (fam_index_set fr.1)))) Ext_Ref.

(** The index dimensions of a family, each by the name of its set: the
    factors of its index set; the index set itself, as a single flat
    dimension, for a family over one set and, by the fall-back of the
    scanner, for every family once a family of [Ext_Ref] cannot be
    introspected. *)
Definition dimensions (Ext_Ref : list (BooleanFamily * string))
    (fam : BooleanFamily) : list string :=
  match set_sets (fam_index_set fam) with
  | Some sets =>
      if introspected Ext_Ref then sets else [set_name (fam_index_set fam)]
  | None => [set_name (fam_index_set fam)]
  end.

(** [ref_dims]: the dimensions whose set matches the reference set by name. *)
Definition ref_dims (Ext_Ref : list (BooleanFamily * string))
    (fam : BooleanFamily) (ref_set : string) : list nat :=
  filter (λ d, dimensions Ext_Ref fam !! d = Some ref_set)
         (seq 0 (length (dimensions Ext_Ref fam))).

(** [other_dims]: all remaining dimensions. *)
Definition other_dims (Ext_Ref : list (BooleanFamily * string))
    (fam : BooleanFamily) (ref_set : string) : list nat :=
  filter (λ d, dimensions Ext_Ref fam !! d ≠ Some ref_set)
         (seq 0 (length (dimensions Ext_Ref fam))).

(** [key] is the reference-set index value of the Boolean [b] of a family:
    the index of [b] itself when the family has no other dimension; else
    the component of the index of [b] along the first reference dimension
    (the index of a variable over several sets is a tuple). *)
Definition reference_index (Ext_Ref : list (BooleanFamily * string))
    (fam : BooleanFamily) (ref_set : string) (b : BooleanVar) (key : PyIndex)
    : Prop :=
  match other_dims Ext_Ref fam ref_set with
  | [] => key = bv_index b
  | _ :: _ =>
      ∃ d v, head (ref_dims Ext_Ref fam ref_set) = Some d ∧ key = Scalar v ∧
        ∀ vs, bv_index b = Tuple vs → vs !! d = Some v
  end.

(** The call [external_ref(m, x, dict_extvar, logic_expr)] completes its
    three passes and hands the model [σ3] to the transformations: whatever
    they do with it, the call goes on from [σ3] with them and with the
    printing loops. *)
Definition reaches_transformations (σ : store) (x : list Z)
    (dict_extvar : dict Z Entry)
    (logic_expr : option (list ((store → bool) * BooleanVar))) (σ3 : store)
    : Prop :=
  ∀ transformations,
    external_ref transformations σ x dict_extvar logic_expr
    = (σ4 ← transformations σ3; _ ← print_fixed dict_extvar; Ok σ4).

(** *** Instances for the examples *)

(** A model in which no Boolean variable has a value or is fixed. *)
Definition fresh_store : store := λ _, {| value := None; fixed := false |}.

(** [YF[k]], a Boolean variable indexed by the set [N] alone. *)
Definition YF (k : Z) : BooleanVar :=
  {| bv_name := "YF[" +:+ pretty k +:+ "]";
     bv_component := "YF";
     bv_index := Scalar (IInt k) |}.

Definition YF_family : BooleanFamily :=
  {| fam_name := "YF";
     fam_index_set := {| set_name := "N"; set_sets := None |} |}.

(** Two constraints that share [YF[2]]:
    [exactly(1, YF[2], YF[1])] and [exactly(1, YF[3], YF[2])]. *)
Definition shared_constraints : list LogicalBody :=
  [Exactly 1 [YF 2; YF 1]; Exactly 1 [YF 3; YF 2]].

Definition shared_map : dict Z Entry :=
  [(1, {| exactly_number := 1;
          Boolean_vars := [YF 1; YF 2];
          Boolean_vars_names := ["YF[1]"; "YF[2]"];
          Boolean_vars_ordered_index := [Scalar (IInt 1); Scalar (IInt 2)];
          Ext_var_lower_bound := 1;
          Ext_var_upper_bound := 2 |});
   (2, {| exactly_number := 1;
          Boolean_vars := [YF 2; YF 3];
          Boolean_vars_names := ["YF[2]"; "YF[3]"];
          Boolean_vars_ordered_index := [Scalar (IInt 2); Scalar (IInt 3)];
          Ext_var_lower_bound := 1;
          Ext_var_upper_bound := 2 |})].

(** [Y[k, j]] of the small batch problem, indexed by the sets [k] and [j]. *)
Definition Ykj (k : Z) (j : string) : BooleanVar :=
  {| bv_name := "Y[" +:+ pretty k +:+ "," +:+ j +:+ "]";
     bv_component := "Y";
     bv_index := Tuple [IInt k; IStr j] |}.

Definition Y_family : BooleanFamily :=
  {| fam_name := "Y";
     fam_index_set := {| set_name := "Y_index"; set_sets := Some ["k"; "j"] |} |}.

(** Logical constraints of the small batch problem over [Y[k, j]], in the
    shape [exactly(1, Y[1, j], Y[2, j], Y[3, j])], the first with its
    arguments out of order; a constraint over two stages, which the scanner
    skips; a constraint that is no [exactly]. *)
Definition small_batch_constraints : list LogicalBody :=
  [Exactly 1 [Ykj 3 "mixer"; Ykj 1 "mixer"; Ykj 2 "mixer"];
   Exactly 1 [Ykj 1 "reactor"; Ykj 2 "reactor"; Ykj 3 "reactor"];
   Exactly 1 [Ykj 1 "mixer"; Ykj 2 "reactor"];
   OtherBody "or"].

Definition small_batch_map : dict Z Entry :=
  [(1, {| exactly_number := 1;
          Boolean_vars := [Ykj 1 "mixer"; Ykj 2 "mixer"; Ykj 3 "mixer"];
          Boolean_vars_names := ["Y[1,mixer]"; "Y[2,mixer]"; "Y[3,mixer]"];
          Boolean_vars_ordered_index :=
            [Scalar (IInt 1); Scalar (IInt 2); Scalar (IInt 3)];
          Ext_var_lower_bound := 1;
          Ext_var_upper_bound := 3 |});
   (2, {| exactly_number := 1;
          Boolean_vars := [Ykj 1 "reactor"; Ykj 2 "reactor"; Ykj 3 "reactor"];
          Boolean_vars_names :=
            ["Y[1,reactor]"; "Y[2,reactor]"; "Y[3,reactor]"];
          Boolean_vars_ordered_index :=
            [Scalar (IInt 1); Scalar (IInt 2); Scalar (IInt 3)];
          Ext_var_lower_bound := 1;
          Ext_var_upper_bound := 3 |})].

End Reformulation.

(** * gdp/small_batch/gdp_small_batch.py *)

Module SmallBatch.
Import Reformulation.

(** The Boolean variables that [external_ref] fixes: [Y[k, j]] and the
    indicator variables of the disjuncts [Y_exists[k, j]] and
    [Y_not_exists[k, j]]. *)
Inductive Var : Set :=
  | Y (k : Z) (j : string)
  | Y_exists (k : Z) (j : string)
  | Y_not_exists (k : Z) (j : string).

#[global] Instance Var_eq_dec : EqDecision Var.
Proof. solve_decision. Defined.

Definition store : Type := Var → VarState.

(** [b.fix(v)] *)
Definition fix_var (b : Var) (v : bool) (σ : store) : store :=
  λ b', if decide (b' = b) then {| value := Some v; fixed := true |} else σ b'.

(** [m.j] and [m.k = RangeSet(NK)] with [NK = 3]. *)
Definition set_j : list string := ["mixer"; "reactor"; "centrifuge"].
Definition set_k : list Z := [1; 2; 3].

(** The loop [for j in m.j: ext_var[j] = x[p]; p = p + 1]. *)
Definition read_ext_var (x : list Z) : Res (dict string Z) :=
  r ← foldM (λ (ep : dict string Z * nat) j,
               xp ← list_getitem x ep.2;
               Ok (dict_set ep.1 j xp, S ep.2))
            ([], 0%nat) set_j;
  Ok r.1.

(** Body of the loops over [m.k] and [m.j]. *)
Definition fix_stage (ext_var : dict string Z) (k : Z) (σ : store) (j : string)
    : Res store :=
  v ← dict_getitem ext_var j;
  Ok (if decide (k = v)
      then fix_var (Y_not_exists k j) false
             (fix_var (Y_exists k j) true (fix_var (Y k j) true σ))
      else fix_var (Y_not_exists k j) true
             (fix_var (Y_exists k j) false (fix_var (Y k j) false σ))).

(** [external_ref(m, x, logic_expr)], up to the fixing; the transformations
    applied afterwards belong to the modelling layer. *)
Definition external_ref (σ : store) (x : list Z) : Res store :=
  ext_var ← read_ext_var x;
  foldM (λ σ k, foldM (fix_stage ext_var k) σ set_j) σ set_k.

(** The logical constraints of the model, [lim[j]] for [j] in [m.j]:
    [exactly(1, Y[1, j], Y[2, j], Y[3, j])]. *)
Definition lim : list LogicalBody :=
  (λ j, Exactly 1 [Ykj 1 j; Ykj 2 j; Ykj 3 j]) <$> set_j.

(** *** Notions used in the statements about the small batch fixing *)

(** The entry that the scanner builds from [lim[j]]. *)
Definition lim_entry (j : string) : Entry :=
  {| exactly_number := 1;
     Boolean_vars := [Ykj 1 j; Ykj 2 j; Ykj 3 j];
     Boolean_vars_names := bv_name <$> [Ykj 1 j; Ykj 2 j; Ykj 3 j];
     Boolean_vars_ordered_index := [Scalar (IInt 1); Scalar (IInt 2); Scalar (IInt 3)];
     Ext_var_lower_bound := 1;
     Ext_var_upper_bound := 3 |}.


(** The number of units and the stage that a variable is about. *)
Definition var_k (b : Var) : Z :=
  match b with Y k _ | Y_exists k _ | Y_not_exists k _ => k end.

Definition var_j (b : Var) : string :=
  match b with Y _ j | Y_exists _ j | Y_not_exists _ j => j end.

(** The state in which the fixing leaves [b] when the external variable of
    its stage has the value [v]. *)
Definition fixed_for (b : Var) (v : Z) : VarState :=
  match b with
  | Y k _ | Y_exists k _ => {| value := Some (bool_decide (k = v)); fixed := true |}
  | Y_not_exists k _ =>
      {| value := Some (negb (bool_decide (k = v))); fixed := true |}
  end.

End SmallBatch.

(** * dsda_gdp_reactor.py: complete_enumeration *)

Module Enumeration.
Import Reactor.

(** [range(a, b)] on integers. *)
Definition range_Z (a b : Z) : list Z :=
  (λ i, a + Z.of_nat i) <$> seq 0 (Z.to_nat (b - a)).

(** [l.pop(0)], the popped element dropped. *)
Definition list_pop0 {A : Type} (l : list A) : Res (list A) :=
  match l with
  | [] => Raise IndexError
  | _ :: l' => Ok l'
  end.

(** The lists [X1], [X2], [aux] and the counter [aux2]. *)
Record enum_state : Set := EnumState {
  X1 : list Z;
  X2 : list Z;
  aux : list Z;
  aux2 : Z
}.

(** Body of the first loop, [for i in range(1, NT+1)]. *)
Definition enum_first (s : enum_state) (i : Z) : enum_state :=
  EnumState (X1 s ++ [i]) (X2 s ++ [aux2 s]) (aux s ++ [i]) (aux2 s).

(** Body of the loop [for j in aux]. *)
Definition enum_append (s : enum_state) (j : Z) : enum_state :=
  EnumState (X1 s ++ [j]) (X2 s ++ [aux2 s]) (aux s) (aux2 s).

(** Body of the second loop, [for i in range(NT-1)]. *)
Definition enum_next (s : enum_state) (i : Z) : Res enum_state :=
  aux' ← list_pop0 (aux s);
  Ok (foldl enum_append (EnumState (X1 s) (X2 s) aux' (aux2 s + 1)) aux').

(** The two loops that build [X1] and [X2]. *)
Definition enumerate_points (NT : Z) : Res (list Z * list Z) :=
  let s1 := foldl enum_first (EnumState [] [] [] 1) (range_Z 1 (NT + 1)) in
  s2 ← foldM enum_next s1 (range_Z 0 (NT - 1));
  Ok (X1 s2, X2 s2).

Section enumeration.
Context {F : Type} {Init : Type}.
Variable fnlp_gdp : Z → vec → bool → Init → solve_result (F:=F) (Init:=Init).
Variable empty_init : Init.

(** Body of the loop [for i in range(len(X1))]: one solve without warm
    start; the printed line is not modelled. *)
Definition solve_point (NT : Z) (X1 X2 : list Z) (_ : unit) (i : nat) : M unit :=
  x1 ← lift (list_getitem X1 i);
  x2 ← lift (list_getitem X2 i);
  solve fnlp_gdp NT [x1; x2] false empty_init;;
  mret ().

(** [complete_enumeration(NT)] *)
Definition complete_enumeration (NT : Z) : M unit :=
  xs ← lift (enumerate_points NT);
  forM (solve_point NT xs.1 xs.2) () (seq 0 (length xs.1)).
End enumeration.

(** *** Notions used in the statements about the enumeration *)

(** The pairs [(x1, x2)] with [1 <= x2 <= x1 <= n], by increasing [x2] and,
    for equal [x2], by increasing [x1]. *)
Definition ordered_pairs (n : nat) : list (Z * Z) :=
  seq 1 n ≫= λ j, (λ i, (Z.of_nat i, Z.of_nat j)) <$> seq j (S n - j).

(** The rows added by [t] iterations of the second loop when [aux] holds
    [a, ..., a + m - 1]. *)
Definition rows (a m t : nat) : list (Z * Z) :=
  seq 1 t ≫= λ u,
    (λ i, (Z.of_nat i, Z.of_nat (a + u))) <$> seq (a + u) (m - u).

End Enumeration.

(** * Properties *)

(** ** The result monad and dictionaries *)

Lemma mapM_Res_ext {A B : Type} (f : A → Res B) (g : A → B) (l : list A) :
  (∀ x, x ∈ l → f x = Ok (g x)) → mapM f l = Ok (g <$> l).
Proof.
  induction l as [|a l IH]; intros Hf; [done|].
  cbn. rewrite Hf by left. cbn.
  rewrite IH; [done|]. intros x Hx. apply Hf. by right.
Qed.

Lemma list_getitem_Ok {A : Type} (l : list A) (j : nat) (a : A) :
  l !! j = Some a → list_getitem l j = Ok a.
Proof. unfold list_getitem. by intros ->. Qed.

Section dict_facts.
Context {K V : Type} `{EqDecision K}.
Implicit Types (d : dict K V) (k : K) (v : V).

Lemma dict_get_None d k : dict_get d k = None ↔ k ∉ dict_keys d.
Proof.
  induction d as [|[k' v'] d IH]; cbn.
  - split; [intros _; apply not_elem_of_nil|done].
  - rewrite not_elem_of_cons. destruct (decide (k = k')); [naive_solver|].
    rewrite IH. naive_solver.
Qed.

Lemma dict_get_Some_elem d k v : dict_get d k = Some v → (k, v) ∈ d.
Proof.
  induction d as [|[k' v'] d IH]; cbn; [done|].
  destruct (decide (k = k')) as [->|]; [intros [= ->]; left|right; auto].
Qed.

Lemma dict_set_fresh d k v : k ∉ dict_keys d → dict_set d k v = d ++ [(k, v)].
Proof.
  induction d as [|[k' v'] d IH]; cbn; [done|].
  rewrite not_elem_of_cons. intros [Hne Hk].
  destruct (decide (k = k')); [done|]. by rewrite IH.
Qed.

Lemma dict_get_app d1 d2 k :
  dict_get (d1 ++ d2) k =
  match dict_get d1 k with Some v => Some v | None => dict_get d2 k end.
Proof.
  induction d1 as [|[k' v'] d1 IH]; cbn; [done|].
  by destruct (decide (k = k')).
Qed.

Lemma dict_get_pop_ne d k k' : k' ≠ k → dict_get (dict_pop d k) k' = dict_get d k'.
Proof.
  intros Hne. induction d as [|[k0 v0] d IH]; cbn; [done|].
  destruct (decide (k = k0)) as [->|].
  - by destruct (decide (k' = k0)).
  - cbn. by rewrite IH.
Qed.

Lemma dict_keys_pop_NoDup d k :
  NoDup (dict_keys d) → k ∉ dict_keys (dict_pop d k).
Proof.
  induction d as [|[k0 v0] d IH]; cbn; [intros _; apply not_elem_of_nil|].
  rewrite NoDup_cons. intros [Hk0 Hnd].
  destruct (decide (k = k0)) as [->|]; [done|].
  cbn. rewrite not_elem_of_cons. auto.
Qed.

Lemma dict_pop_sublist d k : sublist (dict_pop d k) d.
Proof.
  induction d as [|[k0 v0] d IH]; cbn; [done|].
  destruct (decide (k = k0)); [by apply sublist_cons|by apply sublist_skip].
Qed.

Lemma dict_pop_notin d k : k ∉ dict_keys d → dict_pop d k = d.
Proof.
  induction d as [|[k0 v0] d IH]; cbn; [done|].
  rewrite not_elem_of_cons. intros [Hne Hk].
  destruct (decide (k = k0)); [done|]. by rewrite IH.
Qed.

Lemma dict_keys_set d k v :
  dict_keys (dict_set d k v) =
  if decide (k ∈ dict_keys d) then dict_keys d else dict_keys d ++ [k].
Proof.
  unfold dict_keys. induction d as [|[k0 v0] d IH]; cbn.
  - rewrite decide_False; [done|apply not_elem_of_nil].
  - destruct (decide (k = k0)) as [->|Hne]; cbn.
    + rewrite decide_True; [done|left].
    + rewrite IH. destruct (decide (k ∈ d.*1)).
      * rewrite decide_True; [done|by right].
      * rewrite decide_False; [done|]. rewrite not_elem_of_cons. done.
Qed.

Lemma dict_set_NoDup d k v : NoDup (dict_keys d) → NoDup (dict_keys (dict_set d k v)).
Proof.
  intros Hnd. rewrite dict_keys_set. case_decide; [done|].
  apply NoDup_app. split_and!; [done| |apply NoDup_singleton].
  intros x Hx1 Hx2%list_elem_of_singleton. by subst.
Qed.

Lemma dict_get_set d k v k' :
  dict_get (dict_set d k v) k' = if decide (k' = k) then Some v else dict_get d k'.
Proof.
  induction d as [|[k0 v0] d IH]; cbn.
  - by destruct (decide (k' = k)).
  - destruct (decide (k = k0)) as [->|Hne]; cbn.
    + by destruct (decide (k' = k0)).
    + rewrite IH. destruct (decide (k' = k0)) as [->|]; [|done].
      by rewrite decide_False.
Qed.
End dict_facts.

Lemma elem_of_dict_set {K V : Type} `{EqDecision K} (d : dict K V) k v e :
  e ∈ dict_set d k v → e ∈ d ∨ e = (k, v).
Proof.
  induction d as [|[k0 v0] d IH]; cbn.
  - intros ->%list_elem_of_singleton. by right.
  - destruct (decide (k = k0)) as [->|].
    + intros [->|?]%elem_of_cons; [by right|left; by right].
    + intros [->|[?| ->]%IH]%elem_of_cons; [left; left|left; by right|by right].
Qed.

Lemma dict_pop_NoDup {K V : Type} `{EqDecision K} (d : dict K V) k :
  NoDup (dict_keys d) → NoDup (dict_keys (dict_pop d k)).
Proof.
  unfold dict_keys. intros Hnd. eapply sublist_NoDup; [done|].
  apply fmap_sublist, dict_pop_sublist.
Qed.

Lemma dict_get_elem {K V : Type} `{EqDecision K} (d : dict K V) k v :
  NoDup (dict_keys d) → (k, v) ∈ d → dict_get d k = Some v.
Proof.
  unfold dict_keys. induction d as [|[k0 v0] d IH]; cbn.
  - by intros _ ?%elem_of_nil.
  - rewrite NoDup_cons. intros [Hk0 Hnd] [[= -> ->]|Hin]%elem_of_cons.
    + by rewrite decide_True.
    + rewrite decide_False; [auto|]. intros ->. apply Hk0.
      apply list_elem_of_fmap. by exists (k0, v).
Qed.

Lemma dict_get_filter {K V : Type} `{EqDecision K} (P : K * V → Prop)
    `{∀ e, Decision (P e)} (d : dict K V) k :
  (∀ v, P (k, v)) → dict_get (filter P d) k = dict_get d k.
Proof.
  intros HP. induction d as [|[k0 v0] d IH]; [done|].
  rewrite filter_cons. cbn. destruct (decide (P (k0, v0))) as [|Hn]; cbn.
  - by rewrite IH.
  - rewrite IH. destruct (decide (k = k0)) as [->|]; [|done]. by destruct Hn.
Qed.

Lemma dict_pop_filter {K V : Type} `{EqDecision K} (P : K * V → Prop)
    `{∀ e, Decision (P e)} (d : dict K V) k :
  (∀ v, P (k, v)) → dict_pop (filter P d) k = filter P (dict_pop d k).
Proof.
  intros HP. induction d as [|[k0 v0] d IH]; [done|].
  rewrite filter_cons. cbn. destruct (decide (P (k0, v0))) as [|Hn]; cbn.
  - destruct (decide (k = k0)); [done|]. rewrite filter_cons.
    rewrite decide_True by done. by rewrite IH.
  - destruct (decide (k = k0)) as [->|]; [by destruct Hn|].
    rewrite filter_cons. rewrite decide_False by done. done.
Qed.

(** ** The neighbourhood generator *)

Module ReactorFacts.
Import Reactor.

#[local] Arguments count_checked : simpl never.
#[local] Arguments check_coord : simpl never.
#[local] Arguments keep_checked : simpl never.
#[local] Arguments drop_cheating : simpl never.
#[local] Arguments shifted : simpl never.

Lemma eye_lookup n r : (r < n)%nat →
  eye n !! r = Some ((λ c, if decide (r = c) then 1 else 0) <$> seq 0 n).
Proof.
  intros Hr. unfold eye. rewrite list_lookup_fmap, lookup_seq_lt by done. done.
Qed.

Lemma neighbors_entry n j i : (j < n)%nat → (i < 2 * n)%nat →
  array_getitem (concatenate_axis1 (eye n) (negative (eye n))) j i =
  Ok (if decide (i < n)%nat
      then (if decide (j = i) then 1 else 0)
      else - (if decide (j = (i - n)%nat) then 1 else 0)).
Proof.
  intros Hj Hi. unfold array_getitem, concatenate_axis1, negative.
  erewrite list_getitem_Ok; last first.
  { rewrite lookup_zip_with, list_lookup_fmap, eye_lookup by done. cbn. done. }
  cbn. apply list_getitem_Ok.
  destruct (decide (i < n)%nat) as [Hlt|Hge].
  - rewrite lookup_app_l by (rewrite length_fmap, length_seq; lia).
    rewrite list_lookup_fmap, lookup_seq_lt by done. done.
  - rewrite lookup_app_r by (rewrite length_fmap, length_seq; lia).
    rewrite length_fmap, length_seq.
    rewrite !list_lookup_fmap, lookup_seq_lt by lia. done.
Qed.

Lemma neighbors_column n i : (i < 2 * n)%nat →
  mapM (λ j, array_getitem (concatenate_axis1 (eye n) (negative (eye n))) j i)
       (seq 0 n) = Ok (signed_unit n i).
Proof.
  intros Hi. unfold signed_unit. apply mapM_Res_ext.
  intros j Hj%elem_of_seq. apply neighbors_entry; lia.
Qed.

Lemma directions_upto_keys n m :
  dict_keys (directions_upto n m) = (λ i, Z.of_nat i + 1) <$> seq 0 m.
Proof. unfold dict_keys, directions_upto. by rewrite <-list_fmap_compose. Qed.

Lemma neighborhood_loop n s m :
  (s + m ≤ 2 * n)%nat →
  foldM (λ directions i,
           direct ← mapM (λ j, array_getitem
                                 (concatenate_axis1 (eye n) (negative (eye n))) j i)
                         (seq 0 n);
           Ok (dict_set directions (Z.of_nat i + 1) direct))
        (directions_upto n s) (seq s m)
  = Ok (directions_upto n (s + m)).
Proof.
  revert s. induction m as [|m IH]; intros s Hle; cbn.
  - by rewrite Nat.add_0_r.
  - rewrite neighbors_column by lia. cbn.
    rewrite dict_set_fresh; last first.
    { rewrite directions_upto_keys. intros (i & Heq & Hi%elem_of_seq)%list_elem_of_fmap. lia. }
    replace (directions_upto n s ++ [(Z.of_nat s + 1, signed_unit n s)])
      with (directions_upto n (S s)).
    + rewrite IH by lia. do 2 f_equal. lia.
    + unfold directions_upto. by rewrite seq_S, fmap_app.
Qed.

Lemma neighborhood_k_eq_2_eq n :
  neighborhood_k_eq_2 n = Ok (directions_upto n (2 * n)).
Proof. unfold neighborhood_k_eq_2. apply (neighborhood_loop n 0 (2 * n)). lia. Qed.

Lemma directions_upto_get n m i : (i < m)%nat →
  dict_get (directions_upto n m) (Z.of_nat i + 1) = Some (signed_unit n i).
Proof.
  intros Hi. induction m as [|m IH]; [lia|].
  unfold directions_upto in *. rewrite seq_S, fmap_app, dict_get_app. cbn.
  destruct (decide (i = m)) as [->|Hne].
  - rewrite decide_True by done.
    destruct (dict_get _ _) eqn:Hg; [|done].
    apply dict_get_Some_elem in Hg.
    apply list_elem_of_fmap in Hg as (i & [= Heq _] & Hin%elem_of_seq). lia.
  - rewrite IH by lia. done.
Qed.

Lemma signed_unit_pos n i j : (i < n)%nat → (j < n)%nat →
  signed_unit n i !! j = Some (if decide (j = i) then 1 else 0).
Proof.
  intros Hi Hj. unfold signed_unit.
  rewrite list_lookup_fmap, lookup_seq_lt by done. cbn.
  by rewrite decide_True.
Qed.

Lemma signed_unit_neg n i : (i < n)%nat →
  signed_unit n (i + n) = Z.opp <$> signed_unit n i.
Proof.
  intros Hi. unfold signed_unit. rewrite <-list_fmap_compose.
  apply list_fmap_ext. intros k j Hj. cbn.
  replace (i + n - n)%nat with i by lia.
  repeat case_decide; lia.
Qed.

Lemma vec_add_opp (v : list Z) :
  vec_add v (Z.opp <$> v) = replicate (length v) 0.
Proof. induction v as [|z v IH]; cbn; [done|]. f_equal; [lia|done]. Qed.

(** C7. For every dimension [n >= 1], [neighborhood_k_eq_2 n] returns a
    dictionary with exactly [2n] entries, keyed by [1..2n] in this order;
    for each [i] in [1..n], entry [i] is the unit vector along coordinate
    [i] (a [1] at position [i-1] of [n] positions, [0] elsewhere) and entry
    [i+n] is its additive inverse. *)
Theorem neighborhood_k_eq_2_signed_basis (n : nat) :
  (1 ≤ n)%nat →
  ∃ directions : dict Z (list Z),
    neighborhood_k_eq_2 n = Ok directions ∧
    length directions = (2 * n)%nat ∧
    dict_keys directions = Z.of_nat <$> seq 1 (2 * n) ∧
    ∀ i : nat, (1 ≤ i ≤ n)%nat →
      ∃ pos neg : list Z,
        dict_get directions (Z.of_nat i) = Some pos ∧
        dict_get directions (Z.of_nat (i + n)) = Some neg ∧
        length pos = n ∧
        (∀ j : nat, (j < n)%nat →
           pos !! j = Some (if decide (j = (i - 1)%nat) then 1 else 0)) ∧
        neg = Z.opp <$> pos ∧
        vec_add pos neg = replicate n 0.
Proof.
  intros Hn. exists (directions_upto n (2 * n)). split_and!.
  - apply neighborhood_k_eq_2_eq.
  - unfold directions_upto. by rewrite length_fmap, length_seq.
  - rewrite directions_upto_keys, <-fmap_S_seq, <-list_fmap_compose.
    apply list_fmap_ext. intros ? i _. cbn. lia.
  - intros i Hi. exists (signed_unit n (i - 1)), (signed_unit n (i - 1 + n)).
    assert (Hlen : length (signed_unit n (i - 1)) = n).
    { unfold signed_unit. by rewrite length_fmap, length_seq. }
    split_and!.
    + replace (Z.of_nat i) with (Z.of_nat (i - 1) + 1) by lia.
      apply directions_upto_get. lia.
    + replace (Z.of_nat (i + n)) with (Z.of_nat (i - 1 + n) + 1) by lia.
      apply directions_upto_get. lia.
    + done.
    + intros j Hj. apply signed_unit_pos; lia.
    + apply signed_unit_neg. lia.
    + rewrite signed_unit_neg by lia. by rewrite vec_add_opp, Hlen.
Qed.

(** ** The bound check *)

Lemma check_coord_Ok min_allowed max_allowed v c j c' :
  check_coord v min_allowed max_allowed c j = Ok c' →
  (c' = S c ∧ coord_ok min_allowed max_allowed v j) ∨ c' = c.
Proof.
  unfold check_coord, list_getitem, dict_getitem, coord_ok.
  destruct (v !! j) as [p|] eqn:Hp; cbn; [|done].
  destruct (dict_get min_allowed _) as [lo|] eqn:Hlo; cbn; [|done].
  case_bool_decide as Hle; cbn; [|intros [= <-]; by right].
  destruct (dict_get max_allowed _) as [hi|] eqn:Hhi; cbn; [|done].
  case_bool_decide as Hle'; intros [= <-]; [left|by right].
  split; [done|]. by exists p, lo, hi.
Qed.

Lemma check_coord_ok min_allowed max_allowed v c j :
  coord_ok min_allowed max_allowed v j →
  check_coord v min_allowed max_allowed c j = Ok (S c).
Proof.
  intros (p & lo & hi & Hp & Hlo & Hhi & Hle).
  unfold check_coord, list_getitem, dict_getitem. rewrite Hp, Hlo. cbn.
  rewrite bool_decide_true by lia. rewrite Hhi. cbn.
  by rewrite bool_decide_true by lia.
Qed.

Lemma count_checked_loop_inv min_allowed max_allowed v s m acc c :
  foldM (check_coord v min_allowed max_allowed) acc (seq s m) = Ok c →
  (acc ≤ c ≤ acc + m)%nat ∧
  (c = (acc + m)%nat →
   ∀ j, (s ≤ j < s + m)%nat → coord_ok min_allowed max_allowed v j).
Proof.
  revert s acc. induction m as [|m IH]; intros s acc; cbn.
  - intros [= <-]. split; [lia|]. intros _ j Hj. lia.
  - destruct (check_coord _ _ _ _ _) as [c'|] eqn:Hc'; cbn; [|done].
    intros [Hc Hall]%IH.
    apply check_coord_Ok in Hc' as [[-> Hok]| ->].
    + split; [lia|]. intros -> j Hj.
      destruct (decide (j = s)) as [->|]; [done|]. apply Hall; lia.
    + split; [lia|]. intros ->. lia.
Qed.

Lemma count_checked_loop_all min_allowed max_allowed v s m acc :
  (∀ j, (s ≤ j < s + m)%nat → coord_ok min_allowed max_allowed v j) →
  foldM (check_coord v min_allowed max_allowed) acc (seq s m)
  = Ok (acc + m)%nat.
Proof.
  revert s acc. induction m as [|m IH]; intros s acc Hall; cbn.
  - by rewrite Nat.add_0_r.
  - rewrite check_coord_ok by (apply Hall; lia). cbn.
    rewrite IH; [f_equal; lia|]. intros j Hj. apply Hall. lia.
Qed.

Lemma count_checked_full min_allowed max_allowed v n :
  count_checked v n min_allowed max_allowed = Ok n ↔
  ∀ j, (j < n)%nat → coord_ok min_allowed max_allowed v j.
Proof.
  unfold count_checked. split.
  - intros [_ Hall]%count_checked_loop_inv j Hj. apply Hall; lia.
  - intros Hall. apply (count_checked_loop_all _ _ _ 0 n 0%nat).
    intros j Hj. apply Hall. lia.
Qed.

Lemma count_checked_le min_allowed max_allowed v n c :
  count_checked v n min_allowed max_allowed = Ok c → (c ≤ n)%nat.
Proof. unfold count_checked. intros [? _]%count_checked_loop_inv. lia. Qed.

Lemma count_checked_within min_allowed max_allowed v :
  count_checked v (length v) min_allowed max_allowed = Ok (length v) ↔
  within min_allowed max_allowed v.
Proof. apply count_checked_full. Qed.

(** With the bounds of the driver: at most two coordinates, each in [1..5]. *)
Lemma within_dsda_bounds v :
  within dsda_min_allowed dsda_max_allowed v ↔
  (length v ≤ 2)%nat ∧ Forall (λ p, 1 ≤ p ≤ 5) v.
Proof.
  unfold within, coord_ok. split.
  - intros Hw. split.
    + destruct (decide (length v ≤ 2)%nat) as [|Hgt]; [done|].
      destruct (Hw 2%nat) as (p & lo & hi & _ & Hlo & _); [lia|]. done.
    + apply Forall_lookup_2. intros j p Hp.
      destruct (Hw j) as (p' & lo & hi & Hp' & Hlo & Hhi & Hle).
      { by eapply lookup_lt_Some. }
      assert (p' = p) as -> by congruence.
      unfold dsda_min_allowed, dsda_max_allowed, dict_get in Hlo, Hhi.
      repeat case_decide; simplify_eq; lia.
  - intros [Hlen Hall] j Hj.
    destruct (lookup_lt_is_Some_2 v j Hj) as [p Hp].
    pose proof (Forall_lookup_1 _ _ _ _ Hall Hp) as Hb.
    destruct j as [|[|j]]; [| |lia]; exists p, 1, 5; done.
Qed.

(** ** The candidate filter *)

Lemma shifted_fold_get0 start (nbh : dict Z (list Z)) acc :
  0 ∉ dict_keys nbh →
  dict_get (foldl (λ nb '(i, d), dict_set nb i (vec_add start d)) acc nbh) 0
  = dict_get acc 0.
Proof.
  unfold dict_keys. revert acc.
  induction nbh as [|[i d] nbh IH]; intros acc; cbn; [done|].
  rewrite not_elem_of_cons. intros [Hne Hnot].
  rewrite IH by done. rewrite dict_get_set. by rewrite decide_False.
Qed.

Lemma shifted_fold_elem start (nbh : dict Z (list Z)) acc e :
  e ∈ foldl (λ nb '(i, d), dict_set nb i (vec_add start d)) acc nbh →
  e ∈ acc ∨ ∃ d, (e.1, d) ∈ nbh ∧ e.2 = vec_add start d.
Proof.
  revert acc. induction nbh as [|[i d] nbh IH]; intros acc; cbn; [by left|].
  intros [[?| ->]%elem_of_dict_set|(d' & ? & ?)]%IH.
  - by left.
  - right. exists d. split; [left|done].
  - right. exists d'. split; [by right|done].
Qed.

Lemma shifted_get0 start nbh :
  0 ∉ dict_keys nbh → dict_get (shifted start nbh) 0 = Some start.
Proof. intros H0. unfold shifted. by rewrite shifted_fold_get0. Qed.

Lemma shifted_elem start nbh i v :
  (i, v) ∈ shifted start nbh →
  (i = 0 ∧ v = start) ∨ ∃ d, (i, d) ∈ nbh ∧ v = vec_add start d.
Proof.
  intros [[=]%list_elem_of_singleton|Hd]%shifted_fold_elem; [by left|by right].
Qed.

Lemma keep_checked_Ok min_allowed max_allowed n (acc acc' : dict Z (list Z)) i v :
  keep_checked min_allowed max_allowed n acc (i, v) = Ok acc' →
  acc' = acc ∨
  (acc' = dict_set acc i v ∧ count_checked v n min_allowed max_allowed = Ok n).
Proof.
  unfold keep_checked. cbn.
  destruct (count_checked v n min_allowed max_allowed) as [c|]; cbn; [|done].
  case_decide as Hc; intros [= <-]; [right|by left]. by rewrite Hc.
Qed.

Lemma keep_checked_fold_inv min_allowed max_allowed n (es acc nn : dict Z (list Z)) :
  foldM (keep_checked min_allowed max_allowed n) acc es = Ok nn →
  (NoDup (dict_keys acc) → NoDup (dict_keys nn)) ∧
  ∀ e, e ∈ nn →
    e ∈ acc ∨ (e ∈ es ∧ count_checked e.2 n min_allowed max_allowed = Ok n).
Proof.
  revert acc. induction es as [|[i v] es IH]; intros acc; cbn.
  - intros [= <-]. split; [done|]. by left.
  - destruct (keep_checked _ _ _ _ _) as [acc'|] eqn:Hk; cbn; [|done].
    intros [Hnd Hin]%IH. apply keep_checked_Ok in Hk. split.
    + intros Hacc. apply Hnd.
      destruct Hk as [->|[-> _]]; [done|by apply dict_set_NoDup].
    + intros e [He|[He ?]]%Hin.
      * destruct Hk as [->|[-> Hc]]; [by left|].
        apply elem_of_dict_set in He as [?| ->]; [by left|].
        right. split; [left|done].
      * right. split; [by right|done].
Qed.

Lemma drop_cheating_Ok (acc acc' : dict Z (list Z)) i :
  drop_cheating acc i = Ok acc' → acc' = acc ∨ acc' = dict_pop acc i.
Proof.
  unfold drop_cheating.
  destruct (dict_getitem acc i) as [v|]; cbn; [|done].
  destruct (list_getitem v 1) as [a|]; cbn; [|done].
  destruct (list_getitem v 0) as [b|]; cbn; [|done].
  case_bool_decide; intros [= <-]; auto.
Qed.

Lemma drop_cheating_fold_inv (keys : list Z) (acc nn : dict Z (list Z)) :
  foldM drop_cheating acc keys = Ok nn → sublist nn acc.
Proof.
  revert acc. induction keys as [|i keys IH]; intros acc; cbn.
  - by intros [= <-].
  - destruct (drop_cheating acc i) as [acc'|] eqn:Hd; cbn; [|done].
    intros Hs%IH. etrans; [done|].
    apply drop_cheating_Ok in Hd as [->| ->]; [done|apply dict_pop_sublist].
Qed.

Lemma vec_add_length a b : (length (vec_add a b) ≤ length a)%nat.
Proof. unfold vec_add. rewrite length_zip_with. lia. Qed.

(** What [my_neighbors] returns with [optimize=True]: a dictionary with
    unique keys whose vectors all passed the bound check. *)
Lemma my_neighbors_optimize start nbh min_allowed max_allowed cheating nb :
  0 ∉ dict_keys nbh →
  my_neighbors start nbh true min_allowed max_allowed cheating = Ok nb →
  NoDup (dict_keys nb) ∧
  ∀ i v, (i, v) ∈ nb →
    within min_allowed max_allowed v ∧
    ((i = 0 ∧ v = start) ∨ ∃ d, (i, d) ∈ nbh ∧ v = vec_add start d).
Proof.
  intros H0. unfold my_neighbors, dict_getitem.
  rewrite shifted_get0 by done. cbn.
  destruct (foldM (keep_checked _ _ _) [] _) as [nn|] eqn:Hnn; cbn; [|done].
  apply keep_checked_fold_inv in Hnn as [Hnd Hnn].
  specialize (Hnd (NoDup_nil_2)).
  assert (sublist nb nn → NoDup (dict_keys nb) ∧
    ∀ i v, (i, v) ∈ nb →
      within min_allowed max_allowed v ∧
      ((i = 0 ∧ v = start) ∨ ∃ d, (i, d) ∈ nbh ∧ v = vec_add start d)) as Hsub.
  { intros Hsub. split.
    - unfold dict_keys in *. eapply sublist_NoDup; [done|]. by apply fmap_sublist.
    - intros i v Hin. eapply elem_of_sublist in Hin; [|done].
      apply Hnn in Hin as [[]%elem_of_nil|[Hin Hc]].
      cbn in Hc. apply shifted_elem in Hin as Hv.
      split; [|done].
      intros j Hj. eapply count_checked_full; [done|].
      destruct Hv as [[_ ->]|(d & _ & ->)]; [done|].
      pose proof (vec_add_length start d). lia. }
  destruct cheating.
  - intros Hc%drop_cheating_fold_inv. by apply Hsub.
  - intros [= <-]. by apply Hsub.
Qed.

(** ** The EXPLORE scan *)

Lemma Qltb_true a b : Qltb a b = true ↔ (a < b)%Q.
Proof. unfold Qltb. destruct (Qlt_le_dec a b); split; intros; try done; lra. Qed.

Lemma Qltb_false a b : Qltb a b = false ↔ (b <= a)%Q.
Proof. unfold Qltb. destruct (Qlt_le_dec a b); split; intros; try done; lra. Qed.

(** Exact arithmetic is a strict order in which the tolerance is not
    negative. *)
#[global] Instance exact_order : ObjectiveOrder Q.
Proof.
  split; cbn.
  - intros a. apply Qltb_false. lra.
  - intros a b c ?%Qltb_true ?%Qltb_true. apply Qltb_true. lra.
  - intros a b ?%Qltb_true. apply Qltb_true.
    assert (0 < 1 # 100000)%Q by done. lra.
Qed.

Section state_facts.
Context {F : Type}.
Implicit Types st : state (F:=F).

Lemma add_calls_nil st : add_calls st [] = st.
Proof. destruct st. unfold add_calls. cbn. by rewrite app_nil_r. Qed.

Lemma add_calls_app st cs1 cs2 :
  add_calls (add_calls st cs1) cs2 = add_calls st (cs1 ++ cs2).
Proof. unfold add_calls. cbn. by rewrite app_assoc. Qed.

Lemma extend_nil st : extend st [] [] [] = st.
Proof. destruct st. unfold extend. cbn. by rewrite !app_nil_r. Qed.

Lemma extend_extend st cs1 pts1 qs1 cs2 pts2 qs2 :
  extend (extend st cs1 pts1 qs1) cs2 pts2 qs2
  = extend st (cs1 ++ cs2) (pts1 ++ pts2) (qs1 ++ qs2).
Proof. unfold extend. cbn. by rewrite !app_assoc. Qed.

Lemma add_calls_extend st cs : add_calls st cs = extend st cs [] [].
Proof. unfold add_calls, extend. by rewrite !app_nil_r. Qed.

Lemma run_bind {A B : Type} (m : M A) (f : A → M B) st :
  (m ≫= f) st =
  match m st with
  | (Done a, st') => f a st'
  | (Exn e, st') => (Exn e, st')
  | (OutOfFuel, st') => (OutOfFuel, st')
  end.
Proof. reflexivity. Qed.
End state_facts.

Section order_facts.
Context {F : Type} `{!Objective F}.

(** A value that passes the test against [a] is below [a], and [a] is not
    below it. *)
Lemma passes_lt `{!ObjectiveOrder F} (q a : F) :
  obj_ltb (obj_add q tol_default) a = true → obj_ltb q a = true.
Proof. apply obj_add_tol. Qed.


Lemma passes_trans `{!ObjectiveOrder F} (q b a : F) :
  obj_ltb (obj_add q tol_default) b = true →
  obj_ltb (obj_add b tol_default) a = true →
  obj_ltb (obj_add q tol_default) a = true.
Proof.
  intros Hqb Hba%passes_lt. by eapply obj_ltb_trans.
Qed.

Lemma passes_irrefl `{!ObjectiveOrder F} (q : F) : obj_ltb (obj_add q tol_default) q = false.
Proof.
  destruct (obj_ltb (obj_add q tol_default) q) eqn:Hq; [|done].
  apply passes_lt in Hq. by rewrite obj_ltb_irrefl in Hq.
Qed.

Lemma chain_lookup `{!ObjectiveOrder F} (a : F) qs i j x y :
  chain tol_default a qs → (i < j)%nat →
  (a :: qs) !! i = Some x → (a :: qs) !! j = Some y →
  obj_ltb (obj_add y tol_default) x = true.
Proof.
  revert a i j x.
  induction qs as [|q qs IH]; intros a i j x Hch Hij Hi Hj.
  - destruct j as [|j]; [lia|]. done.
  - destruct Hch as [Hq Hch]. destruct j as [|j]; [lia|]. cbn in Hj.
    destruct i as [|i]; cbn in Hi.
    + injection Hi as <-. destruct j as [|j]; cbn in Hj.
      * injection Hj as <-. done.
      * eapply passes_trans; [|exact Hq].
        eapply (IH q 0%nat (S j)); [done|lia|done|done].
    + eapply (IH q i j); [done|lia|done|done].
Qed.
End order_facts.

Section scan_facts.
Context {F : Type} `{!Objective F} {Init : Type}.
Variable fnlp_gdp : Z → list Z → bool → Init → solve_result (F:=F) (Init:=Init).
Variable NT_global : Z.

Lemma scan_neighbor_eval l d init tol s i x st :
  heap st !! l = Some d → dict_get d i = Some x →
  scan_neighbor fnlp_gdp (Some NT_global) l l init tol s i st
  = (Done (scan_step fnlp_gdp NT_global init tol s (i, x)),
     add_calls st [Call NT_global x true]).
Proof.
  intros Hl Hi.
  unfold scan_neighbor, scan_step, read_NT, ref_getitem, deref, solve.
  unfold mbind, M_bind, lift, dict_getitem. cbn. rewrite Hl, Hi. cbn.
  case_decide; [|done]. destruct (obj_ltb _ _); [|done].
  cbn. rewrite Hl, Hi. done.
Qed.

Lemma scan_loop_eval l d init tol es s st :
  heap st !! l = Some d → (∀ i x, (i, x) ∈ es → dict_get d i = Some x) →
  forM (scan_neighbor fnlp_gdp (Some NT_global) l l init tol) s (dict_keys es) st
  = (Done (foldl (scan_step fnlp_gdp NT_global init tol) s es),
     add_calls st ((λ ix, Call NT_global ix.2 true) <$> es)).
Proof.
  revert s st. induction es as [|[i x] es IH]; intros s st Hl Hes; cbn.
  - by rewrite add_calls_nil.
  - unfold mbind, M_bind.
    erewrite scan_neighbor_eval; [|done|apply Hes; left].
    rewrite IH; [|done|intros; apply Hes; by right].
    by rewrite add_calls_app.
Qed.

(** [evaluate_neighbors] on a mapping that holds the key [0], when the
    module binds [NT]. *)
Lemma evaluate_neighbors_eval l d v0 init fmin tol st :
  heap st !! l = Some d → NoDup (dict_keys d) → dict_get d 0 = Some v0 →
  evaluate_neighbors fnlp_gdp (Some NT_global) l init fmin tol st
  = (Done (foldl (scan_step fnlp_gdp NT_global init tol)
                 (Scan fmin v0 0 init false) (dict_pop d 0)),
     State (<[l := dict_pop d 0]> (heap st))
           (calls st ++ ((λ ix, Call NT_global ix.2 true) <$> dict_pop d 0))
           (route st) (fmin_log st)).
Proof.
  intros Hl Hnd H0. unfold evaluate_neighbors.
  unfold mbind at 1, M_bind at 1. unfold ref_getitem at 1, deref at 1.
  unfold mbind at 1, M_bind at 1. rewrite Hl. unfold lift, dict_getitem.
  rewrite H0.
  unfold mbind at 1, M_bind at 1. unfold ref_pop at 1. rewrite Hl.
  assert (Hl' : <[l := dict_pop d 0]> (heap st) !! l = Some (dict_pop d 0)).
  { apply list_lookup_insert_eq. by eapply lookup_lt_Some. }
  unfold mbind at 1, M_bind at 1. unfold deref at 1. cbn [heap]. rewrite Hl'.
  erewrite scan_loop_eval; [done|done|].
  intros i x Hin. apply dict_get_elem; [|done]. by apply dict_pop_NoDup.
Qed.

(** [evaluate_neighbors] on a mapping without the key [0], whether the
    module binds [NT] or not. *)
Lemma evaluate_neighbors_no_incumbent ntg l d init fmin tol st :
  heap st !! l = Some d → dict_get d 0 = None →
  evaluate_neighbors fnlp_gdp ntg l init fmin tol st = (Exn KeyError, st).
Proof.
  intros Hl H0. unfold evaluate_neighbors.
  unfold mbind at 1, M_bind at 1. unfold ref_getitem at 1, deref at 1.
  unfold mbind at 1, M_bind at 1. rewrite Hl. unfold lift, dict_getitem.
  by rewrite H0.
Qed.

(** [evaluate_neighbors] when the module does not bind [NT]: the incumbent
    is popped; the first neighbour, when there is one, raises [NameError]
    before anything is solved. *)
Lemma evaluate_neighbors_unbound l d v0 init fmin tol st :
  heap st !! l = Some d → dict_get d 0 = Some v0 →
  evaluate_neighbors fnlp_gdp None l init fmin tol st
  = (match dict_pop d 0 with
     | [] => Done (Scan fmin v0 0 init false)
     | _ :: _ => Exn NameError
     end,
     State (<[l := dict_pop d 0]> (heap st)) (calls st) (route st)
           (fmin_log st)).
Proof.
  intros Hl H0. unfold evaluate_neighbors.
  unfold mbind at 1, M_bind at 1. unfold ref_getitem at 1, deref at 1.
  unfold mbind at 1, M_bind at 1. rewrite Hl. unfold lift, dict_getitem.
  rewrite H0.
  unfold mbind at 1, M_bind at 1. unfold ref_pop at 1. rewrite Hl.
  assert (Hl' : <[l := dict_pop d 0]> (heap st) !! l = Some (dict_pop d 0)).
  { apply list_lookup_insert_eq. by eapply lookup_lt_Some. }
  unfold mbind at 1, M_bind at 1. unfold deref at 1. cbn [heap]. rewrite Hl'.
  by destruct (dict_pop d 0) as [|[i x] es].
Qed.

Lemma scan_step_cases init tol s i x :
  (improving fnlp_gdp NT_global init tol (s_fmin s) x ∧
   scan_step fnlp_gdp NT_global init tol s (i, x) =
     Scan (sr_obj (fnlp_gdp NT_global x true init)) x i
          (sr_init (fnlp_gdp NT_global x true init)) true) ∨
  (¬ improving fnlp_gdp NT_global init tol (s_fmin s) x ∧
   scan_step fnlp_gdp NT_global init tol s (i, x) = s).
Proof.
  unfold scan_step, improving. cbn.
  case_decide as Hok; [|right; split; [tauto|done]].
  destruct (obj_ltb _ _) eqn:Hlt.
  - by left.
  - right. split; [|done]. by intros [_ ?].
Qed.

(** The running best over a scan.  Either no candidate passes the test
    against the incoming value and the scan state is unchanged, or the state
    is the one set at some candidate [x]: [x] passes the test against the
    best of the candidates before it, no later candidate passes the test
    against [x], and some candidate passes the test against the incoming
    value. *)
Lemma scan_fold_spec init tol s0 es :
  let obj x := sr_obj (fnlp_gdp NT_global x true init) in
  let best_of es := foldl (scan_step fnlp_gdp NT_global init tol) s0 es in
  (best_of es = s0 ∧
   ∀ i x, (i, x) ∈ es → ¬ improving fnlp_gdp NT_global init tol (s_fmin s0) x) ∨
  (∃ before i x after,
     es = before ++ (i, x) :: after ∧
     best_of es = Scan (obj x) x i (sr_init (fnlp_gdp NT_global x true init)) true ∧
     improving fnlp_gdp NT_global init tol (s_fmin (best_of before)) x ∧
     (∀ j y, (j, y) ∈ after → ¬ improving fnlp_gdp NT_global init tol (obj x) y) ∧
     ∃ i1 x1, (i1, x1) ∈ es ∧
       improving fnlp_gdp NT_global init tol (s_fmin s0) x1).
Proof.
  intros obj best_of. subst obj best_of. cbn beta.
  induction es as [|[i x] es IH] using rev_ind.
  - left. split; [done|]. by intros i x ?%elem_of_nil.
  - rewrite foldl_app. cbn [foldl].
    destruct (scan_step_cases init tol
                (foldl (scan_step fnlp_gdp NT_global init tol) s0 es) i x)
      as [[Himp ->]|[Hnot ->]].
    + (* the state is set at the last candidate *)
      right. exists es, i, x, []. split_and!; [done|done|done| |].
      * by intros j y ?%elem_of_nil.
      * destruct IH as [[HF _]|(b & i' & x' & a & _ & _ & _ & _ & i1 & x1 & Hin & H1)].
        -- exists i, x. rewrite HF in Himp. split; [|done].
           apply elem_of_app. right. left.
        -- exists i1, x1. split; [|done]. apply elem_of_app. by left.
    + destruct IH as [[HF Hnone]|(b & i' & x' & a & -> & HF & Hx' & Ha & i1 & x1 & Hin & H1)].
      * left. split; [done|]. rewrite HF in Hnot.
        intros j y [Hin|[= -> ->]%list_elem_of_singleton]%elem_of_app;
          [by eapply Hnone|done].
      * right. exists b, i', x', (a ++ [(i, x)]). split_and!.
        -- by rewrite <-app_assoc.
        -- done.
        -- done.
        -- rewrite HF in Hnot. cbn in Hnot.
           intros j y [Hin'|[= -> ->]%list_elem_of_singleton]%elem_of_app;
             [by eapply Ha|done].
        -- exists i1, x1. split; [|done]. apply elem_of_app. by left.
Qed.

Lemma scan_fold_running_best init tol fmin v0 es :
  running_best fnlp_gdp NT_global init tol fmin v0 es
    (foldl (scan_step fnlp_gdp NT_global init tol) (Scan fmin v0 0 init false) es).
Proof.
  unfold running_best. split; [done|].
  destruct (scan_fold_spec init tol (Scan fmin v0 0 init false) es)
    as [[-> Hnone]|(b & i & x & a & Hes & -> & Himp & Ha & i1 & x1 & Hin1 & H1)];
    cbn in *.
  - split_and!; [|done|done]. split; [done|].
    intros (i & x & Hin & Himp). exfalso. by eapply Hnone.
  - split_and!; [|done|].
    + split; [|done]. intros _. by exists i1, x1.
    + intros _. by exists b, i, x, a.
Qed.

(** With an order on the values: the value that a scan returns is the
    incoming one, or it passes the test against the incoming one. *)
Lemma scan_fold_descends `{!ObjectiveOrder F} init s0 es :
  let s := foldl (scan_step fnlp_gdp NT_global init tol_default) s0 es in
  s = s0 ∨
  (s_improve s = true ∧
   obj_ltb (obj_add (s_fmin s) tol_default) (s_fmin s0) = true).
Proof.
  cbn zeta. induction es as [|[i x] es IH] using rev_ind; [by left|].
  rewrite foldl_app. cbn [foldl].
  destruct (scan_step_cases init tol_default
              (foldl (scan_step fnlp_gdp NT_global init tol_default) s0 es) i x)
    as [[[_ Hlt] ->]|[_ ->]]; [|done].
  right. cbn [s_improve s_fmin]. split; [done|].
  destruct IH as [Heq|[_ Hprev]]; [by rewrite Heq in Hlt|].
  by eapply passes_trans.
Qed.

(** C4 (amended).  For every call of [evaluate_neighbors] on a mapping
    holding the incumbent under key [0], with the default tolerance and the
    module-level [NT] bound: the neighbours solved are the other entries,
    in iteration order; the values returned are the running best over them,
    in which a neighbour replaces the best so far when its solve has status
    [ok] and the test [act_obj + tol < fmin], as the program computes it,
    holds against the best so far.  [improve] is [True] exactly when some
    neighbour with status [ok] passes this test against the incoming
    [fmin]; without improvement the incoming values are returned;
    otherwise the values are those of a neighbour that passed the test
    against the best of the neighbours before it, and no later neighbour
    with status [ok] passes the test against it. *)
Theorem evaluate_neighbors_running_best l (d : dict Z (list Z)) v0 init fmin st :
  heap st !! l = Some d → NoDup (dict_keys d) → dict_get d 0 = Some v0 →
  ∃ s st',
    evaluate_neighbors fnlp_gdp (Some NT_global) l init fmin tol_default st
      = (Done s, st') ∧
    calls st' = calls st ++ ((λ x, Call NT_global x true) <$>
                               dict_values (dict_pop d 0)) ∧
    running_best fnlp_gdp NT_global init tol_default fmin v0 (dict_pop d 0) s.
Proof.
  intros Hl Hnd H0. eexists _, _. split_and!.
  - by apply evaluate_neighbors_eval.
  - cbn. unfold dict_values. by rewrite <-list_fmap_compose.
  - by apply scan_fold_running_best.
Qed.

(** C10. A call of [evaluate_neighbors] on a mapping that holds key [0]
    changes the caller's mapping in place: afterwards the object behind
    the reference is the mapping without key [0], every other key keeps
    its vector, the other objects are untouched, and without improvement
    the returned best candidate is the vector that was under key [0]. *)
Theorem evaluate_neighbors_pops_incumbent l (d : dict Z (list Z)) v0 init fmin tol st :
  heap st !! l = Some d → NoDup (dict_keys d) → dict_get d 0 = Some v0 →
  ∃ s st',
    evaluate_neighbors fnlp_gdp (Some NT_global) l init fmin tol st = (Done s, st') ∧
    heap st' !! l = Some (dict_pop d 0) ∧
    dict_get (dict_pop d 0) 0 = None ∧
    (∀ k, k ≠ 0 → dict_get (dict_pop d 0) k = dict_get d k) ∧
    sublist (dict_pop d 0) d ∧
    (∀ l', l' ≠ l → heap st' !! l' = heap st !! l') ∧
    (s_improve s = false → s_best_var s = v0 ∧ s_best_dir s = 0).
Proof.
  intros Hl Hnd H0. eexists _, _. split_and!.
  - by apply evaluate_neighbors_eval.
  - cbn. apply list_lookup_insert_eq. by eapply lookup_lt_Some.
  - apply dict_get_None. by apply dict_keys_pop_NoDup.
  - intros k Hk. by apply dict_get_pop_ne.
  - apply dict_pop_sublist.
  - intros l' Hne. cbn. by apply list_lookup_insert_ne.
  - generalize (dict_pop d 0). intros es.
    assert (∀ s, (s_improve s = false → s_best_var s = v0 ∧ s_best_dir s = 0) →
      s_improve (foldl (scan_step fnlp_gdp NT_global init tol) s es) = false →
      s_best_var (foldl (scan_step fnlp_gdp NT_global init tol) s es) = v0 ∧
      s_best_dir (foldl (scan_step fnlp_gdp NT_global init tol) s es) = 0) as Hgen.
    { induction es as [|[i x] es IH]; intros s Hs; cbn [foldl]; [done|].
      apply IH.
      destruct (scan_step_cases init tol s i x) as [[_ ->]|[_ ->]]; [done|done]. }
    by apply Hgen.
Qed.
End scan_facts.

(** ** The LINE-SEARCH step and the driver *)

Section driver_facts.
Context {F : Type} `{!Objective F} {Init : Type}.
Variable fnlp_gdp : Z → list Z → bool → Init → solve_result (F:=F) (Init:=Init).
Variable empty_init : Init.
Variable external_init : Z → list Z.
Variable NT_global : Z.

Lemma move_and_evaluate_eval start init fmin direction min_allowed max_allowed
    tol st :
  let moved_point := vec_add start direction in
  let r := fnlp_gdp NT_global moved_point true init in
  move_and_evaluate fnlp_gdp (Some NT_global) start init fmin direction true
                    min_allowed max_allowed tol st =
  match count_checked moved_point (length moved_point) min_allowed max_allowed with
  | Raise e => (Exn e, st)
  | Ok c =>
      if decide (c = length moved_point) then
        (Done (if decide (sr_status r = SolverStatus.ok)
               then if obj_ltb (obj_add (sr_obj r) tol) fmin
                    then Move (sr_obj r) moved_point true (sr_init r)
                    else Move fmin start false init
               else Move fmin start false init),
         add_calls st [Call NT_global moved_point true])
      else (Done (Move fmin start false init), st)
  end.
Proof.
  intros moved_point r. unfold move_and_evaluate. fold moved_point.
  rewrite run_bind. unfold lift.
  destruct (count_checked _ _ _ _) as [c|e]; [|done].
  case_decide; [|done].
  rewrite run_bind. unfold read_NT, lift. rewrite run_bind.
  unfold solve. fold r.
  case_decide; [|done]. by destruct (obj_ltb _ _).
Qed.

(** The three ways a call of [move_and_evaluate] with [optimize=True] ends:
    the step is accepted; it is rejected, after at most one solve of a
    point within the bounds; the bound check raises. *)
Lemma move_and_evaluate_cases start init fmin direction min_allowed
    max_allowed tol st :
  let moved_point := vec_add start direction in
  let r := fnlp_gdp NT_global moved_point true init in
  let res := move_and_evaluate fnlp_gdp (Some NT_global) start init fmin direction
               true min_allowed max_allowed tol st in
  (step_accepted fnlp_gdp NT_global min_allowed max_allowed tol direction fmin start init ∧
   res = (Done (Move (sr_obj r) moved_point true (sr_init r)),
          add_calls st [Call NT_global moved_point true])) ∨
  (¬ step_accepted fnlp_gdp NT_global min_allowed max_allowed tol direction fmin start init ∧
   ((res = (Done (Move fmin start false init), st) ∧
     ¬ within min_allowed max_allowed moved_point) ∨
    (res = (Done (Move fmin start false init),
            add_calls st [Call NT_global moved_point true]) ∧
     within min_allowed max_allowed moved_point))) ∨
  (¬ within min_allowed max_allowed moved_point ∧ ∃ e, res = (Exn e, st)).
Proof.
  intros moved_point r res. subst res. rewrite move_and_evaluate_eval.
  unfold step_accepted, improving. subst r moved_point. cbv zeta.
  destruct (count_checked _ _ _ _) as [c|e] eqn:Hc.
  - case_decide as Hcn.
    + subst c. apply count_checked_within in Hc.
      case_decide as Hok; [destruct (obj_ltb _ _) eqn:Hlt|].
      * by left.
      * right. left. split; [|by right]. by intros (_ & _ & ?).
      * right. left. split; [|by right]. intros (_ & ? & _). done.
    + right. left.
      assert (¬ within min_allowed max_allowed (vec_add start direction)) as Hnw.
      { intros Hw%count_checked_within. congruence. }
      split; [|by left]. intros [? _]. done.
  - right. right. split; [|by eexists].
    intros Hw%count_checked_within. congruence.
Qed.

Lemma accepted_run_chain direction fmin point init pts qs fmin' point' init' :
  accepted_run fnlp_gdp NT_global direction fmin point init pts qs fmin' point' init' →
  length pts = length qs ∧
  ∀ rest, chain tol_default fmin' rest → chain tol_default fmin (qs ++ rest).
Proof.
  induction 1 as [|fmin point init pts qs fmin' point' init' Hacc _ [IHl IHc]].
  - done.
  - split; [cbn; by rewrite IHl|]. intros rest Hrest. cbn.
    split; [|by apply IHc]. by destruct Hacc as [_ [_ ?]].
Qed.

Lemma line_search_no_direction ntg fuel nbh bd fmin bv init st :
  dict_get nbh bd = None →
  line_search fnlp_gdp ntg (S fuel) nbh bd fmin bv init st
  = (Exn KeyError, st).
Proof.
  intros Hd. cbn [line_search]. rewrite run_bind.
  unfold lift, dict_getitem. by rewrite Hd.
Qed.

(** One iteration of [while go_2]. *)
Lemma line_search_S ntg fuel nbh bd fmin bv init st :
  line_search fnlp_gdp ntg (S fuel) nbh bd fmin bv init st =
  match dict_get nbh bd with
  | None => (Exn KeyError, st)
  | Some direction =>
      match move_and_evaluate fnlp_gdp ntg bv init fmin direction true
              dsda_min_allowed dsda_max_allowed tol_default st with
      | (Done mv, st') =>
          if m_moved mv then
            line_search fnlp_gdp ntg fuel nbh bd
              (m_fmin mv) (m_best_var mv) (m_best_init mv)
              (State (heap st') (calls st') (route st' ++ [m_best_var mv])
                     (fmin_log st' ++ [m_fmin mv]))
          else (Done mv, st')
      | (Exn e, st') => (Exn e, st')
      | (OutOfFuel, st') => (OutOfFuel, st')
      end
  end.
Proof.
  cbn [line_search]. rewrite run_bind. unfold lift, dict_getitem.
  destruct (dict_get nbh bd) as [direction|]; [|done].
  rewrite run_bind.
  destruct (move_and_evaluate _ _ _ _ _ _ _ _ _ _ _) as [[mv|e|] st']; try done.
  destruct (m_moved mv); done.
Qed.

Lemma line_search_spec fuel nbh bd direction fmin bv init st :
  dict_get nbh bd = Some direction →
  ∃ pts qs fmin' point' init' cs out,
    accepted_run fnlp_gdp NT_global direction fmin bv init pts qs fmin' point' init' ∧
    (length pts ≤ fuel)%nat ∧
    Forall (search_call NT_global) cs ∧
    line_search fnlp_gdp (Some NT_global) fuel nbh bd fmin bv init st
      = (out, extend st cs pts qs) ∧
    match out with
    | Done mv =>
        mv = Move fmin' point' false init' ∧
        ¬ step_accepted fnlp_gdp NT_global dsda_min_allowed dsda_max_allowed tol_default
                        direction fmin' point' init'
    | OutOfFuel => length pts = fuel
    | Exn e =>
        ¬ within dsda_min_allowed dsda_max_allowed (vec_add point' direction)
    end.
Proof.
  intros Hd. revert fmin bv init st.
  induction fuel as [|fuel IH]; intros fmin bv init st.
  - exists [], [], fmin, bv, init, [], OutOfFuel. split_and!; try done.
    + constructor.
    + cbn. by rewrite extend_nil.
  - rewrite line_search_S, Hd.
    destruct (move_and_evaluate_cases bv init fmin direction
                dsda_min_allowed dsda_max_allowed tol_default st)
      as [[Hacc ->]|[[Hnacc [[-> Hnw]|[-> Hw]]]|[Hnw [e ->]]]].
    + cbn [m_moved m_best_var m_fmin m_best_init].
      set (mp := vec_add bv direction) in *.
      set (r := fnlp_gdp NT_global mp true init) in *.
      match goal with |- context [line_search _ _ fuel nbh bd _ _ _ ?st1] =>
        destruct (IH (sr_obj r) mp (sr_init r) st1)
          as (pts & qs & fmin' & point' & init' & cs & out
              & Hrun & Hlen & Hcs & Hst & Hout);
        replace st1 with (extend st [Call NT_global mp true] [mp] [sr_obj r])
          in * by done
      end.
      exists (mp :: pts), (sr_obj r :: qs), fmin', point', init',
             (Call NT_global mp true :: cs), out.
      split_and!.
      * by constructor.
      * cbn. lia.
      * constructor; [|done]. split_and!; [done|done|]. by destruct Hacc.
      * rewrite Hst, extend_extend. done.
      * destruct out; [done| done |cbn; lia].
    + exists [], [], fmin, bv, init, [], (Done (Move fmin bv false init)).
      split_and!; try done.
      * constructor.
      * cbn; lia.
      * by rewrite extend_nil.
    + exists [], [], fmin, bv, init, [Call NT_global (vec_add bv direction) true],
             (Done (Move fmin bv false init)).
      split_and!; try done.
      * constructor.
      * cbn; lia.
      * constructor; [|done]. done.
      * by rewrite add_calls_extend.
    + exists [], [], fmin, bv, init, [], (Exn e). split_and!; try done.
      * constructor.
      * cbn; lia.
      * by rewrite extend_nil.
Qed.

(** One iteration of [while go_1]. *)
Lemma explore_S ntg fuel nbh ext_var init fmin st :
  explore fnlp_gdp ntg (S fuel) (Some nbh) ext_var init fmin st =
  match my_neighbors ext_var nbh true dsda_min_allowed dsda_max_allowed true with
  | Raise e => (Exn e, st)
  | Ok nb =>
      match evaluate_neighbors fnlp_gdp ntg (length (heap st)) init fmin
              tol_default
              (State (heap st ++ [nb]) (calls st) (route st) (fmin_log st)) with
      | (Done s, st2) =>
          if s_improve s then
            match line_search fnlp_gdp ntg (S fuel) nbh (s_best_dir s)
                    (s_fmin s) (s_best_var s) (s_best_init s)
                    (State (heap st2) (calls st2) (route st2 ++ [s_best_var s])
                           (fmin_log st2 ++ [s_fmin s])) with
            | (Done mv, st4) =>
                explore fnlp_gdp ntg fuel (Some nbh) (m_best_var mv) init
                        (m_fmin mv) st4
            | (Exn e, st4) => (Exn e, st4)
            | (OutOfFuel, st4) => (OutOfFuel, st4)
            end
          else (Done (), st2)
      | (Exn e, st2) => (Exn e, st2)
      | (OutOfFuel, st2) => (OutOfFuel, st2)
      end
  end.
Proof.
  cbn [explore]. rewrite run_bind. unfold lift at 1. rewrite run_bind.
  unfold lift at 1.
  destruct (my_neighbors _ _ _ _ _ _) as [nb|e]; [|done].
  rewrite run_bind. unfold alloc at 1. rewrite run_bind.
  destruct (evaluate_neighbors _ _ _ _ _ _ _) as [[s|e|] st2]; try done.
  destruct (s_improve s); [|done].
  rewrite run_bind. unfold route_append at 1. rewrite run_bind.
  unfold log_fmin at 1. cbn [heap calls route fmin_log]. rewrite run_bind.
  destruct (line_search _ _ _ _ _ _ _ _ _) as [[mv|e|] st4]; done.
Qed.

(** What a run of the outer loop adds to the state: calls of the solver on
    points within the bounds, and as many route elements as recorded
    values of [fmin]; with an order on the values, each recorded value
    passes the test against the one before it. *)
Lemma explore_spec fuel nbh ext_var init fmin st :
  0 ∉ dict_keys nbh →
  ∃ h cs pts qs out,
    explore fnlp_gdp (Some NT_global) fuel (Some nbh) ext_var init fmin st
      = (out, State h (calls st ++ cs) (route st ++ pts) (fmin_log st ++ qs)) ∧
    Forall (search_call NT_global) cs ∧ length pts = length qs ∧
    (ObjectiveOrder F → chain tol_default fmin qs) ∧
    (∀ nb, (0 < fuel)%nat →
       my_neighbors ext_var nbh true dsda_min_allowed dsda_max_allowed true
         = Ok nb →
       is_Some (dict_get nb 0) →
       ((λ x, Call NT_global x true) <$> dict_values (dict_pop nb 0))
         `prefix_of` cs).
Proof.
  intros H0. revert ext_var fmin st.
  induction fuel as [|fuel IH]; intros ext_var fmin st.
  { exists (heap st), [], [], [], OutOfFuel. rewrite !app_nil_r.
    split_and!; [by destruct st|done..|]. intros; lia. }
  rewrite explore_S.
  destruct (my_neighbors _ _ _ _ _ _) as [nb|e] eqn:Hnb.
  2:{ exists (heap st), [], [], [], (Exn e). rewrite !app_nil_r.
      split_and!; [by destruct st|done..|]. intros; congruence. }
  apply my_neighbors_optimize in Hnb as Hnb'; [|done].
  destruct Hnb' as [Hnd Hnb'].
  set (st1 := State (heap st ++ [nb]) (calls st) (route st) (fmin_log st)).
  assert (Hl : heap st1 !! length (heap st) = Some nb).
  { cbn. by rewrite lookup_app_r, Nat.sub_diag. }
  destruct (dict_get nb 0) as [v0|] eqn:Hv0.
  2:{ erewrite evaluate_neighbors_no_incumbent by done.
      exists (heap st ++ [nb]), [], [], [], (Exn KeyError). rewrite !app_nil_r.
      split_and!; [done..|]. intros nb' _ [= <-] [? ?]. congruence. }
  erewrite evaluate_neighbors_eval by done. cbn [heap calls route fmin_log st1].
  set (cs1 := (λ ix : Z * list Z, Call NT_global ix.2 true) <$> dict_pop nb 0).
  assert (Hcs1 : Forall (search_call NT_global) cs1).
  { apply Forall_fmap, Forall_forall. intros [i x] Hin.
    split_and!; [done|done|]. cbn.
    eapply Hnb', elem_of_sublist; [done|apply dict_pop_sublist]. }
  assert (Hpre : ∀ cs', ∀ nb', (0 < S fuel)%nat → Ok nb = Ok nb' →
    is_Some (dict_get nb' 0) →
    ((λ x, Call NT_global x true) <$> dict_values (dict_pop nb' 0))
      `prefix_of` cs1 ++ cs').
  { intros cs' nb' _ [= <-] _. exists cs'. f_equal. unfold cs1, dict_values.
    by rewrite <-list_fmap_compose. }
  pose proof (scan_fold_running_best fnlp_gdp NT_global init tol_default fmin v0
                (dict_pop nb 0)) as (_ & _ & _ & Himp).
  assert (ObjectiveOrder F →
          s_improve (foldl (scan_step fnlp_gdp NT_global init tol_default)
                           (Scan fmin v0 0 init false) (dict_pop nb 0)) = true →
          obj_ltb (obj_add
                     (s_fmin (foldl (scan_step fnlp_gdp NT_global init tol_default)
                                    (Scan fmin v0 0 init false) (dict_pop nb 0)))
                     tol_default) fmin = true) as Hdesc.
  { intros HO Hi.
    destruct (scan_fold_descends fnlp_gdp NT_global init
                (Scan fmin v0 0 init false) (dict_pop nb 0)) as [Heq|[_ ?]];
      [|done].
    rewrite Heq in Hi. done. }
  destruct (s_improve _) eqn:Hi.
  2:{ eexists _, cs1, [], [], (Done ()). rewrite !app_nil_r.
      split_and!; [done..|]. rewrite <-(app_nil_r cs1). apply Hpre. }
  destruct (Himp eq_refl) as (bf & i & x & af & _ & Hs & _).
  rewrite Hs in Hdesc |- *. clear Himp Hi Hs.
  cbn [s_best_dir s_fmin s_best_var s_best_init] in *.
  set (q := sr_obj (fnlp_gdp NT_global x true init)) in *.
  destruct (dict_get nbh i) as [direction|] eqn:Hd.
  2:{ rewrite line_search_no_direction by done.
      eexists _, cs1, [x], [q], (Exn KeyError).
      split_and!; [done|done|done| |].
      - intros HO. cbn. split; [by apply Hdesc|done].
      - rewrite <-(app_nil_r cs1). apply Hpre. }
  match goal with |- context [line_search _ _ _ _ _ _ _ ?ini ?st3] =>
    destruct (line_search_spec (S fuel) nbh i direction q x ini st3 Hd)
      as (pts2 & qs2 & fmin' & point' & init' & cs2 & out
          & Hrun & _ & Hcs2 & -> & Hout)
  end.
  apply accepted_run_chain in Hrun as [Hlen2 Hchain].
  unfold extend. cbn [heap calls route fmin_log].
  destruct out as [mv|e|].
  - destruct Hout as [-> _]. cbn [m_best_var m_fmin].
    match goal with |- context [explore _ _ fuel _ _ _ _ ?st4] =>
      destruct (IH point' fmin' st4)
        as (h & cs3 & pts3 & qs3 & out & -> & Hcs3 & Hlen3 & Hch3 & _)
    end.
    cbn [heap calls route fmin_log]. rewrite <-!app_assoc.
    exists h, (cs1 ++ cs2 ++ cs3), ([x] ++ pts2 ++ pts3), ([q] ++ qs2 ++ qs3), out.
    split_and!; [done| |rewrite !length_app; cbn; lia| |apply Hpre].
    + by rewrite !Forall_app.
    + intros HO. cbn. split; [by apply Hdesc|]. by apply Hchain, Hch3.
  - rewrite <-!app_assoc.
    eexists _, (cs1 ++ cs2), ([x] ++ pts2), ([q] ++ qs2), (Exn e).
    split_and!; [done| |rewrite !length_app; cbn; lia| |apply Hpre].
    + by rewrite !Forall_app.
    + intros HO. cbn. split; [by apply Hdesc|].
      rewrite <-(app_nil_r qs2). by apply Hchain.
  - rewrite <-!app_assoc.
    eexists _, (cs1 ++ cs2), ([x] ++ pts2), ([q] ++ qs2), OutOfFuel.
    split_and!; [done| |rewrite !length_app; cbn; lia| |apply Hpre].
    + by rewrite !Forall_app.
    + intros HO. cbn. split; [by apply Hdesc|].
      rewrite <-(app_nil_r qs2). by apply Hchain.
Qed.

Lemma directions_upto_no_key_0 n m : 0 ∉ dict_keys (directions_upto n m).
Proof.
  rewrite directions_upto_keys.
  intros (i & Hi & _)%list_elem_of_fmap. lia.
Qed.

(** A whole run of the driver from the empty state. *)
Lemma dsda_spec fuel NT k :
  let ext_var := external_init NT in
  let fmin0 := sr_obj (fnlp_gdp NT ext_var false empty_init) in
  ∃ h cs pts qs out,
    dsda fnlp_gdp empty_init external_init (Some NT_global) fuel NT k initial_state
      = (out, State h (Call NT ext_var false :: cs) (ext_var :: pts)
                    (fmin0 :: qs)) ∧
    Forall (search_call NT_global) cs ∧ length pts = length qs ∧
    (ObjectiveOrder F → chain tol_default fmin0 qs) ∧
    (∀ nb, (0 < fuel)%nat → k = "2"%string →
       my_neighbors ext_var (directions_upto (length ext_var)
                               (2 * length ext_var))
                    true dsda_min_allowed dsda_max_allowed true = Ok nb →
       is_Some (dict_get nb 0) →
       ((λ x, Call NT_global x true) <$> dict_values (dict_pop nb 0))
         `prefix_of` cs).
Proof.
  intros ext_var fmin0. unfold dsda. fold ext_var.
  rewrite run_bind. unfold route_append at 1. rewrite run_bind.
  unfold solve at 1. rewrite run_bind. unfold log_fmin at 1.
  cbn [heap calls route fmin_log initial_state app]. fold fmin0.
  rewrite run_bind.
  case_decide as Hk.
  - rewrite run_bind. rewrite neighborhood_k_eq_2_eq. unfold lift at 1.
    unfold mret at 1, M_ret at 1. rewrite run_bind.
    match goal with |- context [explore _ _ fuel _ ?e ?i ?q ?st] =>
      destruct (explore_spec fuel
                  (directions_upto (length ext_var) (2 * length ext_var))
                  e i q st (directions_upto_no_key_0 _ _))
        as (h & cs & pts & qs & out & -> & Hcs & Hlen & Hch & Hpre)
    end.
    cbn [heap calls route fmin_log app].
    exists h, cs, pts, qs.
    destruct out as [[]|e|]; eexists; (split_and!; [done..|]); intros; auto.
  - unfold mret at 1, M_ret at 1. rewrite run_bind.
    exists [], [], [], [].
    destruct fuel as [|fuel]; eexists; (split_and!; [done..|]); intros; done.
Qed.
End driver_facts.

Section driver_claims.
Context {F : Type} `{!Objective F} {Init : Type}.
Variable fnlp_gdp : Z → list Z → bool → Init → solve_result (F:=F) (Init:=Init).
Variable empty_init : Init.
Variable external_init : Z → list Z.
Variable NT_global : Z.

(** Every call of the solver issued by EXPLORE or LINE-SEARCH (the calls
    with a warm start) is on a point within the bounds that the driver
    passes: at most two coordinates, each in [1..5], whatever [NT] is. *)
Lemma dsda_search_calls_within_1_5 fuel NT k c :
  c ∈ calls (dsda fnlp_gdp empty_init external_init (Some NT_global) fuel NT k
                  initial_state).2 →
  call_provide_init c = true →
  call_NT c = NT_global ∧ (length (call_x c) ≤ 2)%nat ∧
  Forall (λ p, 1 ≤ p ≤ 5) (call_x c).
Proof.
  destruct (dsda_spec fnlp_gdp empty_init external_init NT_global fuel NT k)
    as (h & cs & pts & qs & out & -> & Hcs & _).
  cbn. intros [->|Hin]%elem_of_cons; [done|]. intros _.
  rewrite Forall_forall in Hcs. destruct (Hcs _ Hin) as (? & _ & Hw).
  apply within_dsda_bounds in Hw. tauto.
Qed.

End driver_claims.


(** C2 (the code departs from the claim).  With [NT = 3], at the module
    level and as argument, and the feasible start [[3, 1]], the first scan of
    the driver solves the candidate [[4, 1]], whose first coordinate is above
    [NT]: the bounds passed by [dsda] are the constants [1] and [5], not [1]
    and [NT]. *)
Theorem dsda_solves_candidate_above_NT {F : Type} `{!Objective F} {Init : Type}
    (fnlp_gdp : Z → list Z → bool → Init → solve_result (F:=F) (Init:=Init))
    (empty_init : Init) (fuel : nat) :
  Call 3 [4; 1] true ∈
    calls (dsda fnlp_gdp empty_init (λ _, [3; 1]) (Some 3) (S fuel) 3 "2"
                initial_state).2 ∧
  ¬ Forall (λ p, 1 ≤ p ≤ 3) [4; 1].
Proof.
  split.
  - destruct (dsda_spec fnlp_gdp empty_init (λ _, [3; 1]) 3 (S fuel) 3 "2")
      as (h & cs & pts & qs & out & -> & _ & _ & _ & Hpre).
    cbn [snd calls]. right.
    destruct (Hpre [(0, [3; 1]); (1, [4; 1]); (2, [3; 2]); (3, [2; 1])])
      as [cs' ->]; [lia|done|by vm_compute|by eexists|].
    cbn. left.
  - intros H. apply Forall_cons in H as [? _]. lia.
Qed.

(** ** Solves with a status other than [ok] *)

Lemma scan_fold_filter {F : Type} `{!Objective F} {Init : Type}
    (f : Z → list Z → bool → Init → solve_result (F:=F) (Init:=Init)) NT init tol
    (P : Z * list Z → Prop) `{∀ e, Decision (P e)} es s :
  (∀ e, ¬ P e → sr_status (f NT e.2 true init) ≠ SolverStatus.ok) →
  foldl (scan_step f NT init tol) s (filter P es)
  = foldl (scan_step f NT init tol) s es.
Proof.
  intros HP. revert s. induction es as [|e es IH]; intros s; [done|].
  rewrite filter_cons. destruct (decide (P e)) as [|Hn]; cbn; [done|].
  rewrite IH. f_equal. unfold scan_step. by rewrite decide_False by auto.
Qed.

Lemma scan_fold_ext {F : Type} `{!Objective F} {Init : Type}
    (f g : Z → list Z → bool → Init → solve_result (F:=F) (Init:=Init)) NT init tol es s :
  (∀ x, sr_status (g NT x true init) = sr_status (f NT x true init)) →
  (∀ x, sr_status (f NT x true init) = SolverStatus.ok →
        g NT x true init = f NT x true init) →
  foldl (scan_step g NT init tol) s es = foldl (scan_step f NT init tol) s es.
Proof.
  intros Hst Hok. revert s. induction es as [|e es IH]; intros s; [done|].
  cbn. rewrite IH. f_equal. unfold scan_step. rewrite Hst.
  case_decide as Hs; [|done]. by rewrite Hok.
Qed.

(** C8. A candidate whose solve returns a status other than [ok] is never
    selected and changes nothing.  For a scan of [evaluate_neighbors]: the
    call returns normally; a selected candidate was solved with status [ok]
    and the returned [fmin] and warm start are those of its solve; the
    returned values are the same when the candidates with another status are
    taken out of the mapping, and the same for a solver that reports other
    objective values and warm starts with those statuses.  For a step of
    [move_and_evaluate] within the bounds: with a status other than [ok] the
    call returns normally with [moved = False] and the incoming [fmin],
    point and warm start. *)
Theorem non_ok_solves_change_nothing {F : Type} `{!Objective F} {Init : Type}
    (fnlp_gdp : Z → list Z → bool → Init → solve_result (F:=F) (Init:=Init))
    (NT_global : Z) l (d : dict Z (list Z)) v0 init fmin tol st :
  heap st !! l = Some d → NoDup (dict_keys d) → dict_get d 0 = Some v0 →
  let is_ok x := sr_status (fnlp_gdp NT_global x true init) = SolverStatus.ok in
  (∃ s st',
     evaluate_neighbors fnlp_gdp (Some NT_global) l init fmin tol st = (Done s, st') ∧
     (s_improve s = true →
      (s_best_dir s, s_best_var s) ∈ dict_pop d 0 ∧ is_ok (s_best_var s) ∧
      s_fmin s = sr_obj (fnlp_gdp NT_global (s_best_var s) true init) ∧
      s_best_init s = sr_init (fnlp_gdp NT_global (s_best_var s) true init)) ∧
     (∀ l2 st2,
        heap st2 !! l2 = Some (filter (λ ix, ix.1 = 0 ∨ is_ok ix.2) d) →
        (evaluate_neighbors fnlp_gdp (Some NT_global) l2 init fmin tol st2).1 = Done s) ∧
     (∀ g : Z → list Z → bool → Init → solve_result (F:=F) (Init:=Init),
        (∀ x, sr_status (g NT_global x true init)
              = sr_status (fnlp_gdp NT_global x true init)) →
        (∀ x, is_ok x → g NT_global x true init = fnlp_gdp NT_global x true init) →
        (evaluate_neighbors g (Some NT_global) l init fmin tol st).1 = Done s)) ∧
  (∀ start direction mfmin min_allowed max_allowed st0,
     ¬ is_ok (vec_add start direction) →
     within min_allowed max_allowed (vec_add start direction) →
     move_and_evaluate fnlp_gdp (Some NT_global) start init mfmin direction true
       min_allowed max_allowed tol st0
     = (Done (Move mfmin start false init),
        add_calls st0 [Call NT_global (vec_add start direction) true])).
Proof.
  intros Hl Hnd H0 is_ok. split.
  - eexists _, _. split_and!.
    + by apply evaluate_neighbors_eval.
    + generalize (dict_pop d 0). intros es.
      assert (∀ s0, s_improve s0 = false →
        s_improve (foldl (scan_step fnlp_gdp NT_global init tol) s0 es) = true →
        let s := foldl (scan_step fnlp_gdp NT_global init tol) s0 es in
        (s_best_dir s, s_best_var s) ∈ es ∧ is_ok (s_best_var s) ∧
        s_fmin s = sr_obj (fnlp_gdp NT_global (s_best_var s) true init) ∧
        s_best_init s = sr_init (fnlp_gdp NT_global (s_best_var s) true init))
        as Hgen; [|by apply Hgen].
      induction es as [|[i x] es IH] using rev_ind; intros s0 Hs0.
      { cbn. congruence. }
      rewrite foldl_app. cbn [foldl].
      destruct (scan_step_cases fnlp_gdp NT_global init tol
                  (foldl (scan_step fnlp_gdp NT_global init tol) s0 es) i x)
        as [[[Hok _] ->]|[_ ->]].
      * intros _. cbn. split_and!; [|done..].
        apply elem_of_app. right. left.
      * intros Hi. destruct (IH s0 Hs0 Hi) as (Hin & ? & ? & ?).
        split_and!; [|done..]. apply elem_of_app. by left.
    + intros l2 st2 Hl2.
      erewrite evaluate_neighbors_eval; [| done | | ].
      * cbn [fst]. f_equal. rewrite dict_pop_filter by (intros; by left).
        apply scan_fold_filter. intros [i x] Hn. cbn. intros ?.
        apply Hn. by right.
      * unfold dict_keys in *. eapply sublist_NoDup; [done|].
        apply fmap_sublist, sublist_filter.
      * rewrite dict_get_filter by (intros; by left). done.
    + intros g Hst Hok. erewrite evaluate_neighbors_eval by done.
      cbn [fst]. f_equal. by apply scan_fold_ext.
  - intros start direction mfmin min_allowed max_allowed st0 Hnok Hw.
    rewrite move_and_evaluate_eval. cbv zeta.
    apply count_checked_within in Hw. rewrite Hw.
    rewrite decide_True by done. by rewrite decide_False.
Qed.

(** ** Examples *)

Example dsda_example_run :
  dsda example_solver tt (λ _, [3; 1]) (Some 5) 10 5 "2" initial_state
  = (Done [[3; 1]; [4; 1]; [5; 1]; [5; 2]; [5; 3]; [5; 4]; [5; 5]],
     State [[(1, [4; 1]); (2, [3; 2]); (3, [2; 1])];
            [(2, [5; 2]); (3, [4; 1])]; [(4, [5; 4])]]
           [Call 5 [3; 1] false; Call 5 [4; 1] true; Call 5 [3; 2] true;
            Call 5 [2; 1] true; Call 5 [5; 1] true; Call 5 [5; 2] true;
            Call 5 [4; 1] true; Call 5 [5; 3] true; Call 5 [5; 4] true;
            Call 5 [5; 5] true; Call 5 [5; 4] true]
           [[3; 1]; [4; 1]; [5; 1]; [5; 2]; [5; 3]; [5; 4]; [5; 5]]
           [6; 5; 4; 3; 2; 1; 0]%float).
Proof. vm_compute. reflexivity. Qed.

(** C3 (as stated, refuted).  From [[3, 2]] with the bounds [1..5] and the
    asymmetry filter active, the candidate [[3, 3]] is in the result of
    [my_neighbors], under key [2]: its difference [x2 - x1] is [0], which is
    not positive. *)
Lemma my_neighbors_3_2_keeps_3_3 :
  ∃ nbh nb,
    neighborhood_k_eq_2 2 = Ok nbh ∧
    my_neighbors [3; 2] nbh true dsda_min_allowed dsda_max_allowed true = Ok nb ∧
    dict_get nb 2 = Some [3; 3] ∧ [3; 3] ∈ dict_values nb ∧ ¬ (3 - 3 > 0).
Proof.
  eexists _, _. split_and!; [vm_compute; reflexivity..| |lia].
  cbn. right. right. left.
Qed.

(** C3 (amended).  From [[3, 2]] with [N = 5] and the k=2 neighbourhood,
    [my_neighbors] with the bounds [1..5] and the asymmetry filter active
    returns the incumbent under key [0] and the four candidates [[4, 2]],
    [[3, 3]], [[2, 2]], [[3, 1]] under the keys [1..4]: each of them is
    within the bounds and has [x2 <= x1], so none is removed. *)
Theorem my_neighbors_3_2 :
  ∃ nbh,
    neighborhood_k_eq_2 2 = Ok nbh ∧
    my_neighbors [3; 2] nbh true dsda_min_allowed dsda_max_allowed true
    = Ok [(0, [3; 2]); (1, [4; 2]); (2, [3; 3]); (3, [2; 2]); (4, [3; 1])] ∧
    Forall (λ v, within dsda_min_allowed dsda_max_allowed v ∧
                 ∃ x1 x2, v = [x1; x2] ∧ x2 ≤ x1)
           [[4; 2]; [3; 3]; [2; 2]; [3; 1]].
Proof.
  eexists. split_and!; [vm_compute; reflexivity..|].
  repeat apply Forall_cons_2; try apply Forall_nil_2;
    (split; [apply within_dsda_bounds; split; [cbn; lia|];
             repeat apply Forall_cons_2; try apply Forall_nil_2; lia
            |eexists _, _; split; [done|lia]]).
Qed.

Lemma neighborhood_k_eq_2_signed_basis_witness :
  (1 ≤ 2)%nat ∧
  ∃ directions : dict Z (list Z),
    neighborhood_k_eq_2 2 = Ok directions ∧
    length directions = (2 * 2)%nat ∧
    dict_keys directions = Z.of_nat <$> seq 1 (2 * 2) ∧
    ∀ i : nat, (1 ≤ i ≤ 2)%nat →
      ∃ pos neg : list Z,
        dict_get directions (Z.of_nat i) = Some pos ∧
        dict_get directions (Z.of_nat (i + 2)) = Some neg ∧
        length pos = 2%nat ∧
        (∀ j : nat, (j < 2)%nat →
           pos !! j = Some (if decide (j = (i - 1)%nat) then 1 else 0)) ∧
        neg = Z.opp <$> pos ∧
        vec_add pos neg = replicate 2 0.
Proof.
  split; [lia|]. apply (neighborhood_k_eq_2_signed_basis 2). lia.
Defined.

Lemma example_candidates_NoDup : NoDup (dict_keys example_candidates).
Proof. apply NoDup_ListNoDup. repeat constructor; cbn; lia. Defined.

Lemma evaluate_neighbors_running_best_witness :
  heap (State (F:=float) [example_candidates] [] [] []) !! 0%nat = Some example_candidates ∧
  NoDup (dict_keys example_candidates) ∧
  dict_get example_candidates 0 = Some [3; 2] ∧
  ∃ s st',
    evaluate_neighbors example_solver (Some 5) 0 tt 5%float tol_default
      (State (F:=float) [example_candidates] [] [] []) = (Done s, st') ∧
    calls st' = calls (State (F:=float) [example_candidates] [] [] []) ++
                ((λ x, Call 5 x true) <$>
                   dict_values (dict_pop example_candidates 0)) ∧
    running_best example_solver 5 tt tol_default 5%float [3; 2]
                 (dict_pop example_candidates 0) s.
Proof.
  split_and!; [reflexivity|apply example_candidates_NoDup|reflexivity|].
  apply (evaluate_neighbors_running_best example_solver 5 0 example_candidates
           [3; 2] tt 5%float (State (F:=float) [example_candidates] [] [] []));
    [reflexivity|apply example_candidates_NoDup|reflexivity].
Defined.

Lemma evaluate_neighbors_pops_incumbent_witness :
  heap (State (F:=float) [example_candidates] [] [] []) !! 0%nat = Some example_candidates ∧
  NoDup (dict_keys example_candidates) ∧
  dict_get example_candidates 0 = Some [3; 2] ∧
  ∃ s st',
    evaluate_neighbors example_solver (Some 5) 0 tt 5%float tol_default
      (State (F:=float) [example_candidates] [] [] []) = (Done s, st') ∧
    heap st' !! 0%nat = Some (dict_pop example_candidates 0) ∧
    dict_get (dict_pop example_candidates 0) 0 = None ∧
    (∀ k, k ≠ 0 →
       dict_get (dict_pop example_candidates 0) k = dict_get example_candidates k) ∧
    sublist (dict_pop example_candidates 0) example_candidates ∧
    (∀ l', l' ≠ 0%nat →
       heap st' !! l' = heap (State (F:=float) [example_candidates] [] [] []) !! l') ∧
    (s_improve s = false → s_best_var s = [3; 2] ∧ s_best_dir s = 0).
Proof.
  split_and!; [reflexivity|apply example_candidates_NoDup|reflexivity|].
  apply (evaluate_neighbors_pops_incumbent example_solver 5 0 example_candidates
           [3; 2] tt 5%float tol_default (State (F:=float) [example_candidates] [] [] []));
    [reflexivity|apply example_candidates_NoDup|reflexivity].
Defined.

Lemma non_ok_solves_change_nothing_witness :
  heap (State (F:=float) [example_candidates] [] [] []) !! 0%nat = Some example_candidates ∧
  NoDup (dict_keys example_candidates) ∧
  dict_get example_candidates 0 = Some [3; 2] ∧
  ((∃ s st',
      evaluate_neighbors example_solver (Some 5) 0 tt 5%float tol_default
        (State (F:=float) [example_candidates] [] [] []) = (Done s, st') ∧
      (s_improve s = true →
       (s_best_dir s, s_best_var s) ∈ dict_pop example_candidates 0 ∧
       sr_status (example_solver 5 (s_best_var s) true tt) = SolverStatus.ok ∧
       s_fmin s = sr_obj (example_solver 5 (s_best_var s) true tt) ∧
       s_best_init s = sr_init (example_solver 5 (s_best_var s) true tt)) ∧
      (∀ l2 st2,
         heap st2 !! l2
           = Some (filter (λ ix, ix.1 = 0 ∨
                             sr_status (example_solver 5 ix.2 true tt)
                             = SolverStatus.ok) example_candidates) →
         (evaluate_neighbors example_solver (Some 5) l2 tt 5%float tol_default st2).1 = Done s) ∧
      (∀ g : Z → list Z → bool → unit → solve_result (F:=float) (Init:=unit),
         (∀ x, sr_status (g 5 x true tt) = sr_status (example_solver 5 x true tt)) →
         (∀ x, sr_status (example_solver 5 x true tt) = SolverStatus.ok →
               g 5 x true tt = example_solver 5 x true tt) →
         (evaluate_neighbors g (Some 5) 0 tt 5%float tol_default
            (State (F:=float) [example_candidates] [] [] [])).1 = Done s)) ∧
   (∀ start direction mfmin min_allowed max_allowed st0,
      ¬ sr_status (example_solver 5 (vec_add start direction) true tt)
        = SolverStatus.ok →
      within min_allowed max_allowed (vec_add start direction) →
      move_and_evaluate example_solver (Some 5) start tt mfmin direction true
        min_allowed max_allowed tol_default st0
      = (Done (Move mfmin start false tt),
         add_calls st0 [Call 5 (vec_add start direction) true]))).
Proof.
  split; [reflexivity|]. split; [apply example_candidates_NoDup|].
  split; [reflexivity|].
  apply (non_ok_solves_change_nothing example_solver 5 0 example_candidates
           [3; 2] tt 5%float tol_default (State (F:=float) [example_candidates] [] [] []));
    [reflexivity|apply example_candidates_NoDup|reflexivity].
Defined.


(** The run of the example in exact arithmetic, with the values of [fmin]
    that it records. *)
Example dsda_exact_run :
  fmin_log (dsda exact_solver tt (λ _, [3; 1]) (Some 5) 10 5 "2"
                 initial_state).2
  = [6; 5; 4; 3; 2; 1; 0]%Q.
Proof. vm_compute. reflexivity. Qed.

(** The scan of the example: [[2, 2]], whose solve fails, is passed over;
    [[4, 2]] is the running best. *)
Example evaluate_neighbors_example :
  (evaluate_neighbors example_solver (Some 5) 0 tt 5%float tol_default
     (State (F:=float) [example_candidates] [] [] [])).1
  = Done (Scan 4%float [4; 2] 1 tt true).
Proof. vm_compute. reflexivity. Qed.

(** C4 (as stated, refuted).  On the doubles, with the incoming
    [fmin = 2.0] and a neighbour [[4, 2]] whose solve has status [ok] and
    the objective [1.99999]: the objective is strictly less than
    [fmin - tol], for [tol] the real number [0.00001] as for the double that
    the program uses in its place, yet [evaluate_neighbors] returns
    [improve = False] with the incoming values: the sum [act_obj + tol] of
    the program is rounded to [2.0], which is not below [fmin]. *)
Lemma evaluate_neighbors_rounds_to_fmin :
  ∃ st' q t f,
    evaluate_neighbors boundary_solver (Some 5) 0 tt 2%float tol_default
      (State (F:=float) [boundary_candidates] [] [] [])
      = (Done (Scan 2%float [3; 2] 0 tt false), st') ∧
    (1, [4; 2]) ∈ dict_pop boundary_candidates 0 ∧
    sr_status (boundary_solver 5 [4; 2] true tt) = SolverStatus.ok ∧
    float_val (sr_obj (boundary_solver 5 [4; 2] true tt)) = Some q ∧
    float_val tol_default = Some t ∧
    float_val 2%float = Some f ∧ (f == 2)%Q ∧
    (q < f - (1 # 100000))%Q ∧ (q < f - t)%Q ∧
    PrimFloat.add (sr_obj (boundary_solver 5 [4; 2] true tt)) tol_default
      = 2%float.
Proof.
  eexists _, _, _, _. split_and!.
  - vm_compute. reflexivity.
  - cbn. left.
  - reflexivity.
  - vm_compute. reflexivity.
  - vm_compute. reflexivity.
  - vm_compute. reflexivity.
  - vm_compute. reflexivity.
  - vm_compute. reflexivity.
  - vm_compute. reflexivity.
  - vm_compute. reflexivity.
Qed.

End ReactorFacts.

(** ** The scanner *)

Module ReformulationFacts.
Import Reformulation.

#[local] Arguments ref_key : simpl never.
#[local] Arguments make_entry : simpl never.
#[local] Arguments sorted : simpl never.

Lemma string_ltb_asym s t : String.ltb s t = true → String.ltb t s = false.
Proof.
  unfold String.ltb. rewrite (String.compare_antisym t s).
  destruct (String.compare s t); cbn; congruence.
Qed.

Lemma val_lt_asym a b : val_lt a b = Ok true → val_lt b a = Ok false.
Proof.
  destruct a as [x|s], b as [y|t]; cbn; try done.
  - intros [= H]. f_equal. apply Z.ltb_lt in H. apply Z.ltb_ge. lia.
  - intros [= H]. by rewrite string_ltb_asym.
Qed.

Lemma tuple_lt_asym a b : tuple_lt a b = Ok true → tuple_lt b a = Ok false.
Proof.
  revert b. induction a as [|x a IH]; intros [|y b]; cbn; try done.
  destruct (decide (x = y)) as [->|Hne].
  - rewrite decide_True by done. apply IH.
  - rewrite decide_False by congruence. apply val_lt_asym.
Qed.

Lemma py_lt_asym a b : py_lt a b = Ok true → py_lt b a = Ok false.
Proof.
  destruct a, b; cbn; try done; [apply val_lt_asym|apply tuple_lt_asym].
Qed.

Lemma insert_by_key_spec {A : Type} (kx : PyIndex * A) l s :
  insert_by_key kx l = Ok s →
  keyed_sorted l →
  keyed_sorted s ∧ s ≡ₚ kx :: l ∧
  (∀ y, HdRel (λ a b, key_le a.1 b.1) y l → key_le y.1 kx.1 →
        HdRel (λ a b, key_le a.1 b.1) y s).
Proof.
  revert s. induction l as [|ky l IH]; intros s; cbn.
  - intros [= <-] _. split_and!; [by repeat constructor|done|].
    intros y _ Hy. by constructor.
  - destruct (py_lt ky.1 kx.1) as [[]|] eqn:Hlt; cbn; [| |done].
    + destruct (insert_by_key kx l) as [r|] eqn:Hr; cbn; [|done].
      intros [= <-] Hs. apply Sorted_inv in Hs as [Hs Hhd].
      destruct (IH r eq_refl Hs) as (Hsr & Hperm & Hrel).
      split_and!.
      * constructor; [done|]. apply Hrel; [done|]. by apply py_lt_asym.
      * rewrite Hperm. apply Permutation_swap.
      * intros y Hy _. apply HdRel_inv in Hy. by constructor.
    + intros [= <-] Hs. split_and!.
      * constructor; [done|]. by constructor.
      * done.
      * intros y _ Hy. by constructor.
Qed.

Lemma sort_keyed_spec {A : Type} (l s : list (PyIndex * A)) :
  sort_keyed l = Ok s → keyed_sorted s ∧ s ≡ₚ l.
Proof.
  revert s. induction l as [|kx l IH]; intros s; cbn.
  - intros [= <-]. split; [constructor|done].
  - destruct (sort_keyed l) as [s'|] eqn:Hs'; cbn; [|done].
    destruct (IH s' eq_refl) as [Hsorted Hperm].
    intros (Hs & Hp & _)%insert_by_key_spec; [|done].
    split; [done|]. by rewrite Hp, Hperm.
Qed.

Lemma mapM_Res_Ok_inv {A B : Type} (f : A → Res B) (l : list A) (k : list B) :
  mapM f l = Ok k → Forall2 (λ a b, f a = Ok b) l k.
Proof.
  revert k. induction l as [|a l IH]; intros k; cbn.
  - intros [= <-]. constructor.
  - destruct (f a) as [b|] eqn:Hb; cbn; [|done].
    destruct (mapM f l) as [k'|]; cbn; [|done].
    intros [= <-]. constructor; [done|]. by apply IH.
Qed.

Lemma mapM_Res_Forall2 {A B : Type} (f : A → Res B) (l : list A) (k : list B) :
  Forall2 (λ a b, f a = Ok b) l k → mapM f l = Ok k.
Proof.
  induction 1 as [|a b l k Hab _ IH]; cbn; [done|]. by rewrite Hab, IH.
Qed.

(** [sorted]: the result is a permutation of the argument, and its keys, in
    the order of the result, never decrease. *)
Lemma sorted_spec {A : Type} (l s : list A) (key : A → Res PyIndex) :
  sorted l key = Ok s →
  s ≡ₚ l ∧ ∃ keys, mapM key s = Ok keys ∧ Sorted key_le keys.
Proof.
  unfold sorted.
  destruct (mapM _ l) as [keyed|] eqn:Hk; cbn; [|done].
  destruct (sort_keyed keyed) as [s'|] eqn:Hs'; cbn; [|done].
  intros [= <-]. apply sort_keyed_spec in Hs' as [Hsorted Hperm].
  apply mapM_Res_Ok_inv in Hk.
  assert (Hl : keyed.*2 = l ∧ Forall (λ kx, key kx.2 = Ok kx.1) keyed).
  { clear -Hk. induction Hk as [|a [k x] l keyed Hax _ [IH1 IH2]]; [done|].
    destruct (key a) as [k'|] eqn:Hka; cbn in Hax; [|done].
    injection Hax as <- <-. cbn. split; [by rewrite IH1|]. by constructor. }
  destruct Hl as [<- Hkeys]. split; [by rewrite Hperm|].
  exists (s'.*1). split.
  - apply mapM_Res_Forall2. rewrite <-Hperm in Hkeys. clear -Hkeys.
    induction s' as [|[k x] s' IH]; cbn; [constructor|].
    apply Forall_cons in Hkeys as [Hx Hs']. constructor; [done|by apply IH].
  - clear -Hsorted. induction Hsorted as [|kx s' _ IH Hhd]; cbn; [constructor|].
    constructor; [done|]. destruct Hhd; cbn; by constructor.
Qed.

Lemma Sorted_non_decreasing keys : Sorted key_le keys → non_decreasing keys.
Proof.
  induction 1 as [|a keys _ IH Hhd]; intros j x y Hx Hy; [done|].
  destruct j as [|j]; cbn in Hx, Hy.
  - injection Hx as <-. destruct Hhd as [|b keys' Hab]; [done|].
    by injection Hy as <-.
  - by eapply IH.
Qed.

Lemma non_decreasing_int zs :
  non_decreasing ((λ z, Scalar (IInt z)) <$> zs) →
  ∀ j1 j2 z1 z2, (j1 ≤ j2)%nat → zs !! j1 = Some z1 → zs !! j2 = Some z2 →
    z1 ≤ z2.
Proof.
  intros Hnd j1 j2 z1 z2 Hle. revert z2.
  induction Hle as [|j2 Hle IH]; intros z2 H1 H2; [by simplify_eq|].
  destruct (lookup_lt_is_Some_2 zs j2) as [z Hz].
  { apply lookup_lt_Some in H2. lia. }
  specialize (IH z H1 Hz). 
  assert (key_le (Scalar (IInt z)) (Scalar (IInt z2))) as Hk.
  { apply (Hnd j2); rewrite list_lookup_fmap; [by rewrite Hz|by rewrite H2]. }
  unfold key_le in Hk. cbn in Hk. injection Hk as Hk%Z.ltb_ge. lia.
Qed.

Lemma make_entry_spec r n args e :
  make_entry r n args = Ok e →
  exactly_number e = n ∧ Boolean_vars e ≡ₚ args ∧
  mapM (ref_key r) (Boolean_vars e) = Ok (Boolean_vars_ordered_index e) ∧
  Sorted key_le (Boolean_vars_ordered_index e) ∧
  Boolean_vars_names e = bv_name <$> Boolean_vars e ∧
  Ext_var_lower_bound e = 1 ∧
  Ext_var_upper_bound e = Z.of_nat (length (Boolean_vars e)).
Proof.
  unfold make_entry.
  destruct (sorted args (ref_key r)) as [sorted_args|] eqn:Hs; cbn; [|done].
  apply sorted_spec in Hs as (Hperm & keys & Hkeys & Hsorted).
  rewrite Hkeys. cbn. intros [= <-]. cbn. done.
Qed.

Lemma scan_family_inv roles n args st fr st' :
  scan_family n args st fr = Ok st' → fr ∈ roles →
  Forall (entry_wf roles) (dict_values (reformulation_dict st)) →
  Forall (entry_wf roles) (dict_values (reformulation_dict st')).
Proof.
  intros Hscan Hfr Hst.
  assert (∀ e, make_entry fr.2 n args = Ok e →
            Forall (λ x, bv_component x = fam_name fr.1) args →
            Forall (entry_wf roles)
              (dict_values (dict_set (reformulation_dict st) (count st) e)))
    as Hadd.
  { intros e (_ & Hperm & Hkeys & Hsorted & Hnames & Hlo & Hhi)%make_entry_spec
           Hargs.
    unfold dict_values in *. apply Forall_fmap, Forall_forall.
    intros [i e'] [Hin|[= _ ->]]%elem_of_dict_set.
    - rewrite Forall_fmap, Forall_forall in Hst. by apply (Hst (i, e')).
    - exists fr. split_and!; try done. by rewrite Hperm. }
  unfold scan_family in Hscan.
  case_bool_decide as Hargs; [|by simplify_eq].
  case_decide.
  - destruct (mapM _ _) as [verification|]; cbn in Hscan; [|done].
    case_bool_decide; [|by simplify_eq].
    destruct (make_entry _ _ _) as [e|] eqn:He; cbn in Hscan; [|done].
    injection Hscan as <-. cbn. by apply Hadd.
  - destruct (make_entry _ _ _) as [e|] eqn:He; cbn in Hscan; [|done].
    injection Hscan as <-. cbn. by apply Hadd.
Qed.

Lemma scan_constraint_inv roles st c st' :
  scan_constraint roles st c = Ok st' →
  Forall (entry_wf roles) (dict_values (reformulation_dict st)) →
  Forall (entry_wf roles) (dict_values (reformulation_dict st')).
Proof.
  destruct c as [n args|name]; cbn; [|by intros [= <-]].
  assert (∀ frs, Forall (λ fr, fr ∈ roles) frs →
    ∀ st0, foldM (scan_family n args) st0 frs = Ok st' →
    Forall (entry_wf roles) (dict_values (reformulation_dict st0)) →
    Forall (entry_wf roles) (dict_values (reformulation_dict st'))) as Hgen.
  { induction frs as [|fr frs IH]; intros Hsub st0; cbn; [by intros [= <-]|].
    apply Forall_cons in Hsub as [Hfr Hsub].
    destruct (scan_family n args st0 fr) as [st1|] eqn:H1; cbn; [|done].
    intros Hrest Hst0. apply (IH Hsub st1 Hrest).
    by eapply scan_family_inv. }
  apply Hgen. by apply Forall_forall.
Qed.

Lemma get_external_information_wf constraints Ext_Ref rd n lbs ubs :
  get_external_information constraints Ext_Ref = Ok (rd, n, lbs, ubs) →
  Forall (entry_wf (index_roles Ext_Ref)) (dict_values rd).
Proof.
  unfold get_external_information.
  destruct (foldM _ _ constraints) as [st|] eqn:Hst; cbn; [|done].
  intros [= <- _ _ _].
  assert (∀ st0, foldM (scan_constraint (index_roles Ext_Ref)) st0 constraints
                 = Ok st →
    Forall (entry_wf (index_roles Ext_Ref)) (dict_values (reformulation_dict st0)) →
    Forall (entry_wf (index_roles Ext_Ref)) (dict_values (reformulation_dict st)))
    as Hgen.
  { clear Hst. induction constraints as [|c cs IH]; intros st0; cbn;
      [by intros [= <-]|].
    destruct (scan_constraint _ st0 c) as [st1|] eqn:H1; cbn; [|done].
    intros Hrest Hst0. apply (IH st1 Hrest). by eapply scan_constraint_inv. }
  apply (Hgen _ Hst). constructor.
Qed.

(** The index roles that the scanner computes are the [ref_dims] and the
    [other_dims] of the specification. *)
Lemma roles_of_sets_loop (sets : list string) (ref_set : string) s m r :
  (s + m ≤ length sets)%nat →
  foldl (λ r index_set,
           match sets !! index_set with
           | Some name =>
               if decide (name = ref_set)
               then Build_Roles (ref_index r ++ [index_set]) (no_ref_index r)
               else Build_Roles (ref_index r) (no_ref_index r ++ [index_set])
           | None => r
           end) r (seq s m)
  = Build_Roles
      (ref_index r ++ filter (λ d, sets !! d = Some ref_set) (seq s m))
      (no_ref_index r ++ filter (λ d, sets !! d ≠ Some ref_set) (seq s m)).
Proof.
  revert s r. induction m as [|m IH]; intros s r Hm; cbn [seq foldl].
  - rewrite !filter_nil, !app_nil_r. by destruct r.
  - destruct (lookup_lt_is_Some_2 sets s) as [name Hname]; [lia|].
    rewrite Hname, IH by lia. rewrite !filter_cons, Hname.
    destruct (decide (name = ref_set)) as [->|Hne]; cbn [ref_index no_ref_index].
    + rewrite decide_True by done. rewrite decide_False by (intros H; by apply H).
      by rewrite <-app_assoc.
    + rewrite decide_False by congruence. rewrite decide_True by congruence.
      by rewrite <-app_assoc.
Qed.

Lemma mapM_roles_introspected (Ext_Ref : list (BooleanFamily * string)) roles :
  mapM (λ '(fam, ref_set), r ← roles_of_sets fam ref_set; Some (fam, r)) Ext_Ref
    = Some roles →
  introspected Ext_Ref = true.
Proof.
  intros Hm%mapM_Some. unfold introspected.
  induction Hm as [|[fam rs] fr l k Hfr _ IH]; [done|]. cbn.
  rewrite IH, andb_true_r. apply bool_decide_eq_true.
  unfold roles_of_sets in Hfr. by destruct (set_sets (fam_index_set fam)).
Qed.

Lemma mapM_roles_None (Ext_Ref : list (BooleanFamily * string)) :
  mapM (λ '(fam, ref_set), r ← roles_of_sets fam ref_set; Some (fam, r)) Ext_Ref
    = None →
  introspected Ext_Ref = false.
Proof.
  unfold introspected. induction Ext_Ref as [|[fam rs] l IH]; [done|].
  cbn -[roles_of_sets]. intros H.
  destruct (roles_of_sets fam rs) as [r|] eqn:Hr; cbn in H.
  - destruct (mapM _ l); cbn in H; [done|]. rewrite IH by done.
    apply andb_false_r.
  - unfold roles_of_sets in Hr.
    destruct (set_sets (fam_index_set fam)); [done|].
    rewrite bool_decide_eq_false_2; [done|]. by intros [? ?].
Qed.

Lemma index_roles_spec Ext_Ref fr :
  fr ∈ index_roles Ext_Ref →
  ∃ ref_set, (fr.1, ref_set) ∈ Ext_Ref ∧
    ref_index fr.2 = ref_dims Ext_Ref fr.1 ref_set ∧
    no_ref_index fr.2 = other_dims Ext_Ref fr.1 ref_set.
Proof.
  unfold index_roles.
  destruct (mapM _ Ext_Ref) as [roles|] eqn:Hm.
  - pose proof (mapM_roles_introspected _ _ Hm) as Hi.
    apply mapM_Some in Hm. intros Hfr.
    unfold ref_dims, other_dims, dimensions. rewrite Hi. clear Hi.
    induction Hm as [|[fam rs] fr' l k Hfr' _ IH]; [by apply elem_of_nil in Hfr|].
    apply elem_of_cons in Hfr as [->|Hfr].
    + exists rs. unfold roles_of_sets in Hfr'.
      destruct (set_sets (fam_index_set fam)) as [sets|] eqn:Hsets; [|done].
      cbn in Hfr'. injection Hfr' as <-. cbn [fst snd]. rewrite Hsets.
      rewrite roles_of_sets_loop by (cbn; lia). split; [left|done].
    + destruct (IH Hfr) as (ref_set & Hin & Hr). exists ref_set.
      split; [by right|done].
  - apply mapM_roles_None in Hm.
    intros ([fam rs] & -> & Hin)%list_elem_of_fmap. exists rs. split; [done|].
    cbn [fst snd]. unfold ref_dims, other_dims, dimensions, roles_of_set.
    rewrite Hm.
    assert ((match set_sets (fam_index_set fam) with
             | Some _ => [set_name (fam_index_set fam)]
             | None => [set_name (fam_index_set fam)]
             end) = [set_name (fam_index_set fam)]) as -> by by destruct set_sets.
    cbn [length seq]. rewrite !filter_cons, !filter_nil. cbn [lookup list_lookup].
    destruct (decide (set_name (fam_index_set fam) = rs)) as [->|Hne].
    + rewrite decide_True by done. rewrite decide_False by (intros H; by apply H).
      done.
    + rewrite decide_False by congruence. rewrite decide_True by congruence.
      done.
Qed.

(** The sort key that the scanner computes for a Boolean is its
    reference-set index value. *)
Lemma ref_key_reference Ext_Ref fr ref_set b key :
  ref_index fr.2 = ref_dims Ext_Ref fr.1 ref_set →
  no_ref_index fr.2 = other_dims Ext_Ref fr.1 ref_set →
  ref_key fr.2 b = Ok key →
  reference_index Ext_Ref fr.1 ref_set b key.
Proof.
  intros Hr Hn. unfold ref_key, reference_index. rewrite Hr, Hn.
  destruct (other_dims Ext_Ref fr.1 ref_set) as [|o os]; cbn [length].
  - rewrite decide_False by lia. by intros [= <-].
  - rewrite decide_True by lia. unfold list_getitem.
    destruct (ref_dims Ext_Ref fr.1 ref_set) as [|d ds]; cbn; [done|].
    destruct (index_getitem (bv_index b) d) as [v|] eqn:Hv; cbn; [|done].
    intros [= <-]. exists d, v. split_and!; [done..|].
    intros vs Hvs. rewrite Hvs in Hv. cbn in Hv. unfold list_getitem in Hv.
    by destruct (vs !! d); simplify_eq.
Qed.

(** C9. For every entry that [get_external_information] returns: the
    values in [Boolean_vars_ordered_index] never decrease from one position
    to the next; the Booleans of the entry belong to one family of
    [Ext_Ref], and the value stored at each position is the reference-set
    index value of the Boolean at that position, which is its index when
    the family has a single dimension and the component of its index along
    the reference dimension when it has several; for integer index values
    the order is the order of the integers. *)
Theorem ordered_index_values_non_decreasing constraints Ext_Ref rd n lbs ubs :
  get_external_information constraints Ext_Ref = Ok (rd, n, lbs, ubs) →
  ∀ i e, dict_get rd i = Some e →
    non_decreasing (Boolean_vars_ordered_index e) ∧
    (∃ fam ref_set, (fam, ref_set) ∈ Ext_Ref ∧
       Forall (λ b, bv_component b = fam_name fam) (Boolean_vars e) ∧
       length (Boolean_vars_ordered_index e) = length (Boolean_vars e) ∧
       ∀ j b key, Boolean_vars e !! j = Some b →
         Boolean_vars_ordered_index e !! j = Some key →
         reference_index Ext_Ref fam ref_set b key) ∧
    (∀ zs, Boolean_vars_ordered_index e = (λ z, Scalar (IInt z)) <$> zs →
       ∀ j1 j2 z1 z2, (j1 ≤ j2)%nat →
         zs !! j1 = Some z1 → zs !! j2 = Some z2 → z1 ≤ z2).
Proof.
  intros Hwf%get_external_information_wf i e Hin%dict_get_Some_elem.
  rewrite Forall_forall in Hwf.
  destruct (Hwf e) as (fr & Hfr & Hfam & Hkeys & Hsorted & _).
  { apply list_elem_of_fmap. by exists (i, e). }
  apply Sorted_non_decreasing in Hsorted. split_and!.
  - done.
  - destruct (index_roles_spec _ _ Hfr) as (ref_set & Hin' & Hr & Hn).
    apply mapM_Res_Ok_inv in Hkeys.
    exists fr.1, ref_set. split_and!; [done|done| |].
    + symmetry. by eapply Forall2_length.
    + intros j b key Hb Hkey.
      destruct (Forall2_lookup_l _ _ _ _ _ Hkeys Hb) as (key' & Hkey' & Hrk).
      assert (key' = key) as -> by congruence.
      by eapply ref_key_reference.
  - intros zs Hzs. rewrite Hzs in Hsorted. by apply non_decreasing_int.
Qed.

(** ** The fixing operation *)

#[local] Arguments fix_selected : simpl never.
#[local] Arguments fix_unfixed : simpl never.
#[local] Arguments fix_if_selected : simpl never.
#[local] Arguments fix_if_unfixed : simpl never.
#[local] Arguments fix_slot : simpl never.

Lemma foldM_app {A B : Type} (f : A → B → Res A) a l1 l2 :
  foldM f a (l1 ++ l2) = a' ← foldM f a l1; foldM f a' l2.
Proof.
  revert a. induction l1 as [|b l1 IH]; intros a; cbn; [done|].
  destruct (f a b); cbn; [apply IH|done].
Qed.

Lemma foldM_ext {A B : Type} (f g : A → B → Res A) a l :
  (∀ a b, f a b = g a b) → foldM f a l = foldM g a l.
Proof.
  intros Hfg. revert a. induction l as [|b l IH]; intros a; cbn; [done|].
  rewrite Hfg. destruct (g a b); cbn; [apply IH|done].
Qed.

(** A loop [for j in range(n)] whose body does not use [j]. *)
Lemma foldM_range_replicate {A B : Type} (f : A → B → Res A) a n (e : B) :
  foldM (λ a' (_ : nat), f a' e) a (range n)
  = foldM f a (replicate (Z.to_nat n) e).
Proof.
  unfold range. generalize (Z.to_nat n) as m. intros m. generalize 0%nat as s.
  revert a. induction m as [|m IH]; intros a s; cbn; [done|].
  destruct (f a e); cbn; [apply IH|done].
Qed.

Lemma foldM_slots {A : Type} (f : A → Entry → Res A) a (rd : dict Z Entry) :
  foldM (λ a e, foldM (λ a' (_ : nat), f a' e) a (range (exactly_number e)))
        a (dict_values rd)
  = foldM f a (slots rd).
Proof.
  unfold slots. generalize (dict_values rd) as es. intros es. revert a.
  induction es as [|e es IH]; intros a; cbn; [done|].
  rewrite foldM_app, foldM_range_replicate.
  destruct (foldM f a _); cbn; [apply IH|done].
Qed.

Lemma fix_if_selected_eq x pos e σ v k :
  x !! pos = Some v → (1 ≤ k ≤ length (Boolean_vars e))%nat →
  fix_if_selected x pos e σ k
  = Ok (if decide (v = Z.of_nat k)
        then match Boolean_vars e !! Z.to_nat (v - 1) with
             | Some b => fix_var b true σ
             | None => σ
             end
        else σ).
Proof.
  intros Hx Hk. unfold fix_if_selected, list_getitem. rewrite Hx. cbn.
  case_decide as Hv; [|done]. subst v.
  replace (Z.to_nat (Z.of_nat k - 1)) with (k - 1)%nat by lia.
  destruct (lookup_lt_is_Some_2 (Boolean_vars e) (k - 1)) as [b ->]; [lia|done].
Qed.

Lemma fix_selected_loop x pos e σ v s m :
  x !! pos = Some v → (1 ≤ s)%nat → (s + m ≤ S (length (Boolean_vars e)))%nat →
  foldM (fix_if_selected x pos e) σ (seq s m)
  = Ok (if decide (Z.of_nat s ≤ v < Z.of_nat (s + m))
        then match Boolean_vars e !! Z.to_nat (v - 1) with
             | Some b => fix_var b true σ
             | None => σ
             end
        else σ).
Proof.
  intros Hx. revert s σ. induction m as [|m IH]; intros s σ Hs Hm; cbn.
  - rewrite decide_False by lia. done.
  - rewrite (fix_if_selected_eq x pos e σ v s) by (done || lia). cbn.
    rewrite IH by lia.
    destruct (decide (v = Z.of_nat s)) as [->|Hne].
    + rewrite decide_False by lia. rewrite decide_True by lia. done.
    + destruct (decide (Z.of_nat (S s) ≤ v < Z.of_nat (S s + m))).
      * rewrite decide_True by lia. done.
      * rewrite decide_False by lia. done.
Qed.

Lemma fix_selected_spec x pos e σ v :
  x !! pos = Some v → 1 ≤ v ≤ Z.of_nat (length (Boolean_vars e)) →
  ∃ b, selects e v b ∧ fix_selected x pos e σ = Ok (fix_var b true σ).
Proof.
  intros Hx Hv. unfold fix_selected.
  rewrite (fix_selected_loop x pos e σ v) by (done || lia).
  rewrite decide_True by lia.
  destruct (lookup_lt_is_Some_2 (Boolean_vars e) (Z.to_nat (v - 1))) as [b Hb];
    [lia|].
  rewrite Hb. exists b. split; [|done]. split; [lia|done].
Qed.

Lemma fix_slot_eq x pos σ e :
  fix_slot x (pos, σ) e = σ' ← fix_selected x pos e σ; Ok (S pos, σ').
Proof. reflexivity. Qed.

Lemma fix_true_loop x es pos σ :
  valid_from x pos es →
  ∃ σ1,
    foldM (fix_slot x) (pos, σ) es = Ok ((pos + length es)%nat, σ1) ∧
    (∀ b, selected_from x pos es b → σ1 b = fixed_to true) ∧
    (∀ b, ¬ selected_from x pos es b → σ1 b = σ b) ∧
    (∀ b, σ1 b = fixed_to true ∨ σ1 b = σ b).
Proof.
  revert pos σ. induction es as [|e es IH]; intros pos σ Hvalid; cbn.
  - exists σ. rewrite Nat.add_0_r. split_and!; [done| |done|by right].
    intros b (p & e & v & ? & _). done.
  - destruct (Hvalid 0%nat e eq_refl) as (v & Hv & Hrange).
    rewrite Nat.add_0_r in Hv.
    rewrite fix_slot_eq.
    destruct (fix_selected_spec x pos e σ v Hv Hrange) as (b0 & Hsel & ->). cbn.
    destruct (IH (S pos) (fix_var b0 true σ)) as (σ1 & -> & Hyes & Hno & Hor).
    { intros p e' He'. destruct (Hvalid (S p) e' He') as (v' & Hv' & ?).
      exists v'. split; [|done].
      by replace (S pos + p)%nat with (pos + S p)%nat by lia. }
    assert (Hb0 : σ1 b0 = fixed_to true).
    { destruct (Hor b0) as [?| ->]; [done|]. unfold fix_var. by rewrite decide_True. }
    exists σ1. split_and!.
    + f_equal. f_equal. lia.
    + intros b (p & e' & v' & He' & Hv' & Hs').
      destruct p as [|p].
      * cbn in He'. rewrite Nat.add_0_r in Hv'. simplify_eq.
        destruct Hsel as [_ Hb0'], Hs' as [_ Hb]. by simplify_eq.
      * apply Hyes. exists p, e', v'. split_and!; [done| |done].
        by replace (S pos + p)%nat with (pos + S p)%nat by lia.
    + intros b Hn. rewrite Hno.
      * unfold fix_var. rewrite decide_False; [done|]. intros ->.
        apply Hn. exists 0%nat, e, v. by rewrite Nat.add_0_r.
      * intros (p & e' & v' & He' & Hv' & Hs'). apply Hn.
        exists (S p), e', v'. split_and!; [done| |done].
        by replace (pos + S p)%nat with (S pos + p)%nat by lia.
    + intros b. destruct (Hor b) as [?| ->]; [by left|].
      unfold fix_var. case_decide; [by left|by right].
Qed.

Lemma fix_if_unfixed_eq e σ k b :
  Boolean_vars e !! (k - 1)%nat = Some b →
  fix_if_unfixed e σ k = Ok (if is_fixed σ b then σ else fix_var b false σ).
Proof.
  intros Hb. unfold fix_if_unfixed, list_getitem. rewrite Hb. cbn.
  by destruct (is_fixed σ b).
Qed.

(** The second pass over one entry, on the list of its Booleans. *)
Lemma fix_unfixed_loop e σ (done_ todo : list BooleanVar) :
  Boolean_vars e = done_ ++ todo →
  foldM (fix_if_unfixed e) σ (seq (S (length done_)) (length todo))
  = Ok (foldl (λ σ b, if is_fixed σ b then σ else fix_var b false σ) σ todo).
Proof.
  revert done_ σ. induction todo as [|b todo IH]; intros done_ σ He; cbn; [done|].
  rewrite (fix_if_unfixed_eq e σ _ b); last first.
  { replace (S (length done_) - 1)%nat with (length done_) by lia.
    rewrite He. by apply list_lookup_middle. }
  cbn.
  specialize (IH (done_ ++ [b]) (if is_fixed σ b then σ else fix_var b false σ)).
  rewrite length_app, Nat.add_1_r in IH.
  apply IH. by rewrite <-app_assoc.
Qed.

Lemma fix_unfixed_fold (l : list BooleanVar) σ b :
  foldl (λ σ b, if is_fixed σ b then σ else fix_var b false σ) σ l b
  = if decide (b ∈ l ∧ is_fixed σ b = false) then fixed_to false else σ b.
Proof.
  revert σ. induction l as [|b0 l IH]; intros σ; cbn.
  - rewrite decide_False; [done|]. intros [?%elem_of_nil _]. done.
  - rewrite IH. unfold is_fixed, fix_var, fixed_to.
    destruct (fixed (σ b0)) eqn:Hb0.
    + destruct (decide (b ∈ l ∧ fixed (σ b) = false)) as [[? ?]|Hn].
      * rewrite decide_True; [done|]. split; [by right|done].
      * rewrite decide_False; [done|].
        intros [[->|?]%elem_of_cons ?]; [congruence|tauto].
    + destruct (decide (b = b0)) as [->|Hne]; cbn.
      * rewrite decide_False by (intros [_ ?]; done).
        rewrite decide_True; [done|]. split; [left|done].
      * destruct (decide (b ∈ l ∧ fixed (σ b) = false)) as [[? ?]|Hn].
        -- rewrite decide_True; [done|]. split; [by right|done].
        -- rewrite decide_False; [done|].
           intros [[->|?]%elem_of_cons ?]; [done|tauto].
Qed.

Lemma fix_unfixed_spec e σ :
  ∃ σ', fix_unfixed e σ = Ok σ' ∧
    ∀ b, σ' b = if decide (b ∈ Boolean_vars e ∧ is_fixed σ b = false)
                then fixed_to false else σ b.
Proof.
  eexists. split.
  - unfold fix_unfixed. by apply (fix_unfixed_loop e σ []).
  - intros b. apply fix_unfixed_fold.
Qed.

Lemma fix_false_loop es σ :
  ∃ σ2, foldM (λ σ e, fix_unfixed e σ) σ es = Ok σ2 ∧
    ∀ b, σ2 b = if decide (b ∈ booleans_of es ∧ is_fixed σ b = false)
                then fixed_to false else σ b.
Proof.
  revert σ. induction es as [|e es IH]; intros σ; cbn.
  - exists σ. split; [done|]. intros b. rewrite decide_False; [done|].
    intros [?%elem_of_nil _]. done.
  - destruct (fix_unfixed_spec e σ) as (σ' & -> & Hσ'). cbn.
    destruct (IH σ') as (σ2 & -> & Hσ2). exists σ2. split; [done|].
    intros b. rewrite Hσ2. unfold is_fixed. rewrite Hσ'.
    unfold booleans_of. cbn. fold (booleans_of es).
    destruct (decide (b ∈ Boolean_vars e ∧ is_fixed σ b = false)) as [[He Hf]|Hne].
    + cbn. rewrite decide_False by (intros [_ ?]; done).
      rewrite decide_True; [done|]. split; [|done].
      apply elem_of_app. by left.
    + destruct (decide (b ∈ booleans_of es ∧ fixed (σ b) = false)) as [[? ?]|Hn].
      * rewrite decide_True; [done|]. split; [|done]. apply elem_of_app. by right.
      * rewrite decide_False; [done|].
        intros [[?|?]%elem_of_app ?]; unfold is_fixed in *; tauto.
Qed.

Lemma fix_dependent_frame (l : list ((store → bool) * BooleanVar)) σ b :
  (∀ i, i ∈ l → i.2 ≠ b) →
  foldl (λ σ i, fix_var i.2 (i.1 σ) σ) σ l b = σ b.
Proof.
  revert σ. induction l as [|i l IH]; intros σ Hl; cbn; [done|].
  rewrite IH by (intros; apply Hl; by right).
  unfold fix_var. rewrite decide_False; [done|]. intros ->.
  eapply (Hl i); [left|done].
Qed.

Lemma fix_true_slots x rd σ :
  fix_true x rd σ = foldM (fix_slot x) (0%nat, σ) (slots rd).
Proof. exact (foldM_slots (fix_slot x) (0%nat, σ) rd). Qed.

Lemma fix_false_slots rd σ :
  fix_false rd σ = foldM (λ σ e, fix_unfixed e σ) σ (slots rd).
Proof. exact (foldM_slots (λ σ e, fix_unfixed e σ) σ rd). Qed.

Lemma slots_entry rd p e : slots rd !! p = Some e → e ∈ dict_values rd.
Proof.
  intros Hp%list_elem_of_lookup_2. unfold slots in Hp.
  apply list_elem_of_bind in Hp as (e' & Hin & He').
  apply elem_of_replicate in Hin as [-> _]. done.
Qed.

Lemma booleans_of_lookup es p e k b :
  es !! p = Some e → Boolean_vars e !! k = Some b → b ∈ booleans_of es.
Proof.
  intros He Hb. unfold booleans_of. apply list_elem_of_bind.
  exists e. split; by eapply list_elem_of_lookup_2.
Qed.

(** The printing loops read a name and a Boolean for each position of each
    entry; they raise nothing when every entry has as many names as
    Booleans. *)
Lemma print_fixed_Ok rd :
  Forall (λ e, length (Boolean_vars_names e) = length (Boolean_vars e))
         (dict_values rd) →
  print_fixed rd = Ok ().
Proof.
  unfold print_fixed. generalize (dict_values rd) as es. intros es.
  induction 1 as [|e es He _ IH]; cbn [foldM]; [done|].
  assert (∀ s m, (1 ≤ s)%nat → (s + m ≤ S (length (Boolean_vars e)))%nat →
    foldM (λ (_ : unit) k,
             _ ← list_getitem (Boolean_vars_names e) (k - 1);
             _ ← list_getitem (Boolean_vars e) (k - 1);
             Ok ()) () (seq s m) = Ok ()) as Hloop.
  { intros s m. revert s. induction m as [|m IHm]; intros s Hs Hm; [done|].
    cbn [seq foldM].
    destruct (lookup_lt_is_Some_2 (Boolean_vars_names e) (s - 1)) as [nm Hnm];
      [lia|].
    destruct (lookup_lt_is_Some_2 (Boolean_vars e) (s - 1)) as [b Hb]; [lia|].
    rewrite (list_getitem_Ok _ _ _ Hnm), (list_getitem_Ok _ _ _ Hb).
    cbn. apply IHm; lia. }
  rewrite Hloop by lia. cbn. apply IH.
Qed.

Lemma print_fixed_wf roles rd :
  Forall (entry_wf roles) (dict_values rd) → print_fixed rd = Ok ().
Proof.
  intros Hwf. apply print_fixed_Ok. eapply Forall_impl; [exact Hwf|].
  intros e (fr & _ & _ & _ & _ & -> & _). by rewrite length_fmap.
Qed.

(** When the printing loops raise nothing, the call returns what the
    transformations return on the model that the passes hand them; the
    model is the one the call returns with transformations that leave it
    as it is. *)
Lemma external_ref_returns σ x rd le σ3 :
  external_ref Ok σ x rd le = Ok σ3 →
  print_fixed rd = Ok () →
  ∀ transformations,
    external_ref transformations σ x rd le = transformations σ3.
Proof.
  unfold external_ref. intros Hok Hprint tr. rewrite Hprint in *.
  destruct (fix_true x rd σ) as [[p σ1]|]; cbn in *; [|done].
  destruct (fix_false rd σ1) as [σ2|]; cbn in *; [|done].
  destruct (fix_dependent le σ2) as [σ3'|]; cbn in *; [|done].
  injection Hok as <-. by destruct (tr σ3').
Qed.

(** What the three passes of [external_ref] do to the Booleans of the
    entries, on a model where none of them is fixed and with dependent
    variables outside of them. *)
Lemma external_ref_spec x rd σ le :
  valid_from x 0 (slots rd) →
  (∀ b, b ∈ booleans_of (slots rd) → is_fixed σ b = false) →
  (∀ i, i ∈ le → i.2 ∉ booleans_of (slots rd)) →
  ∃ σ3, reaches_transformations σ x rd (Some le) σ3 ∧
    ∀ b, b ∈ booleans_of (slots rd) →
      (selected_from x 0 (slots rd) b → σ3 b = fixed_to true) ∧
      (¬ selected_from x 0 (slots rd) b → σ3 b = fixed_to false).
Proof.
  intros Hvalid Hfresh Hle. unfold reaches_transformations, external_ref.
  rewrite fix_true_slots.
  destruct (fix_true_loop x (slots rd) 0 σ Hvalid) as (σ1 & -> & Hyes & Hno & _).
  cbn. rewrite fix_false_slots.
  destruct (fix_false_loop (slots rd) σ1) as (σ2 & -> & Hσ2). cbn.
  eexists. split; [done|]. intros b Hb.
  rewrite fix_dependent_frame; last first.
  { intros i Hi Heq. apply (Hle i Hi). by rewrite Heq. }
  rewrite Hσ2. unfold is_fixed. split.
  - intros Hsel. rewrite (Hyes b Hsel). cbn.
    rewrite decide_False; [done|]. by intros [_ ?].
  - intros Hn. rewrite (Hno b Hn). rewrite decide_True; [done|].
    split; [done|]. by apply Hfresh.
Qed.

(** C1 (amended).  For a map returned by the scanner, a model in which no
    Boolean of an entry with a repetition slot is fixed, dependent variables
    that are not Booleans of these entries, and a vector [x] whose value at
    each position [p] lies in [1..len(Boolean_vars)] of the entry of the
    slot: the three passes of [external_ref] complete and hand a model to
    the transformations, and what the transformations return on it, a
    model or an exception, is what the call returns.  In the model handed
    over: for each slot, the Boolean at sorted position [x[p] - 1], whose
    reference-set index value is [Boolean_vars_ordered_index[x[p] - 1]], is
    fixed [True]; and every Boolean of these entries that no slot of any
    entry selects is fixed [False]. *)
Theorem external_ref_fixes_selection constraints Ext_Ref rd n lbs ubs x σ le :
  get_external_information constraints Ext_Ref = Ok (rd, n, lbs, ubs) →
  valid_from x 0 (slots rd) →
  (∀ b, b ∈ booleans_of (slots rd) → is_fixed σ b = false) →
  (∀ i, i ∈ le → i.2 ∉ booleans_of (slots rd)) →
  ∃ σ3,
    (∀ transformations,
       external_ref transformations σ x rd (Some le) = transformations σ3) ∧
    (∀ p e v, slots rd !! p = Some e → x !! p = Some v →
       ∃ b key fam ref_set,
         Boolean_vars e !! Z.to_nat (v - 1) = Some b ∧
         Boolean_vars_ordered_index e !! Z.to_nat (v - 1) = Some key ∧
         (fam, ref_set) ∈ Ext_Ref ∧
         bv_component b = fam_name fam ∧
         reference_index Ext_Ref fam ref_set b key ∧
         σ3 b = fixed_to true) ∧
    (∀ b, b ∈ booleans_of (slots rd) →
       ¬ selected_from x 0 (slots rd) b → σ3 b = fixed_to false).
Proof.
  intros Hwf%get_external_information_wf Hvalid Hfresh Hle.
  destruct (external_ref_spec x rd σ le Hvalid Hfresh Hle) as (σ3 & Hσ3 & Hb).
  exists σ3. split_and!.
  - intros tr. rewrite Hσ3, (print_fixed_wf _ _ Hwf).
    by destruct (tr σ3).
  - intros p e v He Hv.
    destruct (Hvalid p e He) as (v' & Hv' & Hrange). cbn in Hv'.
    assert (v' = v) as -> by congruence.
    destruct (lookup_lt_is_Some_2 (Boolean_vars e) (Z.to_nat (v - 1))) as [b Hbv];
      [lia|].
    rewrite Forall_forall in Hwf.
    destruct (Hwf e (slots_entry _ _ _ He)) as (fr & Hfr & Hfam & Hkeys & _).
    apply mapM_Res_Ok_inv in Hkeys.
    destruct (Forall2_lookup_l _ _ _ _ _ Hkeys Hbv) as (key & Hkey & Hrk).
    destruct (index_roles_spec _ _ Hfr) as (ref_set & Hin & Hr & Hn).
    exists b, key, fr.1, ref_set. split_and!; try done.
    + rewrite Forall_forall in Hfam. apply Hfam.
      by eapply list_elem_of_lookup_2.
    + by eapply ref_key_reference.
    + apply Hb; [by eapply booleans_of_lookup|].
      exists p, e, v. split_and!; [done|done|]. split; [lia|done].
  - intros b Hin Hn. by apply Hb.
Qed.

(** ** Examples *)

Example shared_scan :
  get_external_information shared_constraints [(YF_family, "N")]
  = Ok (shared_map, 2, [1; 1], [2; 2]).
Proof. vm_compute. reflexivity. Qed.

Lemma shared_map_valid : valid_from [2; 2] 0 (slots shared_map).
Proof.
  intros [|[|p]] e; cbn; intros [= <-]; eexists; (split; [reflexivity|cbn; lia]).
Defined.

Lemma shared_map_fresh b :
  b ∈ booleans_of (slots shared_map) → is_fixed fresh_store b = false.
Proof. reflexivity. Defined.

(** C1 (as stated, refuted).  On a model without fixed Booleans, with the
    map of two constraints that share [YF[2]] and the vector [[2, 2]], each
    value within the range of its entry: the second entry holds [YF[2]] and
    [YF[3]]; its external variable selects [YF[3]], at sorted position
    [x[1] - 1 = 1]; in the model that the passes hand to the
    transformations, and that the call returns when they leave it as it
    is, [YF[2]], the other Boolean of this entry, is fixed [True] and not
    [False], because the first entry selects it. *)
Lemma external_ref_shared_boolean :
  get_external_information shared_constraints [(YF_family, "N")]
    = Ok (shared_map, 2, [1; 1], [2; 2]) ∧
  valid_from [2; 2] 0 (slots shared_map) ∧
  ∃ σ3 e,
    (∀ transformations,
       external_ref transformations fresh_store [2; 2] shared_map (Some [])
       = transformations σ3) ∧
    external_ref Ok fresh_store [2; 2] shared_map (Some []) = Ok σ3 ∧
    slots shared_map !! 1%nat = Some e ∧
    Boolean_vars e = [YF 2; YF 3] ∧
    Boolean_vars e !! Z.to_nat (2 - 1) = Some (YF 3) ∧
    σ3 (YF 3) = fixed_to true ∧
    σ3 (YF 2) = fixed_to true ∧
    σ3 (YF 2) ≠ fixed_to false.
Proof.
  split_and!; [apply shared_scan|apply shared_map_valid|].
  eexists _, _. split_and!.
  - apply external_ref_returns; reflexivity.
  - reflexivity.
  - reflexivity.
  - reflexivity.
  - reflexivity.
  - by vm_compute.
  - by vm_compute.
  - vm_compute. discriminate.
Qed.

Lemma external_ref_fixes_selection_witness :
  get_external_information shared_constraints [(YF_family, "N")]
    = Ok (shared_map, 2, [1; 1], [2; 2]) ∧
  valid_from [2; 2] 0 (slots shared_map) ∧
  (∀ b, b ∈ booleans_of (slots shared_map) → is_fixed fresh_store b = false) ∧
  (∀ i : (store → bool) * BooleanVar,
     i ∈ [] → i.2 ∉ booleans_of (slots shared_map)) ∧
  ∃ σ3,
    (∀ transformations,
       external_ref transformations fresh_store [2; 2] shared_map (Some [])
       = transformations σ3) ∧
    (∀ p e v, slots shared_map !! p = Some e → [2; 2] !! p = Some v →
       ∃ b key fam ref_set,
         Boolean_vars e !! Z.to_nat (v - 1) = Some b ∧
         Boolean_vars_ordered_index e !! Z.to_nat (v - 1) = Some key ∧
         (fam, ref_set) ∈ [(YF_family, "N"%string)] ∧
         bv_component b = fam_name fam ∧
         reference_index [(YF_family, "N"%string)] fam ref_set b key ∧
         σ3 b = fixed_to true) ∧
    (∀ b, b ∈ booleans_of (slots shared_map) →
       ¬ selected_from [2; 2] 0 (slots shared_map) b → σ3 b = fixed_to false).
Proof.
  split_and!;
    [apply shared_scan|apply shared_map_valid|apply shared_map_fresh
    |intros i []%elem_of_nil|].
  apply (external_ref_fixes_selection shared_constraints [(YF_family, "N"%string)]
           shared_map 2 [1; 1] [2; 2] [2; 2] fresh_store []);
    [apply shared_scan|apply shared_map_valid|apply shared_map_fresh
    |intros i []%elem_of_nil].
Defined.

(** The constraints of the small batch problem over [Y[k, j]], the first
    with its arguments out of order. *)
Example small_batch_scan :
  get_external_information small_batch_constraints [(Y_family, "k")]
  = Ok (small_batch_map, 2, [1; 1], [3; 3]).
Proof. vm_compute. reflexivity. Qed.

Lemma ordered_index_values_non_decreasing_witness :
  (get_external_information shared_constraints [(YF_family, "N")]
     = Ok (shared_map, 2, [1; 1], [2; 2]) ∧
   ∀ i e, dict_get shared_map i = Some e →
     non_decreasing (Boolean_vars_ordered_index e) ∧
     (∃ fam ref_set, (fam, ref_set) ∈ [(YF_family, "N"%string)] ∧
        Forall (λ b, bv_component b = fam_name fam) (Boolean_vars e) ∧
        length (Boolean_vars_ordered_index e) = length (Boolean_vars e) ∧
        ∀ j b key, Boolean_vars e !! j = Some b →
          Boolean_vars_ordered_index e !! j = Some key →
          reference_index [(YF_family, "N"%string)] fam ref_set b key) ∧
     (∀ zs, Boolean_vars_ordered_index e = (λ z, Scalar (IInt z)) <$> zs →
        ∀ j1 j2 z1 z2, (j1 ≤ j2)%nat →
          zs !! j1 = Some z1 → zs !! j2 = Some z2 → z1 ≤ z2)) ∧
  (get_external_information small_batch_constraints [(Y_family, "k")]
     = Ok (small_batch_map, 2, [1; 1], [3; 3]) ∧
   ∀ i e, dict_get small_batch_map i = Some e →
     non_decreasing (Boolean_vars_ordered_index e) ∧
     (∃ fam ref_set, (fam, ref_set) ∈ [(Y_family, "k"%string)] ∧
        Forall (λ b, bv_component b = fam_name fam) (Boolean_vars e) ∧
        length (Boolean_vars_ordered_index e) = length (Boolean_vars e) ∧
        ∀ j b key, Boolean_vars e !! j = Some b →
          Boolean_vars_ordered_index e !! j = Some key →
          reference_index [(Y_family, "k"%string)] fam ref_set b key) ∧
     (∀ zs, Boolean_vars_ordered_index e = (λ z, Scalar (IInt z)) <$> zs →
        ∀ j1 j2 z1 z2, (j1 ≤ j2)%nat →
          zs !! j1 = Some z1 → zs !! j2 = Some z2 → z1 ≤ z2)).
Proof.
  split; (split; [vm_compute; reflexivity|]).
  - apply (ordered_index_values_non_decreasing shared_constraints
             [(YF_family, "N"%string)] shared_map 2 [1; 1] [2; 2]).
    vm_compute. reflexivity.
  - apply (ordered_index_values_non_decreasing small_batch_constraints
             [(Y_family, "k"%string)] small_batch_map 2 [1; 1] [3; 3]).
    vm_compute. reflexivity.
Defined.

End ReformulationFacts.

(** ** The fixing operation of the small batch problem *)

Module SmallBatchFacts.
Import Reformulation SmallBatch.

#[local] Arguments fix_stage : simpl never.

Lemma fix_stage_spec ext_var k σ j v :
  dict_get ext_var j = Some v →
  ∃ σ', fix_stage ext_var k σ j = Ok σ' ∧
    ∀ b, σ' b = if decide (var_k b = k ∧ var_j b = j) then fixed_for b v else σ b.
Proof.
  intros Hv. unfold fix_stage, dict_getitem. rewrite Hv. cbn.
  eexists. split; [done|]. intros b.
  destruct (decide (var_k b = k ∧ var_j b = j)) as [[<- <-]|Hn].
  - destruct (decide (var_k b = v)) as [Hkv|Hkv]; destruct b; cbn in *;
      unfold fix_var;
      ((rewrite bool_decide_true by done) || (rewrite bool_decide_false by done));
      repeat case_decide; done.
  - assert (b ≠ Y k j ∧ b ≠ Y_exists k j ∧ b ≠ Y_not_exists k j) as (H1 & H2 & H3).
    { split_and!; intros ->; apply Hn; done. }
    destruct (decide (k = v)); unfold fix_var;
      rewrite !decide_False by done; done.
Qed.

(** The loop over the stages, for one number of units [k]. *)
Lemma fix_stages_spec ext_var k js σ :
  (∀ j, j ∈ js → is_Some (dict_get ext_var j)) →
  ∃ σ', foldM (fix_stage ext_var k) σ js = Ok σ' ∧
    ∀ b, σ' b = if decide (var_k b = k ∧ var_j b ∈ js)
                then match dict_get ext_var (var_j b) with
                     | Some v => fixed_for b v
                     | None => σ b
                     end
                else σ b.
Proof.
  revert σ. induction js as [|j js IH]; intros σ Hjs; cbn.
  - exists σ. split; [done|]. intros b. rewrite decide_False; [done|].
    intros [_ ?%elem_of_nil]. done.
  - destruct (Hjs j) as [v Hv]; [left|].
    destruct (fix_stage_spec ext_var k σ j v Hv) as (σ1 & -> & H1). cbn.
    destruct (IH σ1) as (σ2 & -> & H2); [intros; apply Hjs; by right|].
    exists σ2. split; [done|]. intros b. rewrite H2.
    destruct (decide (var_k b = k ∧ var_j b ∈ js)) as [[Hk Hin]|Hn].
    + destruct (Hjs (var_j b)) as [w Hw]; [by right|]. rewrite Hw.
      rewrite decide_True by (split; [done|by right]). done.
    + rewrite H1.
      destruct (decide (var_k b = k ∧ var_j b = j)) as [[Hk Hj]|Hn'].
      * rewrite decide_True by (split; [done|rewrite Hj; left]).
        by rewrite Hj, Hv.
      * rewrite decide_False; [done|].
        intros [Hk [Heq|Hin]%elem_of_cons]; tauto.
Qed.

(** The two nested loops. *)
Lemma fix_all_spec ext_var ks js σ :
  (∀ j, j ∈ js → is_Some (dict_get ext_var j)) →
  ∃ σ', foldM (λ σ k, foldM (fix_stage ext_var k) σ js) σ ks = Ok σ' ∧
    ∀ b, σ' b = if decide (var_k b ∈ ks ∧ var_j b ∈ js)
                then match dict_get ext_var (var_j b) with
                     | Some v => fixed_for b v
                     | None => σ b
                     end
                else σ b.
Proof.
  intros Hjs. revert σ. induction ks as [|k ks IH]; intros σ; cbn.
  - exists σ. split; [done|]. intros b. rewrite decide_False; [done|].
    intros [?%elem_of_nil _]. done.
  - destruct (fix_stages_spec ext_var k js σ Hjs) as (σ1 & -> & H1). cbn.
    destruct (IH σ1) as (σ2 & -> & H2).
    exists σ2. split; [done|]. intros b. rewrite H2.
    destruct (decide (var_k b ∈ ks ∧ var_j b ∈ js)) as [[Hk Hin]|Hn].
    + destruct (Hjs (var_j b)) as [w Hw]; [done|]. rewrite Hw.
      rewrite decide_True by (split; [by right|done]). done.
    + rewrite H1.
      destruct (decide (var_k b = k ∧ var_j b ∈ js)) as [[Hk Hin]|Hn'].
      * rewrite decide_True by (split; [rewrite Hk; left|done]). done.
      * rewrite decide_False; [done|].
        intros [[Heq|Hin]%elem_of_cons Hj]; tauto.
Qed.

Lemma read_ext_var_three x0 x1 x2 rest :
  read_ext_var (x0 :: x1 :: x2 :: rest)
  = Ok [("mixer"%string, x0); ("reactor"%string, x1); ("centrifuge"%string, x2)].
Proof. reflexivity. Qed.

(** The hand-written fixing of the small batch problem, on any model: with
    one value of [x] per stage, [Y[k, j]] is fixed [True] for the [k] that
    the value of stage [j] names and [False] for every other [k]. *)
Lemma small_batch_external_ref σ x0 x1 x2 rest :
  ∃ σ', external_ref σ (x0 :: x1 :: x2 :: rest) = Ok σ' ∧
    ∀ p j xp k, set_j !! p = Some j → [x0; x1; x2] !! p = Some xp → k ∈ set_k →
      σ' (Y k j) = {| value := Some (bool_decide (k = xp)); fixed := true |}.
Proof.
  unfold external_ref. rewrite read_ext_var_three. cbn [mbind Res_bind].
  destruct (fix_all_spec
              [("mixer"%string, x0); ("reactor"%string, x1); ("centrifuge"%string, x2)]
              set_k set_j σ) as (σ' & Hσ' & Hb).
  { intros j Hj. unfold set_j in Hj.
    repeat (apply elem_of_cons in Hj as [->|Hj]); try (by eexists).
    by apply elem_of_nil in Hj. }
  exists σ'. split; [done|]. intros p j xp k Hj Hx Hk.
  rewrite Hb. cbn [var_k var_j].
  rewrite decide_True by (split; [done|by eapply list_elem_of_lookup_2]).
  destruct p as [|[|[|p]]]; cbn in Hj, Hx; by simplify_eq.
Qed.

End SmallBatchFacts.

(** ** The complete enumeration *)

Module EnumerationFacts.
Import Reactor ReactorFacts Enumeration.

Lemma range_Z_from_1 NT :
  range_Z 1 (NT + 1) = Z.of_nat <$> seq 1 (Z.to_nat NT).
Proof.
  unfold range_Z. replace (NT + 1 - 1) with NT by lia.
  rewrite <- (fmap_S_seq 0), <- list_fmap_compose.
  apply list_fmap_ext. intros _ i _. cbn. lia.
Qed.

Lemma range_Z_length a b : length (range_Z a b) = Z.to_nat (b - a).
Proof. unfold range_Z. by rewrite length_fmap, length_seq. Qed.

Lemma foldl_enum_first l s :
  foldl enum_first s l
  = EnumState (X1 s ++ l) (X2 s ++ replicate (length l) (aux2 s))
              (aux s ++ l) (aux2 s).
Proof.
  revert s. induction l as [|i l IH]; intros [x1 x2 a c]; cbn.
  - by rewrite !app_nil_r.
  - rewrite IH. cbn. by rewrite <- !app_assoc.
Qed.

Lemma foldl_enum_append l s :
  foldl enum_append s l
  = EnumState (X1 s ++ l) (X2 s ++ replicate (length l) (aux2 s))
              (aux s) (aux2 s).
Proof.
  revert s. induction l as [|i l IH]; intros [x1 x2 a c]; cbn.
  - by rewrite !app_nil_r.
  - rewrite IH. cbn. by rewrite <- !app_assoc.
Qed.

Lemma rows_S a m t :
  rows a (S m) (S t)
  = ((λ i, (Z.of_nat i, Z.of_nat (S a))) <$> seq (S a) m) ++ rows (S a) m t.
Proof.
  unfold rows. rewrite <- cons_seq. cbn [mbind list_bind].
  replace (a + 1)%nat with (S a) by lia.
  replace (S m - 1)%nat with m by lia. f_equal.
  rewrite <- fmap_S_seq, list_fmap_bind.
  apply list_bind_ext; [|done]. intros u. cbn.
  replace (a + S u)%nat with (S (a + u)) by lia. done.
Qed.

Lemma fmap_const_replicate {A B : Type} (l : list A) (c : B) :
  (λ _, c) <$> l = replicate (length l) c.
Proof. induction l; cbn; by f_equal. Qed.

Lemma enum_next_eq s i a0 tl :
  aux s = a0 :: tl →
  enum_next s i
  = Ok (EnumState (X1 s ++ tl) (X2 s ++ replicate (length tl) (aux2 s + 1))
                  tl (aux2 s + 1)).
Proof.
  intros Haux. unfold enum_next. rewrite Haux. cbn.
  by rewrite foldl_enum_append.
Qed.

Lemma foldM_enum_next (l : list Z) : ∀ s a m,
  aux s = Z.of_nat <$> seq a m → aux2 s = Z.of_nat a → (length l ≤ m)%nat →
  ∃ s', foldM enum_next s l = Ok s' ∧
        X1 s' = X1 s ++ (rows a m (length l)).*1 ∧
        X2 s' = X2 s ++ (rows a m (length l)).*2.
Proof.
  induction l as [|i l IH]; intros s a m Haux Hc Hlen.
  - exists s. cbn. by rewrite !app_nil_r.
  - destruct m as [|m]; [cbn in Hlen; lia|].
    cbn [foldM]. rewrite (enum_next_eq s i (Z.of_nat a) (Z.of_nat <$> seq (S a) m))
      by (by rewrite Haux).
    cbn [mbind Res_bind].
    edestruct (IH (EnumState (X1 s ++ (Z.of_nat <$> seq (S a) m))
                      (X2 s ++ replicate (length (Z.of_nat <$> seq (S a) m))
                                         (aux2 s + 1))
                      (Z.of_nat <$> seq (S a) m) (aux2 s + 1)) (S a) m)
      as (s' & Hrun & H1 & H2); [done|cbn; lia|cbn in Hlen; lia|].
    exists s'. split; [exact Hrun|].
    cbn [X1 X2] in H1, H2. rewrite H1, H2. cbn [length]. rewrite rows_S.
    rewrite !fmap_app, <- !list_fmap_compose, !app_assoc.
    rewrite length_fmap, <- (fmap_const_replicate (seq (S a) m)), Hc.
    replace (Z.of_nat a + 1) with (Z.of_nat (S a)) by lia.
    split; f_equal; f_equal; by apply list_fmap_ext.
Qed.

Lemma ordered_pairs_rows n :
  ordered_pairs (S n)
  = ((λ i, (Z.of_nat i, 1)) <$> seq 1 (S n)) ++ rows 1 (S n) n.
Proof.
  unfold ordered_pairs, rows. cbn [seq mbind list_bind]. f_equal.
  rewrite <- (fmap_S_seq 1), list_fmap_bind.
  apply list_bind_ext; [|done]. intros u. cbn [compose].
  replace (1 + u)%nat with (S u) by lia.
  replace (S (S n) - S u)%nat with (S n - u)%nat by lia. done.
Qed.

Lemma enumerate_points_spec NT :
  enumerate_points NT
  = Ok ((ordered_pairs (Z.to_nat NT)).*1, (ordered_pairs (Z.to_nat NT)).*2).
Proof.
  unfold enumerate_points. rewrite range_Z_from_1, foldl_enum_first.
  cbn [X1 X2 aux aux2 app]. rewrite length_fmap, length_seq.
  destruct (Z.to_nat NT) as [|n] eqn:Hn.
  - replace (range_Z 0 (NT - 1)) with (@nil Z); [done|].
    unfold range_Z. by replace (Z.to_nat (NT - 1 - 0)) with 0%nat by lia.
  - edestruct (foldM_enum_next (range_Z 0 (NT - 1))
                 (EnumState (Z.of_nat <$> seq 1 (S n)) (replicate (S n) 1)
                            (Z.of_nat <$> seq 1 (S n)) 1) 1 (S n))
      as (s' & Hrun & H1 & H2); [done|done|rewrite range_Z_length; lia|].
    rewrite Hrun. cbn [mbind Res_bind]. rewrite H1, H2.
    rewrite range_Z_length. replace (Z.to_nat (NT - 1 - 0)) with n by lia.
    cbn [X1 X2]. rewrite ordered_pairs_rows, !fmap_app, <- !list_fmap_compose.
    replace (replicate (S n) 1) with (replicate (length (seq 1 (S n))) 1)
      by (by rewrite length_seq).
    rewrite <- fmap_const_replicate. by do 3 f_equal.
Qed.

Lemma elem_of_ordered_pairs n x1 x2 :
  (x1, x2) ∈ ordered_pairs n ↔ 1 ≤ x2 ≤ x1 ∧ x1 ≤ Z.of_nat n.
Proof.
  unfold ordered_pairs. rewrite list_elem_of_bind. split.
  - intros (j & Hin & Hj). apply list_elem_of_fmap in Hin as (i & Heq & Hi).
    apply elem_of_seq in Hi, Hj. simplify_eq. lia.
  - intros [H1 H2]. exists (Z.to_nat x2). split.
    + apply list_elem_of_fmap. exists (Z.to_nat x1). split.
      * f_equal; lia.
      * apply elem_of_seq. lia.
    + apply elem_of_seq. lia.
Qed.

Lemma NoDup_ordered_pairs n : NoDup (ordered_pairs n).
Proof.
  unfold ordered_pairs. apply NoDup_bind.
  - intros j1 j2 p _ _ Hin1 Hin2.
    apply list_elem_of_fmap in Hin1 as (i1 & -> & _).
    apply list_elem_of_fmap in Hin2 as (i2 & Heq & _).
    simplify_eq. lia.
  - intros j _. apply NoDup_fmap_2; [|apply NoDup_seq].
    intros i1 i2 Heq. simplify_eq. lia.
  - apply NoDup_seq.
Qed.

Section enumeration_facts.
Context {F : Type} `{!Objective F} {Init : Type}.
Variable fnlp_gdp : Z → list Z → bool → Init → solve_result (F:=F) (Init:=Init).
Variable empty_init : Init.

Lemma solve_points NT (ps : list (Z * Z)) (done rest : list (Z * Z)) st :
  ps = done ++ rest →
  forM (solve_point fnlp_gdp empty_init NT ps.*1 ps.*2) ()
       (seq (length done) (length rest)) st
  = (Done (), add_calls st ((λ p, Call NT [p.1; p.2] false) <$> rest)).
Proof.
  revert done st. induction rest as [|p rest IH]; intros done st Hps.
  - cbn. by rewrite add_calls_nil.
  - cbn [length seq forM]. rewrite run_bind.
    assert (ps !! length done = Some p) as Hp.
    { rewrite Hps. by rewrite list_lookup_middle. }
    unfold solve_point at 1. unfold list_getitem.
    rewrite !list_lookup_fmap, Hp. cbn.
    specialize (IH (done ++ [p])). rewrite length_app in IH. cbn in IH.
    replace (length done + 1)%nat with (S (length done)) in IH by lia.
    unfold mbind, M_bind, lift, solve, mret, M_ret; cbn beta iota.
    rewrite IH; [|by rewrite <- app_assoc].
    f_equal. unfold add_calls. cbn. by rewrite <- app_assoc.
Qed.

(** X1. [complete_enumeration(NT)] never raises and calls the solver, without
    warm start and with its own [NT], once for each pair [[x1, x2]] with
    [1 <= x2 <= x1 <= NT] and for nothing else, by increasing [x2] and then
    by increasing [x1]. *)
Theorem complete_enumeration_solves_ordered_pairs NT st :
  complete_enumeration fnlp_gdp empty_init NT st
  = (Done (), add_calls st ((λ p, Call NT [p.1; p.2] false)
                              <$> ordered_pairs (Z.to_nat NT))) ∧
  NoDup (ordered_pairs (Z.to_nat NT)) ∧
  (∀ x1 x2, (x1, x2) ∈ ordered_pairs (Z.to_nat NT) ↔ 1 ≤ x2 ≤ x1 ∧ x1 ≤ NT).
Proof.
  split; [|split].
  - unfold complete_enumeration. rewrite run_bind.
    rewrite enumerate_points_spec. cbn [lift fst snd].
    rewrite length_fmap.
    by apply (solve_points NT _ [] (ordered_pairs (Z.to_nat NT))).
  - apply NoDup_ordered_pairs.
  - intros x1 x2. rewrite elem_of_ordered_pairs. lia.
Qed.
End enumeration_facts.

End EnumerationFacts.

(** ** The candidates of a step, exactly *)

Module CandidateFacts.
Import Reactor ReactorFacts.

#[local] Arguments count_checked : simpl never.
#[local] Arguments check_coord : simpl never.
#[local] Arguments keep_checked : simpl never.
#[local] Arguments drop_cheating : simpl never.
#[local] Arguments shifted : simpl never.

Lemma shifted_fold_fresh start (nbh acc : dict Z (list Z)) :
  NoDup (dict_keys nbh) → (∀ i, i ∈ dict_keys nbh → i ∉ dict_keys acc) →
  foldl (λ nb '(i, d), dict_set nb i (vec_add start d)) acc nbh
  = acc ++ ((λ e, (e.1, vec_add start e.2)) <$> nbh).
Proof.
  unfold dict_keys. revert acc.
  induction nbh as [|[i d] nbh IH]; intros acc Hnd Hfresh; cbn.
  - by rewrite app_nil_r.
  - cbn in Hnd. apply NoDup_cons in Hnd as [Hi Hnd].
    rewrite dict_set_fresh by (apply Hfresh; left).
    rewrite IH; [by rewrite <- app_assoc|done|].
    intros k Hk. unfold dict_keys. rewrite fmap_app, elem_of_app.
    intros [Hin|Hin%list_elem_of_singleton].
    + apply (Hfresh k); [by right|done].
    + cbn in Hin. by subst k.
Qed.

Lemma shifted_eq start nbh :
  0 ∉ dict_keys nbh → NoDup (dict_keys nbh) →
  shifted start nbh = (0, start) :: ((λ e, (e.1, vec_add start e.2)) <$> nbh).
Proof.
  intros H0 Hnd. unfold shifted. rewrite shifted_fold_fresh; [done|done|].
  intros i Hi [->|[]%elem_of_nil]%elem_of_cons. done.
Qed.

Lemma check_coord_total min_allowed max_allowed v c j :
  (j < length v)%nat →
  is_Some (dict_get min_allowed (Z.of_nat j + 1)) →
  is_Some (dict_get max_allowed (Z.of_nat j + 1)) →
  ∃ c', check_coord v min_allowed max_allowed c j = Ok c'.
Proof.
  intros [p Hp]%lookup_lt_is_Some_2 [lo Hlo] [hi Hhi].
  unfold check_coord, list_getitem, dict_getitem. rewrite Hp, Hlo, Hhi. cbn.
  case_bool_decide; eauto.
Qed.

Lemma count_checked_total min_allowed max_allowed v n :
  (n ≤ length v)%nat →
  (∀ j, (j < n)%nat → is_Some (dict_get min_allowed (Z.of_nat j + 1)) ∧
                      is_Some (dict_get max_allowed (Z.of_nat j + 1))) →
  ∃ c, count_checked v n min_allowed max_allowed = Ok c.
Proof.
  intros Hlen Hb. unfold count_checked.
  assert (∀ m s acc, (s + m ≤ n)%nat →
    ∃ c, foldM (check_coord v min_allowed max_allowed) acc (seq s m) = Ok c)
    as Hgen.
  { induction m as [|m IH]; intros s acc Hm; cbn; [eauto|].
    destruct (check_coord_total min_allowed max_allowed v acc s) as [c' ->];
      [lia|apply Hb; lia|apply Hb; lia|].
    cbn. apply IH. lia. }
  by apply Hgen.
Qed.

Lemma keep_checked_eq min_allowed max_allowed n (acc : dict Z (list Z)) i v c :
  count_checked v n min_allowed max_allowed = Ok c →
  keep_checked min_allowed max_allowed n acc (i, v)
  = Ok (if decide (c = n) then dict_set acc i v else acc).
Proof. intros Hc. unfold keep_checked. cbn. by rewrite Hc. Qed.

Lemma drop_cheating_eq (acc : dict Z (list Z)) i v a b :
  dict_get acc i = Some v → v !! 0%nat = Some a → v !! 1%nat = Some b →
  drop_cheating acc i
  = Ok (if bool_decide (b - a > 0) then dict_pop acc i else acc).
Proof.
  intros Hv Ha Hb. unfold drop_cheating, dict_getitem, list_getitem.
  rewrite Hv. cbn. rewrite Hb. cbn. by rewrite Ha.
Qed.

(** The first filter keeps, in order, the candidates that pass the bound
    check. *)
Lemma keep_checked_fold_exact min_allowed max_allowed n (es acc : dict Z (list Z)) :
  (∀ e, e ∈ es → ∃ c, count_checked e.2 n min_allowed max_allowed = Ok c) →
  NoDup (dict_keys es) → (∀ i, i ∈ dict_keys es → i ∉ dict_keys acc) →
  ∃ kept, foldM (keep_checked min_allowed max_allowed n) acc es = Ok (acc ++ kept) ∧
    sublist kept es ∧
    ∀ e, e ∈ kept ↔ e ∈ es ∧ count_checked e.2 n min_allowed max_allowed = Ok n.
Proof.
  unfold dict_keys. revert acc.
  induction es as [|[i v] es IH]; intros acc Hc Hnd Hfresh.
  - exists []. cbn. rewrite app_nil_r. split_and!; [done|done|].
    intros e. split; [by intros ?%elem_of_nil|by intros [?%elem_of_nil _]].
  - cbn in Hnd. apply NoDup_cons in Hnd as [Hi Hnd].
    destruct (Hc (i, v)) as [c Hcv]; [left|]. cbn in Hcv.
    cbn [foldM]. rewrite (keep_checked_eq _ _ _ _ _ _ _ Hcv). cbn [mbind Res_bind].
    destruct (decide (c = n)) as [->|Hne].
    + rewrite dict_set_fresh by (apply Hfresh; left).
      destruct (IH (acc ++ [(i, v)])) as (kept & -> & Hsub & Hin).
      { intros e He. apply Hc. by right. }
      { done. }
      { intros k Hk. rewrite fmap_app, elem_of_app.
        intros [Hin|Hin%list_elem_of_singleton].
        - apply (Hfresh k); [by right|done].
        - cbn in Hin. by subst k. }
      exists ((i, v) :: kept). split_and!.
      * by rewrite <- app_assoc.
      * by apply sublist_skip.
      * intros e. rewrite !elem_of_cons, Hin. split.
        -- intros [->|[? ?]]; [by split; [left|]|by split; [right|]].
        -- intros [[->|?] ?]; [by left|by right].
    + destruct (IH acc) as (kept & -> & Hsub & Hin).
      { intros e He. apply Hc. by right. }
      { done. }
      { intros k Hk. apply Hfresh. by right. }
      exists kept. split_and!; [done|by apply sublist_cons|].
      intros e. rewrite elem_of_cons, Hin. split.
      * intros [? ?]. by split; [right|].
      * intros [[->|?] He]; [|done]. cbn in He. congruence.
Qed.

(** The second filter drops, in order, the kept candidates whose second
    coordinate exceeds the first. *)
Lemma drop_cheating_fold_exact (todo kept0 : dict Z (list Z)) :
  NoDup (dict_keys (kept0 ++ todo)) →
  (∀ e, e ∈ todo → (2 ≤ length e.2)%nat) →
  ∃ kept, foldM drop_cheating (kept0 ++ todo) (dict_keys todo) = Ok (kept0 ++ kept) ∧
    sublist kept todo ∧
    ∀ e, e ∈ kept ↔
      e ∈ todo ∧ ∀ a b, e.2 !! 0%nat = Some a → e.2 !! 1%nat = Some b → b - a ≤ 0.
Proof.
  unfold dict_keys. revert kept0.
  induction todo as [|[i v] todo IH]; intros kept0 Hnd Hlen.
  - exists []. cbn. split_and!; [done|done|].
    intros e. split; [by intros ?%elem_of_nil|by intros [?%elem_of_nil _]].
  - assert (i ∉ kept0.*1) as Hi.
    { rewrite fmap_app in Hnd. apply NoDup_app in Hnd as (_ & Hdis & _).
      intros Hin. apply (Hdis i Hin). left. }
    assert (dict_get (kept0 ++ (i, v) :: todo) i = Some v) as Hget.
    { rewrite dict_get_app. apply dict_get_None in Hi. rewrite Hi. cbn.
      by rewrite decide_True. }
    destruct (lookup_lt_is_Some_2 v 0) as [a Ha]; [specialize (Hlen (i, v)); cbn in Hlen; apply Nat.lt_le_trans with 2%nat; [lia|apply Hlen; left]|].
    destruct (lookup_lt_is_Some_2 v 1) as [b Hb]; [specialize (Hlen (i, v)); cbn in Hlen; apply Nat.lt_le_trans with 2%nat; [lia|apply Hlen; left]|].
    cbn [fmap list_fmap foldM fst].
    rewrite (drop_cheating_eq _ _ _ _ _ Hget Ha Hb). cbn [mbind Res_bind].
    case_bool_decide as Hcheat.
    + assert (dict_pop (kept0 ++ (i, v) :: todo) i = kept0 ++ todo) as ->.
      { clear -Hi. induction kept0 as [|[k w] kept0 IHk]; cbn.
        - by rewrite decide_True.
        - cbn in Hi. apply not_elem_of_cons in Hi as [Hne Hi].
          rewrite decide_False by done. by rewrite IHk. }
      destruct (IH kept0) as (kept & -> & Hsub & Hin).
      { rewrite fmap_app in *. rewrite fmap_cons in Hnd.
        apply NoDup_app in Hnd as (H1 & H2 & H3). apply NoDup_cons in H3 as [? ?].
        apply NoDup_app. split_and!; [done| |done].
        intros k Hk Hk'. apply (H2 k Hk). by right. }
      { intros e He. apply Hlen. by right. }
      exists kept. split_and!; [done|by apply sublist_cons|].
      intros e. rewrite elem_of_cons, Hin. split.
      * intros [? ?]. by split; [right|].
      * intros [[->|?] He]; [|done]. cbn in He. specialize (He a b Ha Hb). lia.
    + replace (kept0 ++ (i, v) :: todo) with ((kept0 ++ [(i, v)]) ++ todo)
        by (by rewrite <- app_assoc).
      destruct (IH (kept0 ++ [(i, v)])) as (kept & -> & Hsub & Hin).
      { by rewrite <- app_assoc. }
      { intros e He. apply Hlen. by right. }
      exists ((i, v) :: kept). split_and!.
      * by rewrite <- app_assoc.
      * by apply sublist_skip.
      * intros e. rewrite !elem_of_cons, Hin. split.
        -- intros [->|[? ?]]; [|by split; [right|]]. split; [by left|].
           cbn. intros a' b' Ha' Hb'. simplify_eq. lia.
        -- intros [[->|?] ?]; [by left|by right].
Qed.

Lemma my_neighbors_exact start (nbh : dict Z (list Z))
    min_allowed max_allowed cheating :
  0 ∉ dict_keys nbh → NoDup (dict_keys nbh) →
  (∀ e, e ∈ nbh → (length start ≤ length e.2)%nat) →
  (∀ j, (j < length start)%nat →
     is_Some (dict_get min_allowed (Z.of_nat j + 1)) ∧
     is_Some (dict_get max_allowed (Z.of_nat j + 1))) →
  (cheating = true → (2 ≤ length start)%nat) →
  ∃ nb, my_neighbors start nbh true min_allowed max_allowed cheating = Ok nb ∧
    sublist nb ((0, start) :: ((λ e, (e.1, vec_add start e.2)) <$> nbh)) ∧
    ∀ e, e ∈ nb ↔
      e ∈ (0, start) :: ((λ e, (e.1, vec_add start e.2)) <$> nbh) ∧
      within min_allowed max_allowed e.2 ∧
      (cheating = true →
       ∀ a b, e.2 !! 0%nat = Some a → e.2 !! 1%nat = Some b → b - a ≤ 0).
Proof.
  intros H0 Hnd Hdir Hbounds Hcheat.
  unfold my_neighbors. rewrite shifted_eq by done.
  set (cands := (0, start) :: ((λ e, (e.1, vec_add start e.2)) <$> nbh)).
  assert (dict_getitem cands 0 = Ok start) as -> by done.
  cbn [mbind Res_bind].
  assert (∀ e, e ∈ cands → length e.2 = length start) as Hlen.
  { intros e [->|Hin]%elem_of_cons; [done|].
    apply list_elem_of_fmap in Hin as (e' & -> & Hin'). cbn.
    unfold vec_add. rewrite length_zip_with. specialize (Hdir e' Hin'). lia. }
  assert (NoDup (dict_keys cands)) as Hcnd.
  { unfold dict_keys, cands. cbn. apply NoDup_cons. split.
    - intros Hin. apply H0. unfold dict_keys.
      by rewrite <- list_fmap_compose in Hin.
    - by rewrite <- list_fmap_compose. }
  destruct (keep_checked_fold_exact min_allowed max_allowed (length start)
              cands []) as (kept & -> & Hsub & Hkept).
  { intros e He. apply count_checked_total; [|done]. rewrite (Hlen e He). lia. }
  { done. }
  { intros i _ []%elem_of_nil. }
  cbn [app mbind Res_bind].
  assert (∀ e, e ∈ kept ↔ e ∈ cands ∧ within min_allowed max_allowed e.2)
    as Hkept'.
  { intros e. rewrite Hkept. split; intros [He Hc]; (split; [done|]).
    - apply count_checked_within. by rewrite (Hlen e He).
    - apply count_checked_within in Hc. by rewrite (Hlen e He) in Hc. }
  destruct cheating.
  - destruct (drop_cheating_fold_exact kept []) as (nb & Hnb & Hsub' & Hin).
    { cbn. unfold dict_keys in *. eapply sublist_NoDup; [exact Hcnd|].
      by apply fmap_sublist. }
    { intros e He. apply Hkept' in He as [He _]. rewrite (Hlen e He).
      by apply Hcheat. }
    cbn [app] in Hnb. exists nb. split_and!; [done|by etrans|].
    intros e. rewrite Hin, Hkept'. split.
    + intros [[? ?] ?]. done.
    + intros (? & ? & Hc). split; [done|]. by apply Hc.
  - exists kept. split_and!; [done|done|].
    intros e. rewrite Hkept'. split; [|by intros (? & ? & _)].
    intros [? ?]. split_and!; [done|done|]. intros [=].
Qed.

(** X2. [my_neighbors] with [optimize=True], for a neighbourhood with distinct
    keys other than [0], directions at least as long as [start], bounds for
    every coordinate and, with [cheating], at least two coordinates: it
    returns normally; the result holds, in their order, exactly those of
    the candidates [0: start] and [i: start + neighborhood[i]] that lie within
    the bounds in every coordinate and, with [cheating], whose second
    coordinate does not exceed the first. *)
Theorem my_neighbors_keeps_exactly start (nbh : dict Z (list Z))
    min_allowed max_allowed cheating :
  0 ∉ dict_keys nbh → NoDup (dict_keys nbh) →
  (∀ e, e ∈ nbh → (length start ≤ length e.2)%nat) →
  (∀ j, (j < length start)%nat →
     is_Some (dict_get min_allowed (Z.of_nat j + 1)) ∧
     is_Some (dict_get max_allowed (Z.of_nat j + 1))) →
  (cheating = true → (2 ≤ length start)%nat) →
  ∃ nb, my_neighbors start nbh true min_allowed max_allowed cheating = Ok nb ∧
    sublist nb ((0, start) :: ((λ e, (e.1, vec_add start e.2)) <$> nbh)) ∧
    ∀ e, e ∈ nb ↔
      e ∈ (0, start) :: ((λ e, (e.1, vec_add start e.2)) <$> nbh) ∧
      within min_allowed max_allowed e.2 ∧
      (cheating = true →
       ∀ a b, e.2 !! 0%nat = Some a → e.2 !! 1%nat = Some b → b - a ≤ 0).
Proof. apply my_neighbors_exact. Qed.

Lemma my_neighbors_keeps_exactly_witness :
  (0 ∉ dict_keys (directions_upto 2 4)) ∧
  NoDup (dict_keys (directions_upto 2 4)) ∧
  (∀ e, e ∈ directions_upto 2 4 → (length [3; 2] ≤ length e.2)%nat) ∧
  (∀ j, (j < length [3; 2])%nat →
     is_Some (dict_get dsda_min_allowed (Z.of_nat j + 1)) ∧
     is_Some (dict_get dsda_max_allowed (Z.of_nat j + 1))) ∧
  (true = true → (2 ≤ length [3; 2])%nat) ∧
  ∃ nb, my_neighbors [3; 2] (directions_upto 2 4) true
                     dsda_min_allowed dsda_max_allowed true = Ok nb ∧
    sublist nb ((0, [3; 2])
                :: ((λ e, (e.1, vec_add [3; 2] e.2)) <$> directions_upto 2 4)) ∧
    ∀ e, e ∈ nb ↔
      e ∈ (0, [3; 2])
          :: ((λ e, (e.1, vec_add [3; 2] e.2)) <$> directions_upto 2 4) ∧
      within dsda_min_allowed dsda_max_allowed e.2 ∧
      (true = true →
       ∀ a b, e.2 !! 0%nat = Some a → e.2 !! 1%nat = Some b → b - a ≤ 0).
Proof.
  assert (0 ∉ dict_keys (directions_upto 2 4)) as H0
    by (apply (bool_decide_unpack _); vm_compute; exact I).
  assert (NoDup (dict_keys (directions_upto 2 4))) as Hnd
    by (apply (bool_decide_unpack _); vm_compute; exact I).
  assert (∀ e, e ∈ directions_upto 2 4 → (length [3; 2] ≤ length e.2)%nat)
    as Hdir by (apply Forall_forall; repeat constructor).
  assert (∀ j, (j < length [3; 2])%nat →
            is_Some (dict_get dsda_min_allowed (Z.of_nat j + 1)) ∧
            is_Some (dict_get dsda_max_allowed (Z.of_nat j + 1))) as Hb.
  { intros [|[|j]] Hj; [split; by eexists..|cbn in Hj; lia]. }
  assert (true = true → (2 ≤ length [3; 2])%nat) as Hc by (cbn; lia).
  split_and!; [exact H0|exact Hnd|exact Hdir|exact Hb|exact Hc|].
  exact (my_neighbors_keeps_exactly [3; 2] (directions_upto 2 4)
           dsda_min_allowed dsda_max_allowed true H0 Hnd Hdir Hb Hc).
Defined.

Lemma sublist_filter_eq {A : Type} (P : A → Prop) `{∀ x, Decision (P x)}
    (l1 l : list A) :
  NoDup l → sublist l1 l → (∀ e, e ∈ l1 ↔ e ∈ l ∧ P e) → l1 = filter P l.
Proof.
  intros Hnd. revert l1. induction Hnd as [|x l Hx Hnd IH]; intros l1 Hsub Hin.
  - by apply sublist_nil_r in Hsub.
  - rewrite filter_cons.
    apply sublist_cons_r in Hsub as [Hsub|(l1' & -> & Hsub)].
    + rewrite decide_False.
      * apply IH; [done|]. intros e. rewrite Hin. split.
        -- intros [[->|?]%elem_of_cons ?]; [|done].
           exfalso. assert (x ∈ l1) as Hx1 by (apply Hin; split; [left|done]).
           apply Hx. by eapply elem_of_sublist.
        -- intros [? ?]. split; [by right|done].
      * intros HP. apply Hx. eapply elem_of_sublist; [|done].
        apply Hin. split; [left|done].
    + rewrite decide_True by (apply (Hin x); left).
      f_equal. apply IH; [done|]. intros e. split.
      * intros He. split; [by eapply elem_of_sublist|].
        apply (Hin e). by right.
      * intros [He HP].
        assert (e ∈ x :: l1') as [->|?]%elem_of_cons
          by (apply Hin; split; [by right|done]); done.
Qed.

(** [my_neighbors] as [dsda] calls it, at a point of two coordinates. *)
Lemma my_neighbors_dsda x1 x2 :
  my_neighbors [x1; x2] (directions_upto 2 (2 * 2)) true
               dsda_min_allowed dsda_max_allowed true
  = Ok (filter (λ e, feasible e.2 = true)
          [(0, [x1; x2]); (1, [x1 + 1; x2]); (2, [x1; x2 + 1]);
           (3, [x1 - 1; x2]); (4, [x1; x2 - 1])]).
Proof.
  destruct (my_neighbors_exact [x1; x2] (directions_upto 2 (2 * 2))
              dsda_min_allowed dsda_max_allowed true)
    as (nb & -> & Hsub & Hin).
  { apply directions_upto_no_key_0. }
  { apply (bool_decide_unpack _); vm_compute; exact I. }
  { apply Forall_forall; repeat constructor. }
  { intros [|[|j]] Hj; [split; by eexists..|cbn in Hj; lia]. }
  { cbn; lia. }
  f_equal.
  assert ((0, [x1; x2])
          :: ((λ e, (e.1, vec_add [x1; x2] e.2)) <$> directions_upto 2 (2 * 2))
          = [(0, [x1; x2]); (1, [x1 + 1; x2]); (2, [x1; x2 + 1]);
             (3, [x1 - 1; x2]); (4, [x1; x2 - 1])]) as Hc.
  { assert (directions_upto 2 (2 * 2)
            = [(1, [1; 0]); (2, [0; 1]); (3, [-1; 0]); (4, [0; -1])]) as ->
      by (vm_compute; reflexivity).
    cbn. repeat f_equal; lia. }
  rewrite Hc in Hsub, Hin.
  apply sublist_filter_eq; [|done|].
  - apply (NoDup_fmap_1 fst). apply (bool_decide_unpack _); vm_compute; exact I.
  - intros e. rewrite Hin.
    enough (e ∈ [(0, [x1; x2]); (1, [x1 + 1; x2]); (2, [x1; x2 + 1]);
                 (3, [x1 - 1; x2]); (4, [x1; x2 - 1])] →
            (within dsda_min_allowed dsda_max_allowed e.2 ∧
             (true = true →
              ∀ a b, e.2 !! 0%nat = Some a → e.2 !! 1%nat = Some b → b - a ≤ 0))
            ↔ feasible e.2 = true) as Haux.
    { split; intros [He H]; (split; [done|]); by apply (Haux He). }
    intros He.
    assert (∃ a b, e.2 = [a; b]) as (a & b & Hab).
    { repeat (apply elem_of_cons in He as [->|He]); try (by eexists _, _).
      by apply elem_of_nil in He. }
    rewrite Hab, within_dsda_bounds. cbn.
    rewrite !Forall_cons, bool_decide_eq_true. split.
    + intros [(_ & ? & ? & _) Hch]. specialize (Hch eq_refl a b eq_refl eq_refl).
      lia.
    + intros (? & ? & ?). split_and!; [lia..|constructor|].
      intros _ a' b' [= <-] [= <-]. lia.
Qed.

(** X3. The candidates of the driver at a point [[x1, x2]]: with the
    neighbourhood of [neighborhood_k_eq_2(2)] and the bounds and the filter
    that [dsda] passes, [my_neighbors] returns, in this order, the point
    itself under key [0] and its four unit moves under the keys [1] to [4],
    each kept when both coordinates lie in [1..5] and the second does not
    exceed the first. *)
Theorem dsda_candidates x1 x2 :
  (nbh ← neighborhood_k_eq_2 2;
   my_neighbors [x1; x2] nbh true dsda_min_allowed dsda_max_allowed true)
  = Ok (filter (λ e, feasible e.2 = true)
          [(0, [x1; x2]); (1, [x1 + 1; x2]); (2, [x1; x2 + 1]);
           (3, [x1 - 1; x2]); (4, [x1; x2 - 1])]).
Proof.
  rewrite neighborhood_k_eq_2_eq. cbn [mbind Res_bind]. apply my_neighbors_dsda.
Qed.

(** X21. [my_neighbors] with [optimize=False], for a neighbourhood with
    distinct keys other than [0]: nothing is checked or filtered, whatever
    the bounds and [cheating] are; the result holds the start under key [0]
    followed by [start + neighborhood[i]] under each key [i], in the order
    of the neighbourhood. *)
Theorem my_neighbors_unfiltered start (nbh : dict Z (list Z))
    min_allowed max_allowed cheating :
  0 ∉ dict_keys nbh → NoDup (dict_keys nbh) →
  my_neighbors start nbh false min_allowed max_allowed cheating
  = Ok ((0, start) :: ((λ e, (e.1, vec_add start e.2)) <$> nbh)).
Proof. intros H0 Hnd. unfold my_neighbors. by rewrite shifted_eq. Qed.

Lemma my_neighbors_unfiltered_witness :
  (0 ∉ dict_keys (directions_upto 2 4)) ∧
  NoDup (dict_keys (directions_upto 2 4)) ∧
  my_neighbors [5; 5] (directions_upto 2 4) false
               dsda_min_allowed dsda_max_allowed true
  = Ok ((0, [5; 5])
        :: ((λ e, (e.1, vec_add [5; 5] e.2)) <$> directions_upto 2 4)).
Proof.
  assert (0 ∉ dict_keys (directions_upto 2 4)) as H0
    by (apply (bool_decide_unpack _); vm_compute; exact I).
  assert (NoDup (dict_keys (directions_upto 2 4))) as Hnd
    by (apply (bool_decide_unpack _); vm_compute; exact I).
  split_and!; [exact H0|exact Hnd|].
  exact (my_neighbors_unfiltered [5; 5] (directions_upto 2 4)
           dsda_min_allowed dsda_max_allowed true H0 Hnd).
Defined.

End CandidateFacts.

(** ** How the loops of the driver end *)

Module SearchFacts.
Import Reactor ReactorFacts CandidateFacts.

#[local] Arguments count_checked : simpl never.
#[local] Arguments check_coord : simpl never.
#[local] Arguments my_neighbors : simpl never.

Lemma within_box_points v :
  within dsda_min_allowed dsda_max_allowed v → v ∈ box_points.
Proof.
  intros [Hlen Hall]%within_dsda_bounds.
  assert (∀ a, 1 ≤ a ≤ 5 → a ∈ [1; 2; 3; 4; 5]) as Hc.
  { intros a Ha.
    assert (a = 1 ∨ a = 2 ∨ a = 3 ∨ a = 4 ∨ a = 5) as Hcases by lia.
    rewrite !elem_of_cons. tauto. }
  unfold box_points.
  destruct v as [|a [|b [|c v]]]; [left| | |cbn in Hlen; lia].
  - right. apply elem_of_app. left. apply list_elem_of_fmap. exists a.
    split; [done|]. apply Hc. by apply Forall_cons in Hall as [? _].
  - right. apply elem_of_app. right.
    apply Forall_cons in Hall as [Ha Hall].
    apply Forall_cons in Hall as [Hb _].
    apply list_elem_of_bind. exists a. split; [|by apply Hc].
    apply list_elem_of_fmap. exists b. split; [done|by apply Hc].
Qed.

Section search_facts.
Context {F : Type} `{!Objective F} {Init : Type}.
Variable fnlp_gdp : Z → list Z → bool → Init → solve_result (F:=F) (Init:=Init).
Variable empty_init : Init.
Variable external_init : Z → list Z.
Variable NT_global : Z.

(** X4. [dsda(NT, k)] with [k] other than ['2']: the start is solved, then
    the first use of [neighborhood], which was never bound, raises; nothing
    is searched.  This holds whether the module binds [NT] or not. *)
Theorem dsda_unsupported_k ntg fuel NT k :
  k ≠ "2"%string →
  dsda fnlp_gdp empty_init external_init ntg (S fuel) NT k initial_state
  = (Exn NameError,
     State [] [Call NT (external_init NT) false] [external_init NT]
           [sr_obj (fnlp_gdp NT (external_init NT) false empty_init)]).
Proof.
  intros Hk. unfold dsda.
  rewrite run_bind. unfold route_append at 1. rewrite run_bind.
  unfold solve at 1. rewrite run_bind. unfold log_fmin at 1.
  cbn [heap calls route fmin_log initial_state app]. rewrite run_bind.
  rewrite decide_False by done. unfold mret at 1, M_ret at 1.
  rewrite run_bind. reflexivity.
Qed.

Lemma vec_add_lookup a b j x y :
  a !! j = Some x → b !! j = Some y → vec_add a b !! j = Some (x + y).
Proof. intros Ha Hb. unfold vec_add. by rewrite lookup_zip_with, Ha, Hb. Qed.

Lemma within_lookup v j x :
  within dsda_min_allowed dsda_max_allowed v → v !! j = Some x → 1 ≤ x ≤ 5.
Proof.
  intros [_ Hall]%within_dsda_bounds Hx.
  by apply (Forall_lookup_1 _ _ _ _ Hall Hx).
Qed.

(** Along a direction that raises coordinate [j], a run from a point whose
    coordinate [j] is [pj] has at most [5 - pj] accepted steps. *)
Lemma accepted_run_up d j c fmin point init pts qs fmin' point' init' :
  accepted_run fnlp_gdp NT_global d fmin point init pts qs fmin' point' init' →
  d !! j = Some c → 0 < c →
  ∀ pj, point !! j = Some pj → (length pts ≤ Z.to_nat (5 - pj))%nat.
Proof.
  intros Hrun Hc Hpos.
  induction Hrun as [|fmin point init pts qs fmin' point' init' [Hw _] _ IH];
    intros pj Hpj; [cbn; lia|].
  pose proof (vec_add_lookup _ _ _ _ _ Hpj Hc) as Hm.
  pose proof (within_lookup _ _ _ Hw Hm).
  specialize (IH _ Hm). cbn. lia.
Qed.

Lemma accepted_run_down d j c fmin point init pts qs fmin' point' init' :
  accepted_run fnlp_gdp NT_global d fmin point init pts qs fmin' point' init' →
  d !! j = Some c → c < 0 →
  ∀ pj, point !! j = Some pj → (length pts ≤ Z.to_nat (pj - 1))%nat.
Proof.
  intros Hrun Hc Hneg.
  induction Hrun as [|fmin point init pts qs fmin' point' init' [Hw _] _ IH];
    intros pj Hpj; [cbn; lia|].
  pose proof (vec_add_lookup _ _ _ _ _ Hpj Hc) as Hm.
  pose proof (within_lookup _ _ _ Hw Hm).
  specialize (IH _ Hm). cbn. lia.
Qed.

Lemma accepted_run_le_5 d j c fmin point init pts qs fmin' point' init' :
  accepted_run fnlp_gdp NT_global d fmin point init pts qs fmin' point' init' →
  d !! j = Some c → c ≠ 0 → (j < length point)%nat → (length pts ≤ 5)%nat.
Proof.
  intros Hrun Hc Hne [pj Hpj]%lookup_lt_is_Some_2.
  destruct (decide (0 < c)).
  - destruct Hrun as [|fmin point init pts qs fmin' point' init' [Hw _] Hrun];
      [cbn; lia|].
    pose proof (vec_add_lookup _ _ _ _ _ Hpj Hc) as Hm.
    pose proof (within_lookup _ _ _ Hw Hm).
    pose proof (accepted_run_up _ _ _ _ _ _ _ _ _ _ _ Hrun Hc ltac:(done) _ Hm).
    cbn. lia.
  - destruct Hrun as [|fmin point init pts qs fmin' point' init' [Hw _] Hrun];
      [cbn; lia|].
    pose proof (vec_add_lookup _ _ _ _ _ Hpj Hc) as Hm.
    pose proof (within_lookup _ _ _ Hw Hm).
    pose proof (accepted_run_down _ _ _ _ _ _ _ _ _ _ _ Hrun Hc ltac:(lia) _ Hm).
    cbn. lia.
Qed.

(** X5. The inner loop [while go_2] ends within six iterations: along a
    direction with a non-zero entry at a coordinate of the current point, at
    most five steps are accepted, whatever the solver returns, because every
    accepted point lies in [1..5] at that coordinate.  The module-level
    [NT] is bound, as in a run of the module. *)
Theorem line_search_at_most_5_steps fuel nbh bd d j c fmin bv init st :
  dict_get nbh bd = Some d → d !! j = Some c → c ≠ 0 → (j < length bv)%nat →
  (6 ≤ fuel)%nat →
  ∃ out st' pts,
    line_search fnlp_gdp (Some NT_global) fuel nbh bd fmin bv init st = (out, st') ∧
    out ≠ OutOfFuel ∧
    route st' = route st ++ pts ∧ (length pts ≤ 5)%nat.
Proof.
  intros Hd Hc Hne Hj Hfuel.
  destruct (line_search_spec fnlp_gdp NT_global fuel nbh bd d fmin bv init st Hd)
    as (pts & qs & fmin' & point' & init' & cs & out & Hrun & _ & _ & Hst & Hout).
  pose proof (accepted_run_le_5 _ _ _ _ _ _ _ _ _ _ _ Hrun Hc Hne Hj) as Hlen.
  exists out, (extend st cs pts qs), pts. split_and!; [done| |done|done].
  intros ->. lia.
Qed.

(** The bound check never raises on a point of two coordinates. *)
Lemma count_checked_2 (v : list Z) :
  length v = 2%nat →
  ∃ c, count_checked v (length v) dsda_min_allowed dsda_max_allowed = Ok c.
Proof.
  intros Hlen. apply count_checked_total; [done|].
  rewrite Hlen. intros [|[|j]] Hj; [split; by eexists..|lia].
Qed.

Lemma vec_add_length_2 (a b : list Z) :
  length a = 2%nat → length b = 2%nat → length (vec_add a b) = 2%nat.
Proof. intros Ha Hb. unfold vec_add. rewrite length_zip_with. lia. Qed.


(** The inner loop on points of two coordinates never raises; when it
    returns, the current point and the current [fmin] are the last recorded
    ones. *)
Lemma line_search_ends fuel nbh bd d fmin bv init st :
  dict_get nbh bd = Some d → length d = 2%nat → length bv = 2%nat →
  last (route st) = Some bv → last (fmin_log st) = Some fmin →
  match line_search fnlp_gdp (Some NT_global) fuel nbh bd fmin bv init st with
  | (Done mv, st') =>
      length (m_best_var mv) = 2%nat ∧
      last (route st') = Some (m_best_var mv) ∧
      last (fmin_log st') = Some (m_fmin mv)
  | (Exn _, _) => False
  | (OutOfFuel, _) => True
  end.
Proof.
  intros Hd Hld. revert fmin bv init st.
  induction fuel as [|fuel IH]; intros fmin bv init st Hlb Hr Hf; [done|].
  rewrite line_search_S, Hd, move_and_evaluate_eval. cbv zeta.
  pose proof (vec_add_length_2 bv d Hlb Hld) as Hlm.
  destruct (count_checked_2 _ Hlm) as [c ->].
  case_decide; [|done].
  case_decide; [|done].
  destruct (obj_ltb _ _); [|done].
  cbn [m_moved m_best_var m_fmin m_best_init].
  apply IH; [done|apply last_snoc|apply last_snoc].
Qed.



Lemma dict_get_filter_other (P : Z * list Z → Prop) `{∀ e, Decision (P e)}
    (d : dict Z (list Z)) k :
  k ∉ dict_keys d → dict_get (filter P d) k = None.
Proof.
  intros Hk. apply dict_get_None. intros Hin. apply Hk.
  unfold dict_keys in *. apply list_elem_of_fmap in Hin as (e & -> & He).
  apply list_elem_of_fmap. exists e. split; [done|].
  by apply list_elem_of_filter in He as [_ ?].
Qed.

Lemma unit_moves_eq x1 x2 :
  unit_moves [x1; x2]
  = [(1, [x1 + 1; x2]); (2, [x1; x2 + 1]); (3, [x1 - 1; x2]); (4, [x1; x2 - 1])].
Proof.
  unfold unit_moves.
  assert (directions_upto 2 4
          = [(1, [1; 0]); (2, [0; 1]); (3, [-1; 0]); (4, [0; -1])]) as ->
    by (vm_compute; reflexivity).
  cbn. repeat f_equal; lia.
Qed.

(** What [my_neighbors] returns in the driver, by the feasibility of the
    current point. *)
Lemma my_neighbors_dsda_cases x1 x2 :
  my_neighbors [x1; x2] (directions_upto 2 (2 * 2)) true
               dsda_min_allowed dsda_max_allowed true
  = Ok (if feasible [x1; x2]
        then (0, [x1; x2]) :: filter (λ e, feasible e.2 = true) (unit_moves [x1; x2])
        else filter (λ e, feasible e.2 = true) (unit_moves [x1; x2])).
Proof.
  rewrite my_neighbors_dsda, unit_moves_eq. f_equal.
  rewrite filter_cons. cbn [snd].
  destruct (feasible [x1; x2]) eqn:Hf.
  - by rewrite decide_True.
  - by rewrite decide_False.
Qed.

Lemma unit_moves_keys p : dict_keys (unit_moves p) = [1; 2; 3; 4].
Proof.
  unfold unit_moves, dict_keys. rewrite <- list_fmap_compose.
  vm_compute. reflexivity.
Qed.

Lemma unit_moves_elem p i x :
  length p = 2%nat → (i, x) ∈ unit_moves p →
  length x = 2%nat ∧
  ∃ d, dict_get (directions_upto 2 (2 * 2)) i = Some d ∧ length d = 2%nat.
Proof.
  intros Hp. unfold unit_moves.
  assert (directions_upto 2 4
          = [(1, [1; 0]); (2, [0; 1]); (3, [-1; 0]); (4, [0; -1])]) as Hdir
    by (vm_compute; reflexivity).
  change (2 * 2)%nat with 4%nat. rewrite Hdir. cbn [fmap list_fmap fst snd].
  intros Hin.
  repeat (apply elem_of_cons in Hin as [[= -> ->]|Hin]);
    [..|by apply elem_of_nil in Hin];
    (split; [by apply vec_add_length_2|by eexists]).
Qed.

(** How a run of the outer loop ends, from a current point of two
    coordinates that is the last element of the route. *)
Lemma explore_ends fuel ext_var init fmin st :
  length ext_var = 2%nat →
  last (route st) = Some ext_var → last (fmin_log st) = Some fmin →
  match explore fnlp_gdp (Some NT_global) fuel (Some (directions_upto 2 (2 * 2)))
                ext_var init fmin st with
  | (Done _, st') =>
      ∃ p q, last (route st') = Some p ∧ last (fmin_log st') = Some q ∧
        feasible p = true ∧
        ∀ e, e ∈ unit_moves p → feasible e.2 = true →
          ¬ improving fnlp_gdp NT_global init tol_default q e.2
  | (Exn e, st') =>
      e = KeyError ∧ ∃ p, last (route st') = Some p ∧ feasible p = false
  | (OutOfFuel, _) => True
  end.
Proof.
  revert ext_var fmin st.
  induction fuel as [|fuel IH]; intros ext_var fmin st Hlen Hr Hf; [done|].
  destruct ext_var as [|x1 [|x2 [|]]]; try done.
  rewrite explore_S, my_neighbors_dsda_cases.
  set (kept := filter (λ e : Z * list Z, feasible e.2 = true) (unit_moves [x1; x2])).
  assert (0 ∉ dict_keys (unit_moves [x1; x2])) as H0.
  { rewrite unit_moves_keys. apply (bool_decide_unpack _). vm_compute. exact I. }
  assert (dict_get kept 0 = None) as Hk0 by (by apply dict_get_filter_other).
  assert (NoDup (dict_keys kept)) as Hnd.
  { unfold dict_keys, kept. eapply sublist_NoDup; [|apply fmap_sublist, sublist_filter].
    fold (dict_keys (unit_moves [x1; x2])). rewrite unit_moves_keys.
    apply (bool_decide_unpack _). vm_compute. exact I. }
  destruct (feasible [x1; x2]) eqn:Hfeas.
  - erewrite (evaluate_neighbors_eval _ _ _ ((0, [x1; x2]) :: kept) [x1; x2]);
      [|cbn; by rewrite lookup_app_r, Nat.sub_diag| |done].
    2:{ unfold dict_keys. cbn. apply NoDup_cons. split; [|done].
        by apply dict_get_None. }
    assert (dict_pop ((0, [x1; x2]) :: kept) 0 = kept) as -> by done.
    pose proof (scan_fold_running_best fnlp_gdp NT_global init tol_default fmin
                  [x1; x2] kept) as (_ & Hiff & _ & Hyes).
    destruct (s_improve _) eqn:Hi.
    + destruct (Hyes eq_refl) as (bf & i & x & af & Hkept & -> & _).
      cbn [s_best_dir s_fmin s_best_var s_best_init heap calls route fmin_log].
      assert ((i, x) ∈ unit_moves [x1; x2]) as Hin.
      { assert ((i, x) ∈ kept) as Hin
          by (rewrite Hkept; apply elem_of_app; right; left).
        by apply list_elem_of_filter in Hin as [_ ?]. }
      apply unit_moves_elem in Hin as (Hlx & d & Hd & Hld); [|done].
      match goal with |- context [line_search _ _ _ _ _ ?q _ ?ini ?st3] =>
        pose proof (line_search_ends (S fuel) _ i d q x ini st3 Hd Hld Hlx
                      (last_snoc _ _) (last_snoc _ _)) as Hls;
        destruct (line_search fnlp_gdp (Some NT_global) (S fuel)
                    (directions_upto 2 (2 * 2)) i q x ini st3) as [[mv| |] st4]
      end; [|done|done].
      destruct Hls as (Hlm & Hrm & Hfm). by apply IH.
    + exists [x1; x2], fmin. cbn [route fmin_log]. split_and!; [done..|].
      intros e He Hfe Himp.
      assert (false = true) as Hi'; [|done].
      apply Hiff. destruct e as [i x]. exists i, x.
      cbn [fst snd] in *. split; [|done].
      apply list_elem_of_filter. done.
  - erewrite evaluate_neighbors_no_incumbent;
      [|cbn; by rewrite lookup_app_r, Nat.sub_diag|done].
    split; [done|]. by exists [x1; x2].
Qed.

(** The state in which [dsda] enters the outer loop. *)
Lemma dsda_run ntg fuel NT :
  length (external_init NT) = 2%nat →
  dsda fnlp_gdp empty_init external_init ntg fuel NT "2" initial_state
  = match explore fnlp_gdp ntg fuel (Some (directions_upto 2 (2 * 2)))
            (external_init NT)
            (sr_init (fnlp_gdp NT (external_init NT) false empty_init))
            (sr_obj (fnlp_gdp NT (external_init NT) false empty_init))
            (State [] [Call NT (external_init NT) false] [external_init NT]
                   [sr_obj (fnlp_gdp NT (external_init NT) false empty_init)]) with
    | (Done _, st') => (Done (route st'), st')
    | (Exn e, st') => (Exn e, st')
    | (OutOfFuel, st') => (OutOfFuel, st')
    end.
Proof.
  intros Hlen. unfold dsda.
  rewrite run_bind. unfold route_append at 1. rewrite run_bind.
  unfold solve at 1. rewrite run_bind. unfold log_fmin at 1.
  cbn [heap calls route fmin_log initial_state app]. rewrite run_bind.
  rewrite decide_True by done.
  rewrite run_bind. rewrite neighborhood_k_eq_2_eq, Hlen. unfold lift at 1.
  unfold mret at 1, M_ret at 1. rewrite run_bind.
  destruct (explore _ _ _ _ _ _ _ _) as [[[]|e|] st']; done.
Qed.

(** The first iteration of the outer loop when the module does not bind
    [NT]. *)
Lemma explore_unbound fuel x1 x2 init fmin st :
  explore fnlp_gdp None (S fuel) (Some (directions_upto 2 (2 * 2))) [x1; x2]
          init fmin st
  = (if feasible [x1; x2]
     then match filter (λ e, feasible e.2 = true) (unit_moves [x1; x2]) with
          | [] => Done ()
          | _ :: _ => Exn NameError
          end
     else Exn KeyError,
     State (heap st ++ [filter (λ e, feasible e.2 = true) (unit_moves [x1; x2])])
           (calls st) (route st) (fmin_log st)).
Proof.
  rewrite explore_S, my_neighbors_dsda_cases.
  set (kept := filter (λ e : Z * list Z, feasible e.2 = true) (unit_moves [x1; x2])).
  assert (0 ∉ dict_keys (unit_moves [x1; x2])) as H0.
  { rewrite unit_moves_keys. apply (bool_decide_unpack _). vm_compute. exact I. }
  assert (dict_get kept 0 = None) as Hk0 by (by apply dict_get_filter_other).
  destruct (feasible [x1; x2]) eqn:Hfeas.
  - erewrite (evaluate_neighbors_unbound _ _ ((0, [x1; x2]) :: kept) [x1; x2]);
      [|cbn; by rewrite lookup_app_r, Nat.sub_diag|done].
    assert (dict_pop ((0, [x1; x2]) :: kept) 0 = kept) as -> by done.
    cbn [heap calls route fmin_log].
    rewrite insert_app_r_alt, Nat.sub_diag by lia. cbn [insert list_insert].
    by destruct kept.
  - erewrite evaluate_neighbors_no_incumbent;
      [done|cbn; by rewrite lookup_app_r, Nat.sub_diag|done].
Qed.

(** X7. When [dsda(NT, '2')] returns, the module-level [NT] bound, the last
    point of the route is a local minimum of the search: it lies in [1..5]
    with its second coordinate not above the first, and none of its unit
    moves with these properties has a solve, warm-started from the solve of
    the start, with status [ok] and an objective that passes the test
    [act_obj + tol < fmin] of the program against the last [fmin]. *)
Theorem dsda_stops_at_local_minimum fuel NT rt st' :
  length (external_init NT) = 2%nat →
  dsda fnlp_gdp empty_init external_init (Some NT_global) fuel NT "2" initial_state
    = (Done rt, st') →
  rt = route st' ∧
  ∃ p q, last rt = Some p ∧ last (fmin_log st') = Some q ∧
    feasible p = true ∧
    ∀ e, e ∈ unit_moves p → feasible e.2 = true →
      ¬ improving fnlp_gdp NT_global
          (sr_init (fnlp_gdp NT (external_init NT) false empty_init))
          tol_default q e.2.
Proof.
  intros Hlen. rewrite dsda_run by done.
  pose proof (explore_ends fuel (external_init NT)
                (sr_init (fnlp_gdp NT (external_init NT) false empty_init))
                (sr_obj (fnlp_gdp NT (external_init NT) false empty_init))
                (State [] [Call NT (external_init NT) false] [external_init NT]
                   [sr_obj (fnlp_gdp NT (external_init NT) false empty_init)])
                Hlen eq_refl eq_refl) as Hends.
  destruct (explore _ _ _ _ _ _ _ _) as [[[]|e'|] st'']; [|done|done].
  intros [= <- <-]. done.
Qed.

(** X8. From a start of two coordinates outside [1..5] or with its second
    coordinate above the first, [dsda(NT, '2')] solves the start and then
    raises [KeyError]: the start is filtered out of its own candidates, and
    no neighbour is solved.  This holds whether the module binds [NT] or
    not. *)
Theorem dsda_infeasible_start ntg fuel NT :
  length (external_init NT) = 2%nat → feasible (external_init NT) = false →
  dsda fnlp_gdp empty_init external_init ntg (S fuel) NT "2" initial_state
  = (Exn KeyError,
     State [filter (λ e, feasible e.2 = true) (unit_moves (external_init NT))]
           [Call NT (external_init NT) false] [external_init NT]
           [sr_obj (fnlp_gdp NT (external_init NT) false empty_init)]).
Proof.
  intros Hlen Hfeas. rewrite dsda_run by done.
  destruct (external_init NT) as [|x1 [|x2 [|]]] eqn:Hext; try done.
  rewrite explore_S, my_neighbors_dsda_cases, Hfeas.
  erewrite evaluate_neighbors_no_incumbent; [done|done|].
  apply dict_get_filter_other. rewrite unit_moves_keys.
  apply (bool_decide_unpack _). vm_compute. exact I.
Qed.

(** ** Termination *)

Lemma accepted_run_recorded d fmin point init pts qs fmin' point' init' :
  accepted_run fnlp_gdp NT_global d fmin point init pts qs fmin' point' init' →
  Forall2 (recorded fnlp_gdp NT_global) pts qs.
Proof.
  induction 1 as [|fmin point init pts qs fmin' point' init' [Hw _] _ IH];
    constructor; [|done].
  split; [done|by eexists].
Qed.

(** What a run of the outer loop records, and how far it gets when the
    bound on the iterations is reached. *)
Lemma explore_route `{!ObjectiveOrder F} fuel nbh ext_var init fmin st :
  0 ∉ dict_keys nbh →
  ∃ out st' pts qs,
    explore fnlp_gdp (Some NT_global) fuel (Some nbh) ext_var init fmin st = (out, st') ∧
    route st' = route st ++ pts ∧
    Forall2 (recorded fnlp_gdp NT_global) pts qs ∧ chain tol_default fmin qs ∧
    (out = OutOfFuel → (fuel ≤ length pts)%nat).
Proof.
  intros H0. revert ext_var fmin st.
  induction fuel as [|fuel IH]; intros ext_var fmin st.
  { exists OutOfFuel, st, [], []. rewrite app_nil_r.
    split_and!; [done|done|constructor|done|done]. }
  rewrite explore_S.
  destruct (my_neighbors _ _ _ _ _ _) as [nb|e] eqn:Hnb.
  2:{ exists (Exn e), st, [], []. rewrite app_nil_r.
      split_and!; [done|done|constructor|done|done]. }
  apply my_neighbors_optimize in Hnb as [Hnd Hnb']; [|done].
  set (st1 := State (heap st ++ [nb]) (calls st) (route st) (fmin_log st)).
  assert (Hl : heap st1 !! length (heap st) = Some nb).
  { cbn. by rewrite lookup_app_r, Nat.sub_diag. }
  destruct (dict_get nb 0) as [v0|] eqn:Hv0.
  2:{ erewrite evaluate_neighbors_no_incumbent by done.
      exists (Exn KeyError), st1, [], []. rewrite app_nil_r.
      split_and!; [done|done|constructor|done|done]. }
  erewrite evaluate_neighbors_eval by done. cbn [heap calls route fmin_log st1].
  pose proof (scan_fold_running_best fnlp_gdp NT_global init tol_default fmin v0
                (dict_pop nb 0)) as (_ & _ & _ & Himp).
  pose proof (scan_fold_descends fnlp_gdp NT_global init
                (Scan fmin v0 0 init false) (dict_pop nb 0)) as Hdesc.
  cbn zeta in Hdesc.
  destruct (s_improve _) eqn:Hi.
  2:{ eexists (Done ()), _, [], []. rewrite app_nil_r.
      split_and!; [done|done|constructor|done|done]. }
  destruct (Himp eq_refl) as (bf & i & x & af & Hes & Hs & _).
  rewrite Hs in Hdesc |- *.
  assert (obj_ltb (obj_add (sr_obj (fnlp_gdp NT_global x true init)) tol_default)
                  fmin = true) as Hlt.
  { by destruct Hdesc as [[=]|[_ ?]]. }
  clear Himp Hi Hs Hdesc.
  cbn [s_best_dir s_fmin s_best_var s_best_init].
  assert (within dsda_min_allowed dsda_max_allowed x) as Hwx.
  { eapply (Hnb' i x), elem_of_sublist; [|apply dict_pop_sublist].
    rewrite Hes. apply elem_of_app. right. left. }
  set (q := sr_obj (fnlp_gdp NT_global x true init)) in *.
  assert (recorded fnlp_gdp NT_global x q) as Hrec by (split; [done|by eexists]).
  destruct (dict_get nbh i) as [direction|] eqn:Hd.
  2:{ rewrite line_search_no_direction by done.
      eexists (Exn KeyError), _, [x], [q].
      split_and!; [done|done|(constructor; [exact Hrec|constructor])|done|done]. }
  match goal with |- context [line_search _ _ _ _ _ _ _ ?ini ?st3] =>
    destruct (line_search_spec fnlp_gdp NT_global (S fuel) nbh i direction q x
                ini st3 Hd)
      as (pts2 & qs2 & fmin' & point' & init' & cs2 & out
          & Hrun & _ & _ & -> & Hout)
  end.
  pose proof (accepted_run_recorded _ _ _ _ _ _ _ _ _ Hrun) as Hrec2.
  apply accepted_run_chain in Hrun as [Hlen2 Hchain].
  unfold extend. cbn [heap calls route fmin_log].
  destruct out as [mv|e|].
  - destruct Hout as [-> _]. cbn [m_best_var m_fmin].
    match goal with |- context [explore _ _ fuel _ _ _ _ ?st4] =>
      destruct (IH point' fmin' st4)
        as (out & st' & pts3 & qs3 & -> & Hr3 & Hrec3 & Hch3 & Hfuel3)
    end.
    cbn [route] in Hr3.
    exists out, st', ([x] ++ pts2 ++ pts3), ([q] ++ qs2 ++ qs3).
    split_and!; [done| | | |].
    + by rewrite Hr3, <- !app_assoc.
    + apply Forall2_app; [(constructor; [exact Hrec|constructor])|by apply Forall2_app].
    + cbn. split; [done|]. by apply Hchain.
    + intros Ho. specialize (Hfuel3 Ho). rewrite !length_app. cbn. lia.
  - eexists (Exn e), _, ([x] ++ pts2), ([q] ++ qs2).
    split_and!; [done| | | |done].
    + cbn. by rewrite <- !app_assoc.
    + apply Forall2_app; [(constructor; [exact Hrec|constructor])|done].
    + cbn. split; [done|]. rewrite <-(app_nil_r qs2). by apply Hchain.
  - eexists OutOfFuel, _, ([x] ++ pts2), ([q] ++ qs2).
    split_and!; [done| | | |].
    + cbn. by rewrite <- !app_assoc.
    + apply Forall2_app; [(constructor; [exact Hrec|constructor])|done].
    + cbn. split; [done|]. rewrite <-(app_nil_r qs2). by apply Hchain.
    + intros _. rewrite length_app. cbn. cbn in Hout. lia.
Qed.

(** Points recorded with decreasing values of an objective that does not
    depend on the warm start are pairwise different. *)
Lemma recorded_NoDup `{!ObjectiveOrder F} fmin pts qs :
  (∀ x i i', sr_obj (fnlp_gdp NT_global x true i)
             = sr_obj (fnlp_gdp NT_global x true i')) →
  Forall2 (recorded fnlp_gdp NT_global) pts qs → chain tol_default fmin qs → NoDup pts.
Proof.
  intros Hobj Hrec Hch. apply NoDup_alt.
  assert (∀ i j x, (i < j)%nat → pts !! i = Some x → pts !! j = Some x → False)
    as Hlt.
  { intros i j x Hij Hi Hj.
    destruct (Forall2_lookup_l _ _ _ _ _ Hrec Hi) as (qi & Hqi & _ & ii & ->).
    destruct (Forall2_lookup_l _ _ _ _ _ Hrec Hj) as (qj & Hqj & _ & ij & ->).
    pose proof (chain_lookup fmin qs (S i) (S j) _ _
                  Hch ltac:(lia) Hqi Hqj) as Hdec.
    rewrite (Hobj x ij ii) in Hdec. by rewrite passes_irrefl in Hdec. }
  intros i j x Hi Hj.
  destruct (Nat.lt_trichotomy i j) as [?|[?|?]]; [|done|]; exfalso; eauto.
Qed.

(** Termination, for objective values with an order. *)
Lemma dsda_ends `{!ObjectiveOrder F} fuel NT k :
  (∀ x i i', sr_obj (fnlp_gdp NT_global x true i)
             = sr_obj (fnlp_gdp NT_global x true i')) →
  (32 ≤ fuel)%nat →
  ∃ out st',
    dsda fnlp_gdp empty_init external_init (Some NT_global) fuel NT k initial_state
      = (out, st') ∧
    out ≠ OutOfFuel ∧ (length (route st') ≤ 32)%nat.
Proof.
  intros Hobj Hfuel. unfold dsda.
  rewrite run_bind. unfold route_append at 1. rewrite run_bind.
  unfold solve at 1. rewrite run_bind. unfold log_fmin at 1.
  cbn [heap calls route fmin_log initial_state app]. rewrite run_bind.
  case_decide as Hk.
  - rewrite run_bind. rewrite neighborhood_k_eq_2_eq. unfold lift at 1.
    unfold mret at 1, M_ret at 1. rewrite run_bind.
    match goal with |- context [explore _ _ fuel _ ?e ?i ?q ?st] =>
      destruct (explore_route fuel
                  (directions_upto (length (external_init NT))
                                   (2 * length (external_init NT)))
                  e i q st (directions_upto_no_key_0 _ _))
        as (out & st' & pts & qs & -> & Hr & Hrec & Hch & Hout)
    end.
    cbn [route] in Hr.
    assert (length pts ≤ 31)%nat as Hlen.
    { pose proof (recorded_NoDup _ _ _ Hobj Hrec Hch) as Hnd.
      assert (pts ⊆+ box_points) as Hsub.
      { apply NoDup_submseteq; [done|]. intros x Hx.
        apply list_elem_of_lookup in Hx as [i Hi].
        destruct (Forall2_lookup_l _ _ _ _ _ Hrec Hi) as (q & _ & Hw & _).
        by apply within_box_points. }
      apply submseteq_length in Hsub. exact Hsub. }
    destruct out as [[]|e|].
    + eexists _, _. split_and!; [done|done|]. rewrite Hr. cbn. lia.
    + eexists _, _. split_and!; [done|done|]. rewrite Hr. cbn. lia.
    + specialize (Hout eq_refl). lia.
  - unfold mret at 1, M_ret at 1. rewrite run_bind.
    destruct fuel as [|fuel]; [lia|].
    eexists _, _. split_and!; [done|done|]. cbn. lia.
Qed.

(** ** The route is a path of unit moves *)

Lemma unit_path_app a l1 l2 :
  unit_path a l1 → unit_path (default a (last l1)) l2 → unit_path a (l1 ++ l2).
Proof.
  revert a. induction l1 as [|b l1 IH]; intros a; cbn [unit_path app]; [done|].
  intros [Hb Hl1] Hl2. split; [done|]. apply IH; [done|].
  rewrite last_cons in Hl2. by destruct (last l1).
Qed.

Lemma unit_moves_direction p i d :
  (i, d) ∈ directions_upto 2 4 → (i, vec_add p d) ∈ unit_moves p.
Proof.
  intros Hin. unfold unit_moves. apply list_elem_of_fmap.
  by exists (i, d).
Qed.

Lemma accepted_run_path i d fmin point init pts qs fmin' point' init' :
  accepted_run fnlp_gdp NT_global d fmin point init pts qs fmin' point' init' →
  (i, d) ∈ directions_upto 2 4 →
  unit_path point pts ∧ point' = default point (last pts).
Proof.
  intros Hrun Hd.
  induction Hrun as [|fmin point init pts qs fmin' point' init' _ _ [IHp IHl]];
    [done|].
  split.
  - cbn [unit_path]. split; [|done]. exists i. by apply unit_moves_direction.
  - rewrite IHl, last_cons. by destruct (last pts).
Qed.

Lemma explore_path fuel ext_var init fmin st :
  ∃ out st' pts,
    explore fnlp_gdp (Some NT_global) fuel (Some (directions_upto 2 4))
            ext_var init fmin st = (out, st') ∧
    route st' = route st ++ pts ∧ unit_path ext_var pts.
Proof.
  assert (0 ∉ dict_keys (directions_upto 2 4)) as H0
    by apply directions_upto_no_key_0.
  assert (NoDup (dict_keys (directions_upto 2 4))) as Hnbh
    by (apply (bool_decide_unpack _); vm_compute; exact I).
  revert ext_var fmin st.
  induction fuel as [|fuel IH]; intros ext_var fmin st.
  { exists OutOfFuel, st, []. by rewrite app_nil_r. }
  rewrite explore_S.
  destruct (my_neighbors _ _ _ _ _ _) as [nb|e] eqn:Hnb.
  2:{ exists (Exn e), st, []. by rewrite app_nil_r. }
  apply my_neighbors_optimize in Hnb as [Hnd Hnb']; [|done].
  set (st1 := State (heap st ++ [nb]) (calls st) (route st) (fmin_log st)).
  assert (Hl : heap st1 !! length (heap st) = Some nb).
  { cbn. by rewrite lookup_app_r, Nat.sub_diag. }
  destruct (dict_get nb 0) as [v0|] eqn:Hv0.
  2:{ erewrite evaluate_neighbors_no_incumbent by done.
      exists (Exn KeyError), st1, []. by rewrite app_nil_r. }
  erewrite evaluate_neighbors_eval by done. cbn [heap calls route fmin_log st1].
  pose proof (scan_fold_running_best fnlp_gdp NT_global init tol_default fmin v0
                (dict_pop nb 0)) as (_ & _ & _ & Himp).
  destruct (s_improve _) eqn:Hi.
  2:{ eexists (Done ()), _, []. by rewrite app_nil_r. }
  destruct (Himp eq_refl) as (bf & i & x & af & Hes & -> & _).
  clear Himp Hi.
  cbn [s_best_dir s_fmin s_best_var s_best_init].
  assert ((i, x) ∈ dict_pop nb 0) as Hin
    by (rewrite Hes; apply elem_of_app; right; left).
  assert (∃ d, (i, d) ∈ directions_upto 2 4 ∧ x = vec_add ext_var d)
    as (d & Hd & ->).
  { destruct (Hnb' i x) as [_ [[-> _]|?]]; [|exfalso|done].
    - eapply elem_of_sublist; [done|apply dict_pop_sublist].
    - apply (dict_keys_pop_NoDup nb 0 Hnd).
      apply list_elem_of_fmap. by exists (0, x). }
  pose proof (dict_get_elem _ _ _ Hnbh Hd) as Hget.
  match goal with |- context [line_search _ _ _ _ _ ?q ?x ?ini ?st3] =>
    destruct (line_search_spec fnlp_gdp NT_global (S fuel) _ i d q x
                ini st3 Hget)
      as (pts2 & qs2 & fmin' & point' & init' & cs2 & out
          & Hrun & _ & _ & -> & Hout)
  end.
  apply (accepted_run_path i) in Hrun as [Hpath2 Hlast]; [|done].
  assert (unit_path ext_var (vec_add ext_var d :: pts2)) as Hpath.
  { cbn [unit_path]. split; [|done]. exists i. by apply unit_moves_direction. }
  unfold extend. cbn [heap calls route fmin_log].
  destruct out as [mv|e|].
  - destruct Hout as [-> _]. cbn [m_best_var m_fmin].
    match goal with |- context [explore _ _ fuel _ _ _ _ ?st4] =>
      destruct (IH point' fmin' st4) as (out & st' & pts3 & -> & Hr3 & Hpath3)
    end.
    cbn [route] in Hr3.
    exists out, st', ((vec_add ext_var d :: pts2) ++ pts3).
    split_and!; [done| |].
    + rewrite Hr3. cbn. by rewrite <- !app_assoc.
    + apply unit_path_app; [done|]. rewrite Hlast in Hpath3.
      rewrite last_cons. by destruct (last pts2).
  - eexists (Exn e), _, (vec_add ext_var d :: pts2).
    split_and!; [done| |done]. cbn. by rewrite <- !app_assoc.
  - eexists OutOfFuel, _, (vec_add ext_var d :: pts2).
    split_and!; [done| |done]. cbn. by rewrite <- !app_assoc.
Qed.

(** X23. The route of [dsda(NT, '2')] from a start of two coordinates is a
    path of unit moves, wherever the run stops: it begins with the start,
    and every later point is the point before it moved by one unit along
    one coordinate.  The module-level [NT] is bound, as in a run of the
    module. *)
Theorem dsda_route_is_unit_path fuel NT :
  length (external_init NT) = 2%nat →
  ∃ pts,
    route (dsda fnlp_gdp empty_init external_init (Some NT_global) fuel NT "2"
                initial_state).2 = external_init NT :: pts ∧
    unit_path (external_init NT) pts.
Proof.
  intros Hlen. rewrite dsda_run by done.
  change (2 * 2)%nat with 4%nat.
  match goal with |- context [explore _ _ fuel _ ?e ?i ?q ?st] =>
    destruct (explore_path fuel e i q st) as (out & st' & pts & -> & Hr & Hpath)
  end.
  cbn [route] in Hr. exists pts. split; [|done].
  by destruct out as [[]|e|].
Qed.

End search_facts.

(** X9. Termination, the module-level [NT] bound.  In exact arithmetic:
    when the objective that the solver returns at a point does not depend
    on the warm start, [dsda] ends after at most 31 accepted moves,
    whatever [NT], [k] and the start are: the accepted points lie in
    [1..5], and no point is accepted twice because [fmin] decreases with
    every accepted move.  Thirty-two iterations of the outer loop always
    suffice.  The same holds of any objective values whose comparison is a
    strict order under which a value is not above its sum with the
    tolerance. *)
Theorem dsda_terminates :
  (∀ (Init : Type)
     (fnlp_gdp : Z → list Z → bool → Init → solve_result (F:=Q) (Init:=Init))
     (empty_init : Init) (external_init : Z → list Z) (NT_global : Z)
     fuel NT k,
     (∀ x i i', sr_obj (fnlp_gdp NT_global x true i)
                = sr_obj (fnlp_gdp NT_global x true i')) →
     (32 ≤ fuel)%nat →
     ∃ out st',
       dsda fnlp_gdp empty_init external_init (Some NT_global) fuel NT k
            initial_state = (out, st') ∧
       out ≠ OutOfFuel ∧ (length (route st') ≤ 32)%nat) ∧
  (∀ (F : Type) (O : Objective F) (Init : Type)
     (fnlp_gdp : Z → list Z → bool → Init → solve_result (F:=F) (Init:=Init))
     (empty_init : Init) (external_init : Z → list Z) (NT_global : Z)
     fuel NT k,
     ObjectiveOrder F →
     (∀ x i i', sr_obj (fnlp_gdp NT_global x true i)
                = sr_obj (fnlp_gdp NT_global x true i')) →
     (32 ≤ fuel)%nat →
     ∃ out st',
       dsda fnlp_gdp empty_init external_init (Some NT_global) fuel NT k
            initial_state = (out, st') ∧
       out ≠ OutOfFuel ∧ (length (route st') ≤ 32)%nat).
Proof.
  split.
  - intros Init fnlp_gdp empty_init external_init NT_global fuel NT k.
    apply (dsda_ends fnlp_gdp empty_init external_init NT_global).
  - intros F O Init fnlp_gdp empty_init external_init NT_global fuel NT k HO.
    apply (dsda_ends fnlp_gdp empty_init external_init NT_global).
Qed.

(** X6. A run of [dsda(NT, '2')] from a start of two coordinates raises
    [KeyError], and only when an EXPLORE step starts from a point outside
    [1..5] or with its second coordinate above the first: that point is the
    last element of the route; or it raises [NameError], and only when the
    module does not bind the name [NT] that [evaluate_neighbors] reads:
    then the start is solved, it passes the filters, and the exception is
    raised at its first neighbour, before any neighbour is solved.  Nothing
    else is raised. *)
Theorem dsda_raises_only_KeyError {F : Type} `{!Objective F} {Init : Type}
    (fnlp_gdp : Z → list Z → bool → Init → solve_result (F:=F) (Init:=Init))
    (empty_init : Init) (external_init : Z → list Z) (NT_global : option Z)
    fuel NT e st' :
  length (external_init NT) = 2%nat →
  dsda fnlp_gdp empty_init external_init NT_global fuel NT "2" initial_state
    = (Exn e, st') →
  (e = KeyError ∧ ∃ p, last (route st') = Some p ∧ feasible p = false) ∨
  (e = NameError ∧ NT_global = None ∧ feasible (external_init NT) = true ∧
   calls st' = [Call NT (external_init NT) false] ∧
   route st' = [external_init NT]).
Proof.
  intros Hlen. rewrite dsda_run by done.
  destruct NT_global as [n|].
  - pose proof (explore_ends fnlp_gdp n fuel (external_init NT)
                  (sr_init (fnlp_gdp NT (external_init NT) false empty_init))
                  (sr_obj (fnlp_gdp NT (external_init NT) false empty_init))
                  (State [] [Call NT (external_init NT) false] [external_init NT]
                     [sr_obj (fnlp_gdp NT (external_init NT) false empty_init)])
                  Hlen eq_refl eq_refl) as Hends.
    destruct (explore _ _ _ _ _ _ _ _) as [[[]|e'|] st'']; [done| |done].
    intros [= <- <-]. by left.
  - destruct fuel as [|fuel]; [done|].
    destruct (external_init NT) as [|x1 [|x2 [|]]] eqn:Hext; try done.
    rewrite explore_unbound.
    destruct (feasible [x1; x2]) eqn:Hfeas.
    + destruct (filter _ _); [done|]. intros [= <- <-]. right. done.
    + intros [= <- <-]. left. split; [done|]. by exists [x1; x2].
Qed.

Lemma dsda_route_is_unit_path_witness :
  length ((λ _ : Z, [3; 1]) 5) = 2%nat ∧
  ∃ pts,
    route (dsda example_solver tt (λ _, [3; 1]) (Some 5) 10 5 "2"
                initial_state).2
    = (λ _ : Z, [3; 1]) 5 :: pts ∧
    unit_path ((λ _ : Z, [3; 1]) 5) pts.
Proof.
  assert (length ((λ _ : Z, [3; 1]) 5) = 2%nat) as Hlen by reflexivity.
  split; [exact Hlen|].
  exact (dsda_route_is_unit_path example_solver tt (λ _, [3; 1]) 5 10 5 Hlen).
Defined.

Lemma dsda_terminates_witness :
  (∀ x i i', sr_obj (exact_solver 5 x true i)
             = sr_obj (exact_solver 5 x true i')) ∧
  (32 ≤ 32)%nat ∧
  ∃ out st',
    dsda exact_solver tt (λ _, [3; 1]) (Some 5) 32 5 "2" initial_state
      = (out, st') ∧
    out ≠ OutOfFuel ∧ (length (route st') ≤ 32)%nat.
Proof.
  assert (∀ x i i', sr_obj (exact_solver 5 x true i)
                    = sr_obj (exact_solver 5 x true i')) as Hobj
    by (intros x [] []; reflexivity).
  assert (32 ≤ 32)%nat as Hfuel by lia.
  split; [exact Hobj|]. split; [exact Hfuel|].
  exact (proj1 dsda_terminates unit exact_solver tt (λ _, [3; 1]) 5 32%nat 5
           "2"%string Hobj Hfuel).
Defined.

Example dsda_example_crash :
  dsda climbing_solver tt (λ _, [3; 2]) (Some 5) 10 5 "2" initial_state
  = (Exn KeyError,
     State [[(1, [4; 2]); (2, [3; 3]); (3, [2; 2]); (4, [3; 1])]; []]
           [Call 5 [3; 2] false; Call 5 [4; 2] true; Call 5 [3; 3] true;
            Call 5 [2; 2] true; Call 5 [3; 1] true; Call 5 [3; 4] true;
            Call 5 [3; 5] true]
           [[3; 2]; [3; 3]; [3; 4]; [3; 5]]
           [8; 7; 6; 5]%float).
Proof. vm_compute. reflexivity. Qed.

(** The same run when the module does not bind [NT]: the start is solved,
    then the first neighbour raises [NameError]. *)
Example dsda_example_unbound :
  dsda climbing_solver tt (λ _, [3; 2]) None 10 5 "2" initial_state
  = (Exn NameError,
     State [[(1, [4; 2]); (2, [3; 3]); (3, [2; 2]); (4, [3; 1])]]
           [Call 5 [3; 2] false] [[3; 2]] [8]%float).
Proof. vm_compute. reflexivity. Qed.

Lemma line_search_at_most_5_steps_witness :
  dict_get (directions_upto 2 4) 2 = Some [0; 1] ∧
  [0; 1] !! 1%nat = Some 1 ∧ 1 ≠ 0 ∧ (1 < length [3; 2])%nat ∧ (6 ≤ 6)%nat ∧
  ∃ out st' pts,
    line_search climbing_solver (Some 5) 6 (directions_upto 2 4) 2 8%float [3; 2]
                tt initial_state = (out, st') ∧
    out ≠ OutOfFuel ∧
    route st' = route (initial_state (F:=float)) ++ pts ∧ (length pts ≤ 5)%nat.
Proof.
  assert (dict_get (directions_upto 2 4) 2 = Some [0; 1]) as Hd
    by (vm_compute; reflexivity).
  assert ([0; 1] !! 1%nat = Some 1) as Hc by reflexivity.
  assert (1 ≠ 0) as Hne by lia.
  assert (1 < length [3; 2])%nat as Hj by (cbn; lia).
  assert (6 ≤ 6)%nat as Hfuel by lia.
  split_and!; [exact Hd|exact Hc|exact Hne|exact Hj|exact Hfuel|].
  exact (line_search_at_most_5_steps climbing_solver 5 6 (directions_upto 2 4)
           2 [0; 1] 1%nat 1 8%float [3; 2] tt initial_state
           Hd Hc Hne Hj Hfuel).
Defined.

(** The line search of the example: from [[3, 2]] with [fmin = 8] along
    [[0, 1]], the steps to [[3, 3]], [[3, 4]] and [[3, 5]] are accepted;
    [[3, 6]] is outside the bounds and is not solved. *)
Example line_search_example :
  line_search climbing_solver (Some 5) 6 (directions_upto 2 4) 2 8%float [3; 2]
              tt initial_state
  = (Done (Move 5%float [3; 5] false tt),
     State [] [Call 5 [3; 3] true; Call 5 [3; 4] true; Call 5 [3; 5] true]
           [[3; 3]; [3; 4]; [3; 5]] [7; 6; 5]%float).
Proof. vm_compute. reflexivity. Qed.


Lemma dsda_raises_only_KeyError_witness :
  length ((λ _ : Z, [3; 2]) 5) = 2%nat ∧
  dsda climbing_solver tt (λ _, [3; 2]) None 10 5 "2" initial_state
  = (Exn NameError,
     State [[(1, [4; 2]); (2, [3; 3]); (3, [2; 2]); (4, [3; 1])]]
           [Call 5 [3; 2] false] [[3; 2]] [8]%float) ∧
  ((NameError = KeyError ∧
    ∃ p, last [[3; 2]] = Some p ∧ feasible p = false) ∨
   (NameError = NameError ∧ None = (None : option Z) ∧
    feasible ((λ _ : Z, [3; 2]) 5) = true ∧
    [Call 5 [3; 2] false] = [Call 5 ((λ _ : Z, [3; 2]) 5) false] ∧
    [[3; 2]] = [(λ _ : Z, [3; 2]) 5])).
Proof.
  split; [reflexivity|]. split; [vm_compute; reflexivity|].
  apply (dsda_raises_only_KeyError climbing_solver tt (λ _, [3; 2]) None 10 5
           NameError
           (State [[(1, [4; 2]); (2, [3; 3]); (3, [2; 2]); (4, [3; 1])]]
              [Call 5 [3; 2] false] [[3; 2]] [8]%float));
    [reflexivity|vm_compute; reflexivity].
Defined.

Lemma dsda_stops_at_local_minimum_witness :
  length ((λ _ : Z, [3; 1]) 5) = 2%nat ∧
  dsda example_solver tt (λ _, [3; 1]) (Some 5) 10 5 "2" initial_state
  = (Done [[3; 1]; [4; 1]; [5; 1]; [5; 2]; [5; 3]; [5; 4]; [5; 5]],
     State [[(1, [4; 1]); (2, [3; 2]); (3, [2; 1])];
            [(2, [5; 2]); (3, [4; 1])]; [(4, [5; 4])]]
           [Call 5 [3; 1] false; Call 5 [4; 1] true; Call 5 [3; 2] true;
            Call 5 [2; 1] true; Call 5 [5; 1] true; Call 5 [5; 2] true;
            Call 5 [4; 1] true; Call 5 [5; 3] true; Call 5 [5; 4] true;
            Call 5 [5; 5] true; Call 5 [5; 4] true]
           [[3; 1]; [4; 1]; [5; 1]; [5; 2]; [5; 3]; [5; 4]; [5; 5]]
           [6; 5; 4; 3; 2; 1; 0]%float) ∧
  [[3; 1]; [4; 1]; [5; 1]; [5; 2]; [5; 3]; [5; 4]; [5; 5]]
  = [[3; 1]; [4; 1]; [5; 1]; [5; 2]; [5; 3]; [5; 4]; [5; 5]] ∧
  ∃ p q, last [[3; 1]; [4; 1]; [5; 1]; [5; 2]; [5; 3]; [5; 4]; [5; 5]] = Some p ∧
    last [6; 5; 4; 3; 2; 1; 0]%float = Some q ∧
    feasible p = true ∧
    ∀ e, e ∈ unit_moves p → feasible e.2 = true →
      ¬ improving example_solver 5
          (sr_init (example_solver 5 [3; 1] false tt)) tol_default q e.2.
Proof.
  split; [reflexivity|]. split; [vm_compute; reflexivity|].
  apply (dsda_stops_at_local_minimum example_solver tt (λ _, [3; 1]) 5 10 5
           [[3; 1]; [4; 1]; [5; 1]; [5; 2]; [5; 3]; [5; 4]; [5; 5]]
           (State [[(1, [4; 1]); (2, [3; 2]); (3, [2; 1])];
                   [(2, [5; 2]); (3, [4; 1])]; [(4, [5; 4])]]
              [Call 5 [3; 1] false; Call 5 [4; 1] true; Call 5 [3; 2] true;
               Call 5 [2; 1] true; Call 5 [5; 1] true; Call 5 [5; 2] true;
               Call 5 [4; 1] true; Call 5 [5; 3] true; Call 5 [5; 4] true;
               Call 5 [5; 5] true; Call 5 [5; 4] true]
              [[3; 1]; [4; 1]; [5; 1]; [5; 2]; [5; 3]; [5; 4]; [5; 5]]
              [6; 5; 4; 3; 2; 1; 0]%float));
    [reflexivity|vm_compute; reflexivity].
Defined.

Lemma dsda_infeasible_start_witness :
  length ((λ _ : Z, [6; 1]) 6) = 2%nat ∧
  feasible ((λ _ : Z, [6; 1]) 6) = false ∧
  dsda example_solver tt (λ _, [6; 1]) (Some 6) 1 6 "2" initial_state
  = (Exn KeyError,
     State [filter (λ e, feasible e.2 = true) (unit_moves [6; 1])]
           [Call 6 [6; 1] false] [[6; 1]]
           [sr_obj (example_solver 6 [6; 1] false tt)]).
Proof.
  split; [reflexivity|]. split; [reflexivity|].
  apply (dsda_infeasible_start example_solver tt (λ _, [6; 1]) (Some 6) 0 6);
    reflexivity.
Defined.

Lemma dsda_unsupported_k_witness :
  "3"%string ≠ "2"%string ∧
  dsda example_solver tt (λ _, [3; 1]) (Some 5) 1 5 "3" initial_state
  = (Exn NameError,
     State [] [Call 5 [3; 1] false] [[3; 1]]
           [sr_obj (example_solver 5 [3; 1] false tt)]).
Proof.
  assert ("3"%string ≠ "2"%string) as Hk by discriminate.
  split; [exact Hk|].
  exact (dsda_unsupported_k example_solver tt (λ _, [3; 1]) (Some 5) 0 5 "3" Hk).
Defined.

End SearchFacts.

(** ** What the scanner returns beside the entries *)

Module ScannerFacts.
Import Reformulation ReformulationFacts.

#[local] Arguments make_entry : simpl never.
#[local] Arguments scan_family : simpl never.

Lemma expand_bounds_slots (bound : Entry → Z) rd :
  expand_bounds bound rd = bound <$> slots rd.
Proof.
  unfold expand_bounds, slots. generalize (dict_values rd). intros es.
  assert (∀ acc, foldl (λ acc e, foldl (λ acc' (_ : nat), acc' ++ [bound e]) acc
                                   (range (exactly_number e))) acc es
                 = acc ++ (bound <$> (es ≫= λ e, replicate (Z.to_nat (exactly_number e)) e)))
    as Hgen; [|apply (Hgen [])].
  induction es as [|e es IH]; intros acc; cbn; [by rewrite app_nil_r|].
  rewrite IH, fmap_app, app_assoc. f_equal.
  unfold range. generalize (Z.to_nat (exactly_number e)). intros m.
  generalize 0%nat. revert acc.
  induction m as [|m IHm]; intros acc s; cbn; [by rewrite app_nil_r|].
  rewrite IHm. by rewrite <- app_assoc.
Qed.

Lemma sum_list_Z_from (l : list Z) a : foldl Z.add a l = a + foldl Z.add 0 l.
Proof.
  revert a. induction l as [|x l IH]; intros a; cbn [foldl]; [lia|].
  rewrite (IH (a + x)), (IH (0 + x)). lia.
Qed.

Lemma slots_length (es : list Entry) :
  Forall (λ e, 0 ≤ exactly_number e) es →
  Z.of_nat (length (es ≫= λ e, replicate (Z.to_nat (exactly_number e)) e))
  = sum_list_Z (exactly_number <$> es).
Proof.
  unfold sum_list_Z. induction 1 as [|e es He _ IH]; cbn; [done|].
  rewrite length_app, length_replicate, sum_list_Z_from. lia.
Qed.

(** X10. The bounds that [get_external_information] returns are those of the
    positions of [x] that [external_ref] reads: one pair of bounds for each
    repetition of each entry, in the order of the entries; every lower bound
    is [1] and the upper bound of a position is the number of Booleans of
    its entry; the number of external variables is the sum of the
    [exactly_number]s and, when none is negative, the length of the two
    lists; a vector of this length within the bounds fits the entries. *)
Theorem bounds_follow_slots constraints Ext_Ref rd n lbs ubs :
  get_external_information constraints Ext_Ref = Ok (rd, n, lbs, ubs) →
  lbs = replicate (length (slots rd)) 1 ∧
  ubs = (λ e, Z.of_nat (length (Boolean_vars e))) <$> slots rd ∧
  n = sum_list_Z (exactly_number <$> dict_values rd) ∧
  (Forall (λ e, 0 ≤ exactly_number e) (dict_values rd) →
   n = Z.of_nat (length lbs)) ∧
  (∀ x, length x = length lbs →
     (∀ p v lo hi, x !! p = Some v → lbs !! p = Some lo → ubs !! p = Some hi →
        lo ≤ v ≤ hi) →
     valid_from x 0 (slots rd)).
Proof.
  intros Hget. pose proof (get_external_information_wf _ _ _ _ _ _ Hget) as Hwf.
  unfold get_external_information in Hget.
  destruct (foldM _ _ constraints) as [st|]; cbn in Hget; [|done].
  injection Hget as <- <- <- <-.
  set (rd := reformulation_dict st) in *.
  assert (Forall (entry_wf (index_roles Ext_Ref)) (slots rd)) as Hslots.
  { apply Forall_forall. intros e He. rewrite Forall_forall in Hwf.
    apply Hwf. apply list_elem_of_lookup in He as [p Hp].
    by eapply slots_entry. }
  assert (expand_bounds Ext_var_lower_bound rd = replicate (length (slots rd)) 1)
    as Hlb.
  { rewrite expand_bounds_slots. clear -Hslots.
    induction Hslots as [|e es (fr & _ & _ & _ & _ & _ & Hlo & _) _ IH];
      cbn; [done|]. by rewrite Hlo, IH. }
  assert (expand_bounds Ext_var_upper_bound rd
          = (λ e, Z.of_nat (length (Boolean_vars e))) <$> slots rd) as Hub.
  { rewrite expand_bounds_slots. clear -Hslots.
    induction Hslots as [|e es (fr & _ & _ & _ & _ & _ & _ & Hhi) _ IH];
      cbn; [done|]. by rewrite Hhi, IH. }
  rewrite Hlb, Hub. split_and!; [done|done|done| |].
  - intros Hnn. rewrite length_replicate. symmetry. by apply slots_length.
  - rewrite length_replicate. intros x Hlen Hx p e He.
    destruct (lookup_lt_is_Some_2 x p) as [v Hv].
    { rewrite Hlen. by eapply lookup_lt_Some. }
    exists v. split; [done|].
    apply (Hx p v 1 (Z.of_nat (length (Boolean_vars e)))); [done| |].
    + apply lookup_replicate_2. by eapply lookup_lt_Some.
    + by rewrite list_lookup_fmap, He.
Qed.

Lemma bounds_follow_slots_witness :
  get_external_information shared_constraints [(YF_family, "N")]
    = Ok (shared_map, 2, [1; 1], [2; 2]) ∧
  [1; 1] = replicate (length (slots shared_map)) 1 ∧
  [2; 2] = (λ e, Z.of_nat (length (Boolean_vars e))) <$> slots shared_map ∧
  2 = sum_list_Z (exactly_number <$> dict_values shared_map) ∧
  (Forall (λ e, 0 ≤ exactly_number e) (dict_values shared_map) →
   2 = Z.of_nat (length [1; 1])) ∧
  (∀ x, length x = length [1; 1] →
     (∀ p v lo hi, x !! p = Some v → [1; 1] !! p = Some lo →
        [2; 2] !! p = Some hi → lo ≤ v ≤ hi) →
     valid_from x 0 (slots shared_map)).
Proof.
  split; [vm_compute; reflexivity|].
  apply (bounds_follow_slots shared_constraints [(YF_family, "N"%string)]
           shared_map 2 [1; 1] [2; 2]).
  vm_compute; reflexivity.
Defined.

Lemma index_roles_families Ext_Ref : (index_roles Ext_Ref).*1 = Ext_Ref.*1.
Proof.
  unfold index_roles.
  destruct (mapM _ Ext_Ref) as [roles|] eqn:Hm.
  - apply mapM_Some in Hm. induction Hm as [|[fam rs] fr l k Hfr _ IH]; [done|].
    cbn. f_equal; [|done].
    destruct (roles_of_sets fam rs); cbn in Hfr; by simplify_eq.
  - rewrite <- list_fmap_compose. apply list_fmap_ext. by intros _ [fam rs] _.
Qed.

Lemma scan_family_step n args st fr st' :
  scan_family n args st fr = Ok st' →
  st' = st ∨
  ∃ e, make_entry fr.2 n args = Ok e ∧
    Forall (λ x, bv_component x = fam_name fr.1) args ∧
    st' = {| count := count st + 1;
             reformulation_dict := dict_set (reformulation_dict st) (count st) e |}.
Proof.
  unfold scan_family.
  case_bool_decide as Hargs; [|intros [= <-]; by left].
  case_decide.
  - destruct (mapM _ _) as [verification|]; cbn; [|done].
    case_bool_decide; [|intros [= <-]; by left].
    destruct (make_entry _ _ _) as [e|] eqn:He; cbn; [|done].
    intros [= <-]. right. by exists e.
  - destruct (make_entry _ _ _) as [e|] eqn:He; cbn; [|done].
    intros [= <-]. right. by exists e.
Qed.

Lemma numbered_fresh (rd : dict Z Entry) :
  dict_keys rd = Z.of_nat <$> seq 1 (length rd) →
  Z.of_nat (length rd) + 1 ∉ dict_keys rd.
Proof.
  intros ->. intros (i & Hi & Hin%elem_of_seq)%list_elem_of_fmap. lia.
Qed.

Lemma numbered_snoc (rd : dict Z Entry) e :
  dict_keys rd = Z.of_nat <$> seq 1 (length rd) →
  dict_keys (rd ++ [(Z.of_nat (length rd) + 1, e)])
  = Z.of_nat <$> seq 1 (length (rd ++ [(Z.of_nat (length rd) + 1, e)])).
Proof.
  intros Hk. unfold dict_keys in *. rewrite fmap_app, Hk, length_app. cbn.
  rewrite Nat.add_1_r, seq_S, fmap_app. cbn. do 3 f_equal. lia.
Qed.

(** What the scan keeps true of [count] and [reformulation_dict]. *)
Lemma scan_numbered (constraints : list LogicalBody)
    (roles : list (BooleanFamily * Roles)) cs st st' :
  foldM (scan_constraint roles) st cs = Ok st' →
  (∀ c, c ∈ cs → c ∈ constraints) →
  count st = Z.of_nat (length (reformulation_dict st)) + 1 →
  dict_keys (reformulation_dict st)
    = Z.of_nat <$> seq 1 (length (reformulation_dict st)) →
  Forall (λ e, ∃ c fam, c ∈ constraints ∧ fam ∈ roles.*1 ∧ stems_from e c fam)
         (dict_values (reformulation_dict st)) →
  count st' = Z.of_nat (length (reformulation_dict st')) + 1 ∧
  dict_keys (reformulation_dict st')
    = Z.of_nat <$> seq 1 (length (reformulation_dict st')) ∧
  Forall (λ e, ∃ c fam, c ∈ constraints ∧ fam ∈ roles.*1 ∧ stems_from e c fam)
         (dict_values (reformulation_dict st')).
Proof.
  revert st. induction cs as [|c cs IH]; intros st; cbn.
  { intros [= <-]. done. }
  destruct (scan_constraint roles st c) as [st1|] eqn:H1; cbn; [|done].
  intros Hrest Hsub Hc Hk Hall.
  apply (IH st1 Hrest); [intros; apply Hsub; by right|..];
    destruct c as [n args|name]; cbn in H1; try (by simplify_eq).
  all: assert (∀ frs st0, (∀ fr, fr ∈ frs → fr ∈ roles) →
    foldM (scan_family n args) st0 frs = Ok st1 →
    count st0 = Z.of_nat (length (reformulation_dict st0)) + 1 →
    dict_keys (reformulation_dict st0)
      = Z.of_nat <$> seq 1 (length (reformulation_dict st0)) →
    Forall (λ e, ∃ c fam, c ∈ constraints ∧ fam ∈ roles.*1 ∧ stems_from e c fam)
           (dict_values (reformulation_dict st0)) →
    count st1 = Z.of_nat (length (reformulation_dict st1)) + 1 ∧
    dict_keys (reformulation_dict st1)
      = Z.of_nat <$> seq 1 (length (reformulation_dict st1)) ∧
    Forall (λ e, ∃ c fam, c ∈ constraints ∧ fam ∈ roles.*1 ∧ stems_from e c fam)
           (dict_values (reformulation_dict st1))) as Hgen.
  1,3,5: (induction frs as [|fr frs IHf]; intros st0 Hfrs; cbn;
    [by intros [= <-]|];
    destruct (scan_family n args st0 fr) as [st2|] eqn:H2; cbn; [|done];
    intros Hrest' Hc0 Hk0 Hall0;
    apply (IHf st2); [intros; apply Hfrs; by right|done|..];
    apply scan_family_step in H2 as [->|(e & He & Hargs & ->)]; try done;
    cbn [count reformulation_dict];
    rewrite Hc0, dict_set_fresh by (by apply numbered_fresh);
    [rewrite length_app; cbn; lia
    |by apply numbered_snoc
    |unfold dict_values; rewrite fmap_app; apply Forall_app; split; [done|];
     apply Forall_singleton; cbn;
     apply make_entry_spec in He as (Hn & Hperm & _);
     exists (Exactly n args), fr.1; split_and!;
       [apply Hsub; left
       |apply list_elem_of_fmap; exists fr; split; [done|apply Hfrs; left]
       |by exists n, args]]).
  all: by apply (Hgen roles st).
Qed.

(** X11. The entries that [get_external_information] returns are numbered
    [1, 2, ...] in the order of their creation, and each stems from one
    [exactly] constraint of the model and one family of [Ext_Ref]: its
    [exactly_number] is that of the constraint and its Booleans are the
    arguments of the constraint, rearranged, all of that family. *)
Theorem entries_numbered_from_constraints constraints Ext_Ref rd n lbs ubs :
  get_external_information constraints Ext_Ref = Ok (rd, n, lbs, ubs) →
  dict_keys rd = Z.of_nat <$> seq 1 (length rd) ∧
  ∀ e, e ∈ dict_values rd →
    ∃ c fam, c ∈ constraints ∧ fam ∈ Ext_Ref.*1 ∧ stems_from e c fam.
Proof.
  unfold get_external_information.
  destruct (foldM _ _ constraints) as [st|] eqn:Hst; cbn; [|done].
  intros [= <- _ _ _].
  destruct (scan_numbered constraints (index_roles Ext_Ref) constraints _ _ Hst)
    as (_ & Hk & Hall); [done|done|done|constructor|].
  split; [done|]. rewrite index_roles_families in Hall.
  by apply Forall_forall.
Qed.

Lemma entries_numbered_from_constraints_witness :
  get_external_information shared_constraints [(YF_family, "N")]
    = Ok (shared_map, 2, [1; 1], [2; 2]) ∧
  dict_keys shared_map = Z.of_nat <$> seq 1 (length shared_map) ∧
  ∀ e, e ∈ dict_values shared_map →
    ∃ c fam, c ∈ shared_constraints ∧
      fam ∈ [(YF_family, "N"%string)].*1 ∧ stems_from e c fam.
Proof.
  split; [vm_compute; reflexivity|].
  apply (entries_numbered_from_constraints shared_constraints
           [(YF_family, "N"%string)] shared_map 2 [1; 1] [2; 2]).
  vm_compute; reflexivity.
Defined.

(** ** Families over one set of integers *)

#[local] Arguments sorted : simpl never.
#[local] Arguments ref_key : simpl never.

(** Keys that are integers. *)
Lemma insert_by_key_int {A : Type} (z : Z) (a : A) (l : list (PyIndex * A)) :
  Forall (λ ky, ∃ y, ky.1 = Scalar (IInt y)) l →
  ∃ r, insert_by_key (Scalar (IInt z), a) l = Ok r ∧
       Forall (λ ky, ∃ y, ky.1 = Scalar (IInt y)) r.
Proof.
  induction 1 as [|[k b] l [y Hy] Hl IH]; cbn.
  - eexists. split; [done|]. constructor; [by eexists|done].
  - cbn in Hy. subst k. cbn.
    destruct (y <? z).
    + destruct IH as (r & -> & Hr). cbn. eexists. split; [done|].
      constructor; [by eexists|done].
    + eexists. split; [done|].
      constructor; [by eexists|]. constructor; [by eexists|done].
Qed.

Lemma sort_keyed_int {A : Type} (l : list (PyIndex * A)) :
  Forall (λ ky, ∃ y, ky.1 = Scalar (IInt y)) l →
  ∃ r, sort_keyed l = Ok r ∧ Forall (λ ky, ∃ y, ky.1 = Scalar (IInt y)) r.
Proof.
  induction 1 as [|[k a] l [y Hy] Hl IH]; cbn.
  - by eexists.
  - destruct IH as (s & -> & Hs). cbn. cbn in Hy. subst k.
    by apply insert_by_key_int.
Qed.

Lemma mapM_Res_total {A B : Type} (f : A → Res B) (g : A → B) (l : list A) :
  Forall (λ x, f x = Ok (g x)) l → mapM f l = Ok (g <$> l).
Proof. induction 1 as [|x l Hx _ IH]; cbn; [done|]. by rewrite Hx, IH. Qed.

Lemma make_entry_int n (args : list BooleanVar) :
  Forall (λ b, ∃ z, bv_index b = Scalar (IInt z)) args →
  ∃ e, make_entry (Build_Roles [0%nat] []) n args = Ok e.
Proof.
  intros Hint. unfold make_entry.
  assert (∀ x, ref_key (Build_Roles [0%nat] []) x = Ok (bv_index x)) as Hkey
    by done.
  unfold sorted.
  rewrite (mapM_Res_total _ (λ x, (bv_index x, x))); last first.
  { apply Forall_forall. intros x _. by rewrite Hkey. }
  cbn [mbind Res_bind].
  destruct (sort_keyed_int ((λ x, (bv_index x, x)) <$> args)) as (s & -> & _).
  { apply Forall_fmap. eapply Forall_impl; [done|]. intros x [z Hz]. by exists z. }
  cbn [mbind Res_bind].
  rewrite (mapM_Res_total _ bv_index); [by eexists|].
  apply Forall_forall. intros x _. by rewrite Hkey.
Qed.

Lemma scan_family_int fam n args st :
  (matches_family fam (Exactly n args) = true →
   Forall (λ b, ∃ z, bv_index b = Scalar (IInt z)) args) →
  ∃ st', scan_family n args st (fam, Build_Roles [0%nat] []) = Ok st' ∧
    if matches_family fam (Exactly n args)
    then ∃ e, st' = {| count := count st + 1;
                       reformulation_dict :=
                         dict_set (reformulation_dict st) (count st) e |}
    else st' = st.
Proof.
  intros Hint. unfold scan_family. cbn [fst snd matches_family] in *.
  case_bool_decide as Hargs; [|by eexists].
  rewrite decide_False by (cbn; lia).
  destruct (make_entry_int n args (Hint eq_refl)) as [e ->]. cbn.
  eexists. split; [done|]. by exists e.
Qed.

Lemma scan_int fam (cs : list LogicalBody) st :
  (∀ n args, Exactly n args ∈ cs →
     matches_family fam (Exactly n args) = true →
     Forall (λ b, ∃ z, bv_index b = Scalar (IInt z)) args) →
  count st = Z.of_nat (length (reformulation_dict st)) + 1 →
  dict_keys (reformulation_dict st)
    = Z.of_nat <$> seq 1 (length (reformulation_dict st)) →
  ∃ st', foldM (scan_constraint [(fam, Build_Roles [0%nat] [])]) st cs = Ok st' ∧
    length (reformulation_dict st')
    = (length (reformulation_dict st)
       + length (filter (λ c, matches_family fam c = true) cs))%nat.
Proof.
  revert st. induction cs as [|c cs IH]; intros st Hint Hc Hk.
  { exists st. cbn. split; [done|]. lia. }
  assert (∀ n args, Exactly n args ∈ cs →
            matches_family fam (Exactly n args) = true →
            Forall (λ b, ∃ z, bv_index b = Scalar (IInt z)) args) as Hint'.
  { intros n args Hin. apply Hint. by right. }
  cbn [foldM]. rewrite filter_cons.
  destruct c as [n args|name]; cbn [scan_constraint foldM].
  - destruct (scan_family_int fam n args st) as (st1 & -> & Hst1).
    { apply Hint. left. }
    cbn [mbind Res_bind].
    destruct (matches_family fam (Exactly n args)) eqn:Hm.
    + destruct Hst1 as [e ->].
      destruct (IH {| count := count st + 1;
                      reformulation_dict :=
                        dict_set (reformulation_dict st) (count st) e |})
        as (st' & -> & Hlen); [done| | |].
      * cbn. rewrite Hc, dict_set_fresh by (by apply numbered_fresh).
        rewrite length_app. cbn. lia.
      * cbn. rewrite Hc, dict_set_fresh by (by apply numbered_fresh).
        by apply numbered_snoc.
      * exists st'. split; [done|]. rewrite Hlen. cbn.
        rewrite Hc, dict_set_fresh by (by apply numbered_fresh).
        rewrite decide_True by done. rewrite length_app. cbn. lia.
    + subst st1. destruct (IH st) as (st' & -> & Hlen); [done..|].
      exists st'. split; [done|]. rewrite Hlen.
      by rewrite decide_False by done.
  - cbn [mbind Res_bind]. destruct (IH st) as (st' & -> & Hlen); [done..|].
    exists st'. split; [done|]. rewrite Hlen.
    by rewrite decide_False by done.
Qed.

(** X22. For one family of Boolean variables over a single set, referred to
    that set, whose members in the constraints have integer indices:
    [get_external_information] never raises, and it returns one entry for
    each [exactly] constraint whose arguments all belong to the family, and
    no other entry. *)
Theorem scanner_total_on_integer_family constraints fam :
  set_sets (fam_index_set fam) = None →
  (∀ n args, Exactly n args ∈ constraints →
     matches_family fam (Exactly n args) = true →
     Forall (λ b, ∃ z, bv_index b = Scalar (IInt z)) args) →
  ∃ rd n lbs ubs,
    get_external_information constraints
      [(fam, set_name (fam_index_set fam))] = Ok (rd, n, lbs, ubs) ∧
    length rd = length (filter (λ c, matches_family fam c = true) constraints).
Proof.
  intros Hsets Hint. unfold get_external_information.
  assert (index_roles [(fam, set_name (fam_index_set fam))]
          = [(fam, Build_Roles [0%nat] [])]) as ->.
  { unfold index_roles. cbn. unfold roles_of_sets. rewrite Hsets. cbn.
    unfold roles_of_set. by rewrite decide_True. }
  destruct (scan_int fam constraints {| count := 1; reformulation_dict := [] |})
    as (st & -> & Hlen); [done..|].
  cbn [mbind Res_bind]. eexists _, _, _, _. split; [done|]. exact Hlen.
Qed.

Lemma scanner_total_on_integer_family_witness :
  set_sets (fam_index_set YF_family) = None ∧
  (∀ n args, Exactly n args ∈ shared_constraints →
     matches_family YF_family (Exactly n args) = true →
     Forall (λ b, ∃ z, bv_index b = Scalar (IInt z)) args) ∧
  ∃ rd n lbs ubs,
    get_external_information shared_constraints
      [(YF_family, set_name (fam_index_set YF_family))] = Ok (rd, n, lbs, ubs) ∧
    length rd
    = length (filter (λ c, matches_family YF_family c = true) shared_constraints).
Proof.
  assert (set_sets (fam_index_set YF_family) = None) as Hsets by reflexivity.
  assert (∀ n args, Exactly n args ∈ shared_constraints →
            matches_family YF_family (Exactly n args) = true →
            Forall (λ b, ∃ z, bv_index b = Scalar (IInt z)) args) as Hint.
  { intros n args Hin _. unfold shared_constraints in Hin.
    repeat (apply elem_of_cons in Hin as [[= -> ->]|Hin]);
      [..|by apply elem_of_nil in Hin];
      repeat constructor; by eexists. }
  split_and!; [exact Hsets|exact Hint|].
  exact (scanner_total_on_integer_family shared_constraints YF_family Hsets Hint).
Defined.

End ScannerFacts.

(** ** The fixing operation on any model and any vector *)

Module FixingFacts.
Import Reformulation ReformulationFacts.

#[local] Arguments fix_selected : simpl never.
#[local] Arguments fix_unfixed : simpl never.
#[local] Arguments fix_if_selected : simpl never.
#[local] Arguments fix_if_unfixed : simpl never.
#[local] Arguments fix_slot : simpl never.

(** The first pass over one slot, for any value at its position. *)
Lemma fix_selected_any x pos e σ v :
  x !! pos = Some v →
  ∃ σ', fix_selected x pos e σ = Ok σ' ∧
    (∀ b, selects e v b → σ' = fix_var b true σ) ∧
    ((∀ b, ¬ selects e v b) → σ' = σ).
Proof.
  intros Hx. unfold fix_selected.
  rewrite (fix_selected_loop x pos e σ v) by (done || lia).
  eexists. split; [done|]. split.
  - intros b [Hv Hb]. pose proof (lookup_lt_Some _ _ _ Hb).
    rewrite decide_True by lia. by rewrite Hb.
  - intros Hn. case_decide as Hr; [|done].
    destruct (Boolean_vars e !! Z.to_nat (v - 1)) as [b|] eqn:Hb; [|done].
    destruct (Hn b). split; [lia|done].
Qed.

(** The first pass, for a vector with a value at every position read. *)
Lemma fix_true_loop_any x es pos σ :
  (pos + length es ≤ length x)%nat →
  ∃ σ1,
    foldM (fix_slot x) (pos, σ) es = Ok ((pos + length es)%nat, σ1) ∧
    (∀ b, selected_from x pos es b → σ1 b = fixed_to true) ∧
    (∀ b, ¬ selected_from x pos es b → σ1 b = σ b) ∧
    (∀ b, σ1 b = fixed_to true ∨ σ1 b = σ b).
Proof.
  revert pos σ. induction es as [|e es IH]; intros pos σ Hlen; cbn.
  - exists σ. rewrite Nat.add_0_r. split_and!; [done| |done|by right].
    intros b (p & e & v & ? & _). done.
  - cbn in Hlen.
    destruct (lookup_lt_is_Some_2 x pos) as [v Hv]; [lia|].
    rewrite fix_slot_eq.
    destruct (fix_selected_any x pos e σ v Hv) as (σ0 & -> & Hsel & Hnsel). cbn.
    destruct (IH (S pos) σ0) as (σ1 & -> & Hyes & Hno & Hor); [lia|].
    assert (∀ b, selects e v b → σ1 b = fixed_to true) as Hb0.
    { intros b Hs. destruct (Hor b) as [?| ->]; [done|].
      rewrite (Hsel b Hs). unfold fix_var. by rewrite decide_True. }
    assert (∀ b, (∀ b', selects e v b' → b' ≠ b) → σ0 b = σ b) as Hframe.
    { intros b Hb.
      destruct (decide (1 ≤ v)) as [Hv1|Hv1];
        [destruct (Boolean_vars e !! Z.to_nat (v - 1)) as [b'|] eqn:Hb'|].
      - rewrite (Hsel b') by done. unfold fix_var.
        rewrite decide_False; [done|]. intros ->. by apply (Hb b').
      - rewrite Hnsel; [done|]. intros b0 [_ ?]. congruence.
      - rewrite Hnsel; [done|]. intros b0 [? _]. lia. }
    exists σ1. split_and!.
    + f_equal. f_equal. lia.
    + intros b (p & e' & v' & He' & Hv' & Hs').
      destruct p as [|p].
      * cbn in He'. rewrite Nat.add_0_r in Hv'. simplify_eq. by apply Hb0.
      * apply Hyes. exists p, e', v'. split_and!; [done| |done].
        by replace (S pos + p)%nat with (pos + S p)%nat by lia.
    + intros b Hn. rewrite Hno.
      * apply Hframe. intros b' Hs' ->. apply Hn.
        exists 0%nat, e, v. by rewrite Nat.add_0_r.
      * intros (p & e' & v' & He' & Hv' & Hs'). apply Hn.
        exists (S p), e', v'. split_and!; [done| |done].
        by replace (pos + S p)%nat with (S pos + p)%nat by lia.
    + intros b. destruct (Hor b) as [?| ->]; [by left|].
      destruct (decide (1 ≤ v)) as [Hv1|Hv1];
        [destruct (Boolean_vars e !! Z.to_nat (v - 1)) as [b'|] eqn:Hb'|].
      * rewrite (Hsel b') by done. unfold fix_var.
        case_decide; [by left|by right].
      * right. rewrite Hnsel; [done|]. intros b0 [_ ?]. congruence.
      * right. rewrite Hnsel; [done|]. intros b0 [? _]. lia.
Qed.

(** The three passes on any model, for a vector long enough. *)
Lemma external_ref_general x rd σ le :
  (length (slots rd) ≤ length x)%nat →
  ∃ σ3, reaches_transformations σ x rd (Some le) σ3 ∧
    ∀ b, (∀ i, i ∈ le → i.2 ≠ b) →
      (selected_from x 0 (slots rd) b → σ3 b = fixed_to true) ∧
      (¬ selected_from x 0 (slots rd) b → b ∈ booleans_of (slots rd) →
       is_fixed σ b = false → σ3 b = fixed_to false) ∧
      (¬ selected_from x 0 (slots rd) b →
       b ∉ booleans_of (slots rd) ∨ is_fixed σ b = true → σ3 b = σ b).
Proof.
  intros Hlen. unfold reaches_transformations, external_ref.
  rewrite fix_true_slots.
  destruct (fix_true_loop_any x (slots rd) 0 σ Hlen) as (σ1 & -> & Hyes & Hno & _).
  cbn. rewrite fix_false_slots.
  destruct (fix_false_loop (slots rd) σ1) as (σ2 & -> & Hσ2). cbn.
  eexists. split; [done|]. intros b Hb.
  rewrite fix_dependent_frame by done.
  rewrite Hσ2. unfold is_fixed. split_and!.
  - intros Hsel. rewrite (Hyes b Hsel). cbn.
    rewrite decide_False; [done|]. by intros [_ ?].
  - intros Hn Hin Hf. rewrite (Hno b Hn). by rewrite decide_True.
  - intros Hn Hor. rewrite (Hno b Hn). rewrite decide_False; [done|].
    unfold is_fixed in Hor. intros [? ?]. destruct Hor; [done|congruence].
Qed.

(** X12. The three passes of [external_ref] on any model, for a vector
    with a value at every position read and whatever these values are:
    they complete and hand a model to the transformations, with which and
    with the printing loops the call goes on.  In the model handed over: a
    Boolean that a position selects is fixed [True], also when it was fixed
    before; a Boolean of the entries that no position selects is fixed
    [False] when it was not fixed and keeps its state when it was; all other
    Booleans keep their state (dependent variables apart). *)
Theorem external_ref_on_any_model x rd σ le :
  (length (slots rd) ≤ length x)%nat →
  ∃ σ3, reaches_transformations σ x rd (Some le) σ3 ∧
    ∀ b, (∀ i, i ∈ le → i.2 ≠ b) →
      (selected_from x 0 (slots rd) b → σ3 b = fixed_to true) ∧
      (¬ selected_from x 0 (slots rd) b → b ∈ booleans_of (slots rd) →
       is_fixed σ b = false → σ3 b = fixed_to false) ∧
      (¬ selected_from x 0 (slots rd) b →
       b ∉ booleans_of (slots rd) ∨ is_fixed σ b = true → σ3 b = σ b).
Proof. apply external_ref_general. Qed.

Lemma external_ref_on_any_model_witness :
  (length (slots shared_map) ≤ length [2; 2])%nat ∧
  ∃ σ3, reaches_transformations fresh_store [2; 2] shared_map (Some []) σ3 ∧
    ∀ b, (∀ i : (store → bool) * BooleanVar, i ∈ [] → i.2 ≠ b) →
      (selected_from [2; 2] 0 (slots shared_map) b → σ3 b = fixed_to true) ∧
      (¬ selected_from [2; 2] 0 (slots shared_map) b →
       b ∈ booleans_of (slots shared_map) →
       is_fixed fresh_store b = false → σ3 b = fixed_to false) ∧
      (¬ selected_from [2; 2] 0 (slots shared_map) b →
       b ∉ booleans_of (slots shared_map) ∨ is_fixed fresh_store b = true →
       σ3 b = fresh_store b).
Proof.
  assert (length (slots shared_map) ≤ length [2; 2])%nat as Hlen
    by (vm_compute; lia).
  split; [exact Hlen|].
  exact (external_ref_on_any_model [2; 2] shared_map fresh_store [] Hlen).
Defined.

(** Whether a position of [x] selects [b] can be decided. *)
Lemma classic_selected x es b :
  selected_from x 0 es b ∨ ¬ selected_from x 0 es b.
Proof.
  assert (∀ pos, selected_from x pos es b ∨ ¬ selected_from x pos es b) as Hgen;
    [|apply Hgen].
  induction es as [|e es IH]; intros pos.
  { right. intros (p & e & v & ? & _). done. }
  assert (selected_from x (S pos) es b → selected_from x pos (e :: es) b) as Hup.
  { intros (p & e' & v & He' & Hv & Hs). exists (S p), e', v.
    split_and!; [done| |done].
    by replace (pos + S p)%nat with (S pos + p)%nat by lia. }
  destruct (IH (S pos)) as [Hs|Hn]; [left; by apply Hup|].
  assert ((∃ v, x !! pos = Some v ∧ selects e v b) ∨
          ¬ (∃ v, x !! pos = Some v ∧ selects e v b)) as [(v & Hv & Hs)|Hn0].
  { destruct (x !! pos) as [v|]; [|right; by intros (v & ? & _)].
    destruct (decide (1 ≤ v)) as [Hv1|Hv1];
      [|right; intros (v' & [= <-] & ? & _); lia].
    destruct (decide (Boolean_vars e !! Z.to_nat (v - 1) = Some b)) as [Hb|Hb].
    - left. by exists v.
    - right. intros (v' & [= <-] & _ & ?). done. }
  - left. exists 0%nat, e, v. by rewrite Nat.add_0_r.
  - right. intros (p & e' & v & He' & Hv & Hs). destruct p as [|p].
    + cbn in He'. rewrite Nat.add_0_r in Hv. simplify_eq. apply Hn0. by exists v.
    + apply Hn. exists p, e', v. split_and!; [done| |done].
      by replace (S pos + p)%nat with (pos + S p)%nat by lia.
Qed.

(** No value of [x] selects a Boolean of its entry. *)
Lemma out_of_range_selects_nothing x es :
  (∀ p e v, es !! p = Some e → x !! p = Some v →
     v < 1 ∨ Z.of_nat (length (Boolean_vars e)) < v) →
  ∀ b, ¬ selected_from x 0 es b.
Proof.
  intros Hout b (p & e & v & He & Hv & Hv1 & Hb). cbn in Hv.
  pose proof (lookup_lt_Some _ _ _ Hb).
  destruct (Hout p e v He Hv); lia.
Qed.

(** X13. [external_ref] does not check the values of [x]: with every value
    outside [1..len(Boolean_vars)] of its entry, on a model where the
    Booleans of the entries are not fixed, the three passes complete, fix
    no Boolean [True] and fix every Boolean of the entries [False]; this
    is the model they hand to the transformations. *)
Theorem external_ref_out_of_range x rd σ :
  (length (slots rd) ≤ length x)%nat →
  (∀ p e v, slots rd !! p = Some e → x !! p = Some v →
     v < 1 ∨ Z.of_nat (length (Boolean_vars e)) < v) →
  (∀ b, b ∈ booleans_of (slots rd) → is_fixed σ b = false) →
  ∃ σ3, reaches_transformations σ x rd (Some []) σ3 ∧
    (∀ b, b ∈ booleans_of (slots rd) → σ3 b = fixed_to false) ∧
    (∀ b, b ∉ booleans_of (slots rd) → σ3 b = σ b).
Proof.
  intros Hlen Hout Hfresh.
  destruct (external_ref_general x rd σ [] Hlen) as (σ' & Hσ' & Hb).
  pose proof (out_of_range_selects_nothing x (slots rd) Hout) as Hn.
  exists σ'. split_and!; [done| |].
  - intros b Hin. destruct (Hb b) as (_ & Hfalse & _); [by intros i ?%elem_of_nil|].
    apply Hfalse; [apply Hn|done|by apply Hfresh].
  - intros b Hin. destruct (Hb b) as (_ & _ & Hkeep); [by intros i ?%elem_of_nil|].
    apply Hkeep; [apply Hn|by left].
Qed.

(** X14. A second call of [external_ref] does not undo the first.  On a
    model where the Booleans of the entries are not fixed, the passes of
    the call with [x1] hand a model to the transformations; from any model
    in which the Booleans of the entries have the states of that one (the
    model that the first call returns, when its transformations fix and
    unfix none of them), the passes of the call with [x2] complete, and in
    the model they hand over a Boolean of the entries is fixed [True] when
    [x1] or [x2] selects it and [False] otherwise. *)
Theorem external_ref_twice x1 x2 rd σ :
  (length (slots rd) ≤ length x1)%nat → (length (slots rd) ≤ length x2)%nat →
  (∀ b, b ∈ booleans_of (slots rd) → is_fixed σ b = false) →
  ∃ σ3,
    reaches_transformations σ x1 rd (Some []) σ3 ∧
    ∀ σ1, (∀ b, b ∈ booleans_of (slots rd) → σ1 b = σ3 b) →
      ∃ σ3',
        reaches_transformations σ1 x2 rd (Some []) σ3' ∧
        ∀ b, b ∈ booleans_of (slots rd) →
          (selected_from x1 0 (slots rd) b ∨ selected_from x2 0 (slots rd) b →
           σ3' b = fixed_to true) ∧
          (¬ selected_from x1 0 (slots rd) b →
           ¬ selected_from x2 0 (slots rd) b →
           σ3' b = fixed_to false).
Proof.
  intros Hlen1 Hlen2 Hfresh.
  destruct (external_ref_general x1 rd σ [] Hlen1) as (σ3 & Hσ3 & Hb1).
  exists σ3. split; [done|]. intros σ1 Hsame.
  destruct (external_ref_general x2 rd σ1 [] Hlen2) as (σ3' & Hσ3' & Hb2).
  exists σ3'. split; [done|]. intros b Hin.
  destruct (Hb1 b) as (Ht1 & Hf1 & _); [by intros i ?%elem_of_nil|].
  destruct (Hb2 b) as (Ht2 & _ & Hk2); [by intros i ?%elem_of_nil|].
  assert (is_fixed σ1 b = true) as Hfix1.
  { unfold is_fixed. rewrite (Hsame b Hin).
    destruct (classic_selected x1 (slots rd) b) as [Hs|Hs].
    - by rewrite (Ht1 Hs).
    - by rewrite (Hf1 Hs Hin (Hfresh b Hin)). }
  split.
  - intros [Hs1|Hs2].
    + destruct (classic_selected x2 (slots rd) b) as [Hs|Hs]; [by apply Ht2|].
      rewrite (Hk2 Hs) by (by right). rewrite (Hsame b Hin). by apply Ht1.
    + by apply Ht2.
  - intros Hn1 Hn2. rewrite (Hk2 Hn2) by (by right). rewrite (Hsame b Hin).
    by apply Hf1; [|done|apply Hfresh].
Qed.

Lemma shared_map_slots :
  slots shared_map = dict_values shared_map.
Proof. reflexivity. Qed.

Lemma external_ref_out_of_range_witness :
  (length (slots shared_map) ≤ length [0; 7])%nat ∧
  (∀ p e v, slots shared_map !! p = Some e → [0; 7] !! p = Some v →
     v < 1 ∨ Z.of_nat (length (Boolean_vars e)) < v) ∧
  (∀ b, b ∈ booleans_of (slots shared_map) → is_fixed fresh_store b = false) ∧
  ∃ σ3, reaches_transformations fresh_store [0; 7] shared_map (Some []) σ3 ∧
    (∀ b, b ∈ booleans_of (slots shared_map) → σ3 b = fixed_to false) ∧
    (∀ b, b ∉ booleans_of (slots shared_map) → σ3 b = fresh_store b).
Proof.
  assert (length (slots shared_map) ≤ length [0; 7])%nat as Hlen
    by (vm_compute; lia).
  assert (∀ p e v, slots shared_map !! p = Some e → [0; 7] !! p = Some v →
            v < 1 ∨ Z.of_nat (length (Boolean_vars e)) < v) as Hout.
  { rewrite shared_map_slots.
    intros [|[|p]] e v; cbn; intros [= <-] [= <-]; cbn; lia. }
  assert (∀ b, b ∈ booleans_of (slots shared_map) →
            is_fixed fresh_store b = false) as Hfresh by reflexivity.
  split_and!; [exact Hlen|exact Hout|exact Hfresh|].
  exact (external_ref_out_of_range [0; 7] shared_map fresh_store
           Hlen Hout Hfresh).
Defined.

Lemma external_ref_twice_witness :
  (length (slots shared_map) ≤ length [1; 1])%nat ∧
  (length (slots shared_map) ≤ length [2; 2])%nat ∧
  (∀ b, b ∈ booleans_of (slots shared_map) → is_fixed fresh_store b = false) ∧
  ∃ σ3,
    reaches_transformations fresh_store [1; 1] shared_map (Some []) σ3 ∧
    ∀ σ1, (∀ b, b ∈ booleans_of (slots shared_map) → σ1 b = σ3 b) →
      ∃ σ3',
        reaches_transformations σ1 [2; 2] shared_map (Some []) σ3' ∧
        ∀ b, b ∈ booleans_of (slots shared_map) →
          (selected_from [1; 1] 0 (slots shared_map) b ∨
           selected_from [2; 2] 0 (slots shared_map) b →
           σ3' b = fixed_to true) ∧
          (¬ selected_from [1; 1] 0 (slots shared_map) b →
           ¬ selected_from [2; 2] 0 (slots shared_map) b →
           σ3' b = fixed_to false).
Proof.
  assert (length (slots shared_map) ≤ length [1; 1])%nat as Hlen1
    by (vm_compute; lia).
  assert (length (slots shared_map) ≤ length [2; 2])%nat as Hlen2
    by (vm_compute; lia).
  assert (∀ b, b ∈ booleans_of (slots shared_map) →
            is_fixed fresh_store b = false) as Hfresh by reflexivity.
  split_and!; [exact Hlen1|exact Hlen2|exact Hfresh|].
  exact (external_ref_twice [1; 1] [2; 2] shared_map fresh_store
           Hlen1 Hlen2 Hfresh).
Defined.

(** ** Vectors that are too short or too long, and the default argument *)

Lemma fix_slot_app x extra pos σ e :
  (pos < length x)%nat →
  fix_slot (x ++ extra) (pos, σ) e = fix_slot x (pos, σ) e.
Proof.
  intros Hpos. rewrite !fix_slot_eq. unfold fix_selected.
  erewrite foldM_ext; [done|]. intros σ' k.
  unfold fix_if_selected, list_getitem. by rewrite lookup_app_l.
Qed.

Lemma fix_true_loop_app x extra es pos σ :
  (pos + length es ≤ length x)%nat →
  foldM (fix_slot (x ++ extra)) (pos, σ) es = foldM (fix_slot x) (pos, σ) es.
Proof.
  revert pos σ. induction es as [|e es IH]; intros pos σ Hlen; cbn; [done|].
  cbn in Hlen. rewrite fix_slot_app by lia. rewrite fix_slot_eq.
  destruct (fix_selected x pos e σ) as [σ'|]; cbn; [|done].
  apply IH. lia.
Qed.

(** X15. Values of [x] beyond the last position that the entries use are
    never read: [external_ref] gives the same result, or raises the same
    exception, with and without them, whatever the transformations do. *)
Theorem external_ref_ignores_extra transformations x extra rd σ le :
  (length (slots rd) ≤ length x)%nat →
  external_ref transformations σ (x ++ extra) rd le
  = external_ref transformations σ x rd le.
Proof.
  intros Hlen. unfold external_ref. rewrite !fix_true_slots.
  by rewrite fix_true_loop_app.
Qed.

Lemma external_ref_ignores_extra_witness :
  (length (slots shared_map) ≤ length [2; 1])%nat ∧
  external_ref Ok fresh_store ([2; 1] ++ [9; 9]) shared_map (Some [])
  = external_ref Ok fresh_store [2; 1] shared_map (Some []).
Proof.
  assert (length (slots shared_map) ≤ length [2; 1])%nat as Hlen
    by (vm_compute; lia).
  split; [exact Hlen|].
  exact (external_ref_ignores_extra Ok [2; 1] [9; 9] shared_map fresh_store
           (Some []) Hlen).
Defined.

Lemma fix_if_selected_short x pos e σ k :
  x !! pos = None → fix_if_selected x pos e σ k = Raise IndexError.
Proof. intros Hx. unfold fix_if_selected, list_getitem. by rewrite Hx. Qed.

(** X16. A vector [x] that is too short: when the entry of position [len(x)]
    has a Boolean, [external_ref] raises [IndexError], whatever the model,
    [logic_expr] and the transformations are. *)
Theorem external_ref_short_vector transformations x rd σ le e :
  slots rd !! length x = Some e → Boolean_vars e ≠ [] →
  external_ref transformations σ x rd le = Raise IndexError.
Proof.
  intros He Hne. unfold external_ref. rewrite fix_true_slots.
  rewrite <- (take_drop_middle _ _ _ He), foldM_app.
  pose proof (lookup_lt_Some _ _ _ He) as Hlt.
  destruct (fix_true_loop_any x (take (length x) (slots rd)) 0 σ)
    as (σ1 & -> & _).
  { rewrite length_take. lia. }
  cbn [mbind Res_bind foldM]. rewrite fix_slot_eq.
  rewrite length_take, Nat.min_l by lia. cbn [Nat.add].
  unfold fix_selected.
  destruct (Boolean_vars e) as [|b bs] eqn:Hbs; [done|].
  cbn [length seq foldM].
  rewrite fix_if_selected_short by (apply lookup_ge_None_2; lia). done.
Qed.

Lemma external_ref_short_vector_witness :
  slots shared_map !! length [2] = Some
    {| exactly_number := 1;
       Boolean_vars := [YF 2; YF 3];
       Boolean_vars_names := ["YF[2]"; "YF[3]"];
       Boolean_vars_ordered_index := [Scalar (IInt 2); Scalar (IInt 3)];
       Ext_var_lower_bound := 1;
       Ext_var_upper_bound := 2 |} ∧
  [YF 2; YF 3] ≠ [] ∧
  external_ref Ok fresh_store [2] shared_map (Some []) = Raise IndexError.
Proof.
  split; [reflexivity|]. split; [discriminate|].
  apply (external_ref_short_vector Ok [2] shared_map fresh_store (Some [])
           {| exactly_number := 1;
              Boolean_vars := [YF 2; YF 3];
              Boolean_vars_names := ["YF[2]"; "YF[3]"];
              Boolean_vars_ordered_index := [Scalar (IInt 2); Scalar (IInt 3)];
              Ext_var_lower_bound := 1;
              Ext_var_upper_bound := 2 |});
    [reflexivity|discriminate].
Defined.

(** X17. [external_ref] called without [logic_expr], whose default is
    [None]: for a vector with a value at every position read, the first two
    passes run and the loop over [logic_expr] raises [TypeError]; the call
    never returns, whatever the transformations are. *)
Theorem external_ref_default_logic_expr transformations x rd σ :
  (length (slots rd) ≤ length x)%nat →
  external_ref transformations σ x rd None = Raise TypeError.
Proof.
  intros Hlen. unfold external_ref. rewrite fix_true_slots.
  destruct (fix_true_loop_any x (slots rd) 0 σ Hlen) as (σ1 & -> & _).
  cbn. rewrite fix_false_slots.
  destruct (fix_false_loop (slots rd) σ1) as (σ2 & -> & _). done.
Qed.

Lemma external_ref_default_logic_expr_witness :
  (length (slots shared_map) ≤ length [2; 1])%nat ∧
  external_ref Ok fresh_store [2; 1] shared_map None = Raise TypeError.
Proof.
  assert (length (slots shared_map) ≤ length [2; 1])%nat as Hlen
    by (vm_compute; lia).
  split; [exact Hlen|].
  exact (external_ref_default_logic_expr Ok [2; 1] shared_map fresh_store Hlen).
Defined.

End FixingFacts.

(** ** The small batch problem: every variable, short vectors, and the
    generic reformulation *)

Module BatchFacts.
Import Reformulation ReformulationFacts FixingFacts SmallBatch SmallBatchFacts.

(** X18. The fixing of the small batch problem on any model, for a vector
    with a value for each of the three stages: the call returns normally
    and, for each stage [j] with value [xp] and each [k] in [1..3], [Y[k, j]]
    and the indicator of [Y_exists[k, j]] are fixed to the truth value of
    [k = xp] and the indicator of [Y_not_exists[k, j]] to its negation,
    whatever their state was; a value outside [1..3] fixes all three [Y] of
    its stage [False]; every other variable keeps its state. *)
Theorem small_batch_fixes_every_variable (σ : SmallBatch.store) x0 x1 x2 rest :
  ∃ σ', SmallBatch.external_ref σ (x0 :: x1 :: x2 :: rest) = Ok σ' ∧
    (∀ p j xp k, set_j !! p = Some j → [x0; x1; x2] !! p = Some xp → k ∈ set_k →
       σ' (Y k j) = fixed_to (bool_decide (k = xp)) ∧
       σ' (Y_exists k j) = fixed_to (bool_decide (k = xp)) ∧
       σ' (Y_not_exists k j) = fixed_to (negb (bool_decide (k = xp)))) ∧
    (∀ b, var_k b ∉ set_k ∨ var_j b ∉ set_j → σ' b = σ b).
Proof.
  unfold SmallBatch.external_ref. rewrite read_ext_var_three.
  cbn [mbind Res_bind].
  destruct (fix_all_spec
              [("mixer"%string, x0); ("reactor"%string, x1); ("centrifuge"%string, x2)]
              set_k set_j σ) as (σ' & Hσ' & Hb).
  { intros j Hj. unfold set_j in Hj.
    repeat (apply elem_of_cons in Hj as [->|Hj]); try (by eexists).
    by apply elem_of_nil in Hj. }
  exists σ'. split; [done|]. split.
  - intros p j xp k Hj Hx Hk.
    rewrite !Hb. cbn [var_k var_j].
    rewrite !decide_True by (split; [done|by eapply list_elem_of_lookup_2]).
    destruct p as [|[|[|p]]]; cbn in Hj, Hx; by simplify_eq.
  - intros b Hor. rewrite Hb. rewrite decide_False; [done|]. tauto.
Qed.

Lemma read_ext_var_short x :
  (length x < 3)%nat → read_ext_var x = Raise IndexError.
Proof.
  intros Hlen. destruct x as [|x0 [|x1 [|x2 x]]]; [done..|cbn in Hlen; lia].
Qed.

(** X19. The fixing of the small batch problem with fewer than three
    values raises [IndexError], and it does so before any variable is
    fixed: the exception is raised by the loop that reads [x] into
    [ext_var], which does not touch the model and runs before the loop
    that fixes. *)
Theorem small_batch_short_vector (σ : SmallBatch.store) x :
  (length x < 3)%nat →
  read_ext_var x = Raise IndexError ∧
  SmallBatch.external_ref σ x = Raise IndexError.
Proof.
  intros Hlen. unfold SmallBatch.external_ref.
  by rewrite read_ext_var_short.
Qed.

Lemma small_batch_short_vector_witness :
  (length [2; 2] < 3)%nat ∧
  read_ext_var [2; 2] = Raise IndexError ∧
  SmallBatch.external_ref (λ _, {| value := None; fixed := false |}) [2; 2]
  = Raise IndexError.
Proof.
  assert (length [2; 2] < 3)%nat as Hlen by (cbn; lia).
  split; [exact Hlen|].
  exact (small_batch_short_vector (λ _, {| value := None; fixed := false |})
           [2; 2] Hlen).
Defined.

Lemma lim_scan :
  get_external_information lim [(Y_family, "k")]
  = Ok ([(1, lim_entry "mixer"); (2, lim_entry "reactor");
         (3, lim_entry "centrifuge")], 3, [1; 1; 1], [3; 3; 3]).
Proof. vm_compute. reflexivity. Qed.

Lemma Ykj_inj k j k' j' : Ykj k j = Ykj k' j' → k = k' ∧ j = j'.
Proof. intros H. apply (f_equal bv_index) in H. cbn in H. by simplify_eq. Qed.

Lemma set_k_cases k : k ∈ set_k → k = 1 ∨ k = 2 ∨ k = 3.
Proof. unfold set_k. rewrite !elem_of_cons, elem_of_nil. tauto. Qed.

Lemma set_j_NoDup : NoDup set_j.
Proof. apply (bool_decide_unpack _). vm_compute. exact I. Qed.

(** Which [Y[k, j]] the positions of [x] select among the entries of the
    three stages. *)
Lemma lim_selected (x : list Z) p j xp k :
  set_j !! p = Some j → x !! p = Some xp → k ∈ set_k →
  selected_from x 0 (lim_entry <$> set_j) (Ykj k j) ↔ k = xp.
Proof.
  intros Hj Hx Hk. split.
  - intros (p' & e & v & He & Hv & Hv1 & Hb). cbn [Nat.add] in Hv.
    rewrite list_lookup_fmap in He.
    destruct (set_j !! p') as [j'|] eqn:Hj'; cbn in He; [|done].
    injection He as <-. cbn [lim_entry Boolean_vars] in Hb.
    assert (k = v ∧ j' = j) as [-> ->].
    { destruct (Z.to_nat (v - 1)) as [|[|[|n]]] eqn:Hn; cbn in Hb; try done;
        injection Hb as _ <- <-; (split; [lia|done]). }
    assert (p' = p) as -> by (by eapply NoDup_lookup; [apply set_j_NoDup|..]).
    congruence.
  - intros ->. exists p, (lim_entry j), xp.
    rewrite list_lookup_fmap, Hj. split_and!; [done|done|].
    apply set_k_cases in Hk as [->|[->| ->]]; by split.
Qed.

Lemma lim_booleans k j :
  k ∈ set_k → j ∈ set_j → Ykj k j ∈ booleans_of (lim_entry <$> set_j).
Proof.
  intros Hk Hj. unfold booleans_of. apply list_elem_of_bind.
  exists (lim_entry j). split; [|by apply list_elem_of_fmap_2].
  cbn. apply set_k_cases in Hk as [->|[->| ->]]; rewrite !elem_of_cons; tauto.
Qed.

(** X20. The generic reformulation fixes the [Y[k, j]] of the small batch
    model as the hand-written one does, and nothing else.  The scanner, run
    on the constraints [lim] with [Y] referred to its set [k], finds one
    external variable per stage with bounds [1] and [3]; for every vector
    of three values, the passes of the generic [external_ref] on a model
    without fixed Booleans complete, and the call returns what the
    transformations return on the model [σg] they are handed; the fixing
    of [gdp_small_batch.py] on any model returns a model [σs]; every
    [Y[k, j]] has the same state in [σg] and in [σs]; in [σg] every other
    Boolean, the indicators of the disjuncts among them, is as it was,
    without a value. *)
Theorem small_batch_reformulations_agree x0 x1 x2 (σ : SmallBatch.store) :
  ∃ rd σg σs,
    get_external_information lim [(Y_family, "k")]
      = Ok (rd, 3, [1; 1; 1], [3; 3; 3]) ∧
    (∀ transformations,
       Reformulation.external_ref transformations fresh_store [x0; x1; x2] rd
         (Some [])
       = transformations σg) ∧
    SmallBatch.external_ref σ [x0; x1; x2] = Ok σs ∧
    (∀ k j, k ∈ set_k → j ∈ set_j → σg (Ykj k j) = σs (Y k j)) ∧
    (∀ b, (∀ k j, k ∈ set_k → j ∈ set_j → b ≠ Ykj k j) →
       σg b = fresh_store b).
Proof.
  set (rd := [(1, lim_entry "mixer"); (2, lim_entry "reactor");
              (3, lim_entry "centrifuge")]).
  assert (slots rd = lim_entry <$> set_j) as Hslots by reflexivity.
  destruct (external_ref_general [x0; x1; x2] rd fresh_store [])
    as (σg & Hσg & Hg); [rewrite Hslots; cbn; lia|].
  destruct (small_batch_external_ref σ x0 x1 x2 []) as (σs & Hσs & Hs).
  exists rd, σg, σs. split_and!; [apply lim_scan| |done| |].
  - intros tr. rewrite Hσg.
    change (print_fixed rd) with (Ok ()). by destruct (tr σg).
  - intros k j Hk Hj.
    apply list_elem_of_lookup in Hj as [p Hp].
    assert (is_Some ([x0; x1; x2] !! p)) as [xp Hxp].
    { apply lookup_lt_is_Some_2. apply lookup_lt_Some in Hp. exact Hp. }
    rewrite (Hs p j xp k Hp Hxp Hk).
    destruct (Hg (Ykj k j)) as (Htrue & Hfalse & _); [by intros i ?%elem_of_nil|].
    rewrite Hslots in Htrue, Hfalse.
    pose proof (lim_selected [x0; x1; x2] p j xp k Hp Hxp Hk) as Hsel.
    case_bool_decide as Hkx.
    + apply Htrue. by apply Hsel.
    + apply Hfalse; [by rewrite Hsel| |done].
      apply lim_booleans; [done|by eapply list_elem_of_lookup_2].
  - intros b Hb.
    destruct (Hg b) as (_ & _ & Hkeep); [by intros i ?%elem_of_nil|].
    assert (b ∉ booleans_of (slots rd)) as Hnin.
    { rewrite Hslots. unfold booleans_of. intros Hin.
      apply list_elem_of_bind in Hin as (e & Hbe & He).
      apply list_elem_of_fmap in He as (j & -> & Hj).
      cbn [lim_entry Boolean_vars] in Hbe.
      repeat (apply elem_of_cons in Hbe as [->|Hbe]);
        [..|by apply elem_of_nil in Hbe];
        (eapply Hb; [|exact Hj|reflexivity]);
        unfold set_k; rewrite !elem_of_cons; tauto. }
    apply Hkeep; [|by left].
    intros (p & e & v & He & _ & _ & Hbv). apply Hnin.
    by eapply booleans_of_lookup.
Qed.

End BatchFacts.
